(** * Lighthouse dependency-graph estimator: TCP connection model and scheduler

    A shallow embedding of
    [lighthouse-core/gather/computed/dependency-graph/estimator/tcp-connection.js]
    and of the [Estimator] class that drives it, with the properties of the
    specification stated over the embedding.  The static methods of the
    [UnusedCSSRules] audit and the polling of [Launcher.waitUntilReady] are
    embedded after them, with properties of their own.

    Numbers.  A JavaScript number is modelled by [num]: an exact rational, one
    of the two infinities, or NaN.  Arithmetic follows the IEEE rules for the
    special values ([Infinity - Infinity] is NaN, a comparison with NaN is
    false, [x / 0] is infinite, ...) and is exact on rationals: rounding to
    binary64 and the sign of zero are not modelled. *)

From Stdlib Require Import QArith Qround Lia Lqa ZArith List Bool Ascii String.
From stdpp Require Import gmap list strings.

Local Open Scope Q_scope.

(* ===================================================================== *)
(** ** JavaScript numbers *)
(* ===================================================================== *)

Inductive num : Type :=
| Fin (q : Q)
| PInf
| NInf
| NaN.

Declare Scope num_scope.
Delimit Scope num_scope with num.
Bind Scope num_scope with num.

Module Num.

(** Finite results are kept in lowest terms. *)
Definition fin (q : Q) : num := Fin (Qred q).

Definition of_Z (z : Z) : num := Fin (inject_Z z).
Definition of_nat (n : nat) : num := of_Z (Z.of_nat n).

Definition Qltb (x y : Q) : bool := negb (Qle_bool y x).

Definition neg (a : num) : num :=
  match a with
  | Fin x => Fin (- x)
  | PInf => NInf
  | NInf => PInf
  | NaN => NaN
  end.

Definition add (a b : num) : num :=
  match a, b with
  | NaN, _ | _, NaN => NaN
  | Fin x, Fin y => fin (x + y)
  | PInf, NInf | NInf, PInf => NaN
  | PInf, _ | _, PInf => PInf
  | NInf, _ | _, NInf => NInf
  end.

Definition sub (a b : num) : num := add a (neg b).

(** [scale_inf inf q]: an infinity times a finite number. *)
Definition scale_inf (inf : num) (q : Q) : num :=
  if Qltb 0 q then inf
  else if Qltb q 0 then neg inf
  else NaN.

Definition mul (a b : num) : num :=
  match a, b with
  | NaN, _ | _, NaN => NaN
  | Fin x, Fin y => fin (x * y)
  | Fin x, PInf => scale_inf PInf x
  | Fin x, NInf => scale_inf NInf x
  | PInf, Fin y => scale_inf PInf y
  | NInf, Fin y => scale_inf NInf y
  | PInf, PInf | NInf, NInf => PInf
  | PInf, NInf | NInf, PInf => NInf
  end.

Definition div (a b : num) : num :=
  match a, b with
  | NaN, _ | _, NaN => NaN
  | Fin x, Fin y =>
      if Qeq_bool y 0 then scale_inf PInf x else fin (x / y)
  | Fin _, (PInf | NInf) => Fin 0
  | PInf, Fin y => if Qltb y 0 then NInf else PInf
  | NInf, Fin y => if Qltb y 0 then PInf else NInf
  | (PInf | NInf), (PInf | NInf) => NaN
  end.

(** [a < b], [a <= b], [a > b], [a >= b] and [a === b] of JavaScript. *)
Definition ltb (a b : num) : bool :=
  match a, b with
  | NaN, _ | _, NaN => false
  | Fin x, Fin y => Qltb x y
  | _, NInf => false
  | NInf, _ => true
  | PInf, _ => false
  | _, PInf => true
  end.

Definition leb (a b : num) : bool :=
  match a, b with
  | NaN, _ | _, NaN => false
  | Fin x, Fin y => Qle_bool x y
  | NInf, _ => true
  | _, PInf => true
  | _, NInf => false
  | PInf, _ => false
  end.

Definition gtb (a b : num) : bool := ltb b a.
Definition geb (a b : num) : bool := leb b a.

Definition eqb (a b : num) : bool :=
  match a, b with
  | Fin x, Fin y => Qeq_bool x y
  | PInf, PInf | NInf, NInf => true
  | _, _ => false
  end.

(** [Math.min], [Math.max], [Math.floor], [Math.ceil]. *)
Definition min (a b : num) : num :=
  match a, b with
  | NaN, _ | _, NaN => NaN
  | _, _ => if leb a b then a else b
  end.

Definition max (a b : num) : num :=
  match a, b with
  | NaN, _ | _, NaN => NaN
  | _, _ => if leb a b then b else a
  end.

Definition floor (a : num) : num :=
  match a with
  | Fin x => of_Z (Qfloor x)
  | _ => a
  end.

Definition ceil (a : num) : num :=
  match a with
  | Fin x => of_Z (Qceiling x)
  | _ => a
  end.

(** [Number.isFinite]. *)
Definition isFinite (a : num) : bool :=
  match a with
  | Fin _ => true
  | _ => false
  end.

(** Truthiness of a number: [0] and [NaN] are falsy. *)
Definition truthy (a : num) : bool :=
  match a with
  | Fin x => negb (Qeq_bool x 0)
  | NaN => false
  | _ => true
  end.

(** Equality of numbers as values: rationals up to [Qeq]. *)
Definition eq (a b : num) : Prop :=
  match a, b with
  | Fin x, Fin y => x == y
  | PInf, PInf | NInf, NInf | NaN, NaN => True
  | _, _ => False
  end.

Definition le (a b : num) : Prop := leb a b = true.
Definition lt (a b : num) : Prop := ltb a b = true.

End Num.

Notation "a + b" := (Num.add a b) : num_scope.
Notation "a - b" := (Num.sub a b) : num_scope.
Notation "a * b" := (Num.mul a b) : num_scope.
Notation "a / b" := (Num.div a b) : num_scope.
Notation "a == b" := (Num.eq a b) : num_scope.
Notation "a <= b" := (Num.le a b) : num_scope.
Notation "a < b" := (Num.lt a b) : num_scope.

Coercion Num.of_Z : Z >-> num.

(* ===================================================================== *)
(** ** tcp-connection.js *)
(* ===================================================================== *)

Definition INITIAL_CONGESTION_WINDOW : num := 10%Z.
Definition TCP_SEGMENT_SIZE : num := 1460%Z.

Module TcpConnection.

Record t : Type := mk {
  _warmed : bool;
  _ssl : bool;
  _rtt : num;
  _availableThroughput : num;
  _responseTime : num;
  _congestionWindow : num;
}.

(** [new TcpConnection(rtt, throughput, responseTime, ssl)]; the defaults
    of the last two parameters are [0] and [true]. *)
Definition constructor (rtt throughput responseTime : num) (ssl : bool) : t :=
  {| _warmed := false;
     _ssl := ssl;
     _rtt := rtt;
     _availableThroughput := throughput;
     _responseTime := responseTime;
     _congestionWindow := INITIAL_CONGESTION_WINDOW |}.

Definition maximumSaturatedConnections (rtt availableThroughput : num) : num :=
  let roundTripsPerSecond := (1000%Z / rtt)%num in
  let bytesPerRoundTrip := TCP_SEGMENT_SIZE in
  let bytesPerSecond := (roundTripsPerSecond * bytesPerRoundTrip)%num in
  let minimumThroughputRequiredPerRequest := (bytesPerSecond * 8%Z)%num in
  Num.floor (availableThroughput / minimumThroughputRequiredPerRequest)%num.

(** *** Methods

    A method is a computation over the receiver: it returns its result and
    the receiver's state after the call, or [None] when the call does not
    finish. *)
Definition M (A : Type) : Type := t -> option (A * t).

#[global] Instance M_ret : MRet M := fun A a c => Some (a, c).
#[global] Instance M_bind : MBind M := fun A B k m c =>
  match m c with
  | Some (a, c') => k a c'
  | None => None
  end.
Definition read {A} (field : t -> A) : M A := fun c => Some (field c, c).
Definition write (f : t -> t) : M unit := fun c => Some (tt, f c).
Definition lift {A} (o : option A) : M A :=
  fun c => match o with
           | Some a => Some (a, c)
           | None => None
           end.

Definition _computeMaximumCongestionWindowInSegments : M num :=
  availableThroughput ← read _availableThroughput;
  rtt ← read _rtt;
  let bytesPerSecond := (availableThroughput / 8%Z)%num in
  let secondsPerRoundTrip := (rtt / 1000%Z)%num in
  let bytesPerRoundTrip := (bytesPerSecond * secondsPerRoundTrip)%num in
  mret (Num.floor (bytesPerRoundTrip / TCP_SEGMENT_SIZE)%num).

Definition setThroughput (throughput : num) : M unit :=
  write (fun c => {| _warmed := _warmed c; _ssl := _ssl c; _rtt := _rtt c;
                     _availableThroughput := throughput;
                     _responseTime := _responseTime c;
                     _congestionWindow := _congestionWindow c |}).

Definition setCongestionWindow (congestion : num) : M unit :=
  write (fun c => {| _warmed := _warmed c; _ssl := _ssl c; _rtt := _rtt c;
                     _availableThroughput := _availableThroughput c;
                     _responseTime := _responseTime c;
                     _congestionWindow := congestion |}).

Definition setWarmed (value : bool) : M unit :=
  write (fun c => {| _warmed := value; _ssl := _ssl c; _rtt := _rtt c;
                     _availableThroughput := _availableThroughput c;
                     _responseTime := _responseTime c;
                     _congestionWindow := _congestionWindow c |}).

(** The object returned by [calculateTimeToDownload]. *)
Record Calculation : Type := {
  roundTrips : num;
  timeElapsed : num;
  bytesDownloaded : num;
  congestionWindow : num;
}.

(** The local variables the [while] loop of [calculateTimeToDownload]
    assigns. *)
Record Locals : Type := {
  l_roundTrips : num;
  l_downloadTimeElapsed : num;
  l_congestionWindow : num;
  l_bytesDownloaded : num;
  l_bytesRemaining : num;
}.

Section Loop.
Variables (twoWayLatency maximumCongestionWindow
           maximumDownloadTimeToElapse : num).

Definition loop_cond (s : Locals) : bool :=
  Num.gtb (l_bytesRemaining s) 0%Z
  && Num.leb (l_downloadTimeElapsed s) maximumDownloadTimeToElapse.

Definition loop_body (s : Locals) : Locals :=
  let roundTrips := (l_roundTrips s + 1%Z)%num in
  let downloadTimeElapsed := (l_downloadTimeElapsed s + twoWayLatency)%num in
  let congestionWindow :=
    Num.max (Num.min maximumCongestionWindow
                     (l_congestionWindow s * 2%Z)%num) 1%Z in
  let bytesDownloadedInWindow := (congestionWindow * TCP_SEGMENT_SIZE)%num in
  {| l_roundTrips := roundTrips;
     l_downloadTimeElapsed := downloadTimeElapsed;
     l_congestionWindow := congestionWindow;
     l_bytesDownloaded := (l_bytesDownloaded s + bytesDownloadedInWindow)%num;
     l_bytesRemaining := (l_bytesRemaining s - bytesDownloadedInWindow)%num |}.

(** The [while] loop, run for at most [fuel] iterations; [None] when the
    condition still holds after them. *)
Fixpoint while_loop (fuel : nat) (s : Locals) : option Locals :=
  if loop_cond s then
    match fuel with
    | O => None
    | S fuel' => while_loop fuel' (loop_body s)
    end
  else Some s.
End Loop.

(** Every iteration after which the loop goes on takes at least one segment
    off a finite [bytesRemaining], so this many iterations are enough; an
    infinite [bytesRemaining] gets none (such a transfer is outside the
    model: the call is [None] when the loop would be entered). *)
Definition loop_fuel (bytesRemaining : num) : nat :=
  match bytesRemaining with
  | Fin q => Z.to_nat (Qceiling (q / 1460))
  | _ => O
  end.

Definition calculateTimeToDownload
    (bytesToDownload timeAlreadyElapsed maximumTimeToElapse : num)
    : M Calculation :=
  twoWayLatency ← read _rtt;
  let oneWayLatency := (twoWayLatency / 2%Z)%num in
  maximumCongestionWindow ← _computeMaximumCongestionWindowInSegments;
  warmed ← read _warmed;
  ssl ← read _ssl;
  let handshakeAndRequest :=
    if negb warmed then
      (oneWayLatency + oneWayLatency + oneWayLatency
       + (if (ssl : bool) then twoWayLatency else 0%Z))%num
    else oneWayLatency in
  let roundTrips := Num.ceil (handshakeAndRequest / twoWayLatency)%num in
  responseTime ← read _responseTime;
  let timeToFirstByte :=
    (handshakeAndRequest + responseTime + oneWayLatency)%num in
  let timeElapsedForTTFB :=
    Num.max (timeToFirstByte - timeAlreadyElapsed)%num 0%Z in
  let maximumDownloadTimeToElapse :=
    (maximumTimeToElapse - timeElapsedForTTFB)%num in
  thisCongestionWindow ← read _congestionWindow;
  let congestionWindow := Num.min thisCongestionWindow maximumCongestionWindow in
  let '(bytesDownloaded, roundTrips) :=
    if Num.gtb timeElapsedForTTFB 0%Z
    then ((congestionWindow * TCP_SEGMENT_SIZE)%num, roundTrips)
    else (Fin 0, Fin 0) in
  let downloadTimeElapsed : num := 0%Z in
  let bytesRemaining := (bytesToDownload - bytesDownloaded)%num in
  s ← lift (while_loop twoWayLatency maximumCongestionWindow
               maximumDownloadTimeToElapse (loop_fuel bytesRemaining)
               {| l_roundTrips := roundTrips;
                  l_downloadTimeElapsed := downloadTimeElapsed;
                  l_congestionWindow := congestionWindow;
                  l_bytesDownloaded := bytesDownloaded;
                  l_bytesRemaining := bytesRemaining |});
  let timeElapsed := (timeElapsedForTTFB + l_downloadTimeElapsed s)%num in
  let bytesDownloaded := Num.min (l_bytesDownloaded s) bytesToDownload in
  mret {| roundTrips := l_roundTrips s;
         timeElapsed := timeElapsed;
         bytesDownloaded := bytesDownloaded;
         congestionWindow := l_congestionWindow s |}.

End TcpConnection.

(* ===================================================================== *)
(** ** The dependency graph

    The [Node] class is not part of the sources at hand; the estimator uses
    its [type] and [record] fields and its [getDependencies], [getDependents]
    and [traverse] methods.  A node is referred to by an identifier (object
    identity in the source). *)
(* ===================================================================== *)

Abbreviation NodeId := nat.
Abbreviation ConnectionId := nat.

Inductive NodeType : Type := NETWORK | CPU.

Record Timing : Type := {
  receiveHeadersEnd : num;
  sendEnd : num;
}.

Record NetworkRecord : Type := {
  connectionId : ConnectionId;
  transferSize : num;
  scheme : string;                (* [parsedURL.scheme] *)
  _timing : option Timing;
}.

(** A node is a network request carrying its record, or a CPU task. *)
Inductive NodeData : Type :=
| NetworkNode (record : NetworkRecord)
| CPUNode.

Record Node : Type := {
  data : NodeData;
  getDependencies : list NodeId;
  getDependents : list NodeId;
}.

Definition type (n : Node) : NodeType :=
  match data n with
  | NetworkNode _ => NETWORK
  | CPUNode => CPU
  end.

(** Modelled from the spec: [Node.traverse] is missing from the sources; the
    specification has it visit every node reachable from the root exactly
    once, in a deterministic order.  The graph carries that order. *)
Record Graph : Type := {
  getRootNode : NodeId;
  node : NodeId -> Node;
  traverse : list NodeId;
}.

(** What the specification says of [traverse]: it starts from the root and
    is closed under [getDependents], without repetition. *)
Definition traverse_closed (g : Graph) : Prop :=
  getRootNode g ∈ traverse g
  ∧ ∀ n d, n ∈ traverse g → d ∈ getDependents (node g n) → d ∈ traverse g.

(* ===================================================================== *)
(** ** JavaScript [Set]s of identifiers, in insertion order *)
(* ===================================================================== *)

Module JSSet.
Definition has (x : nat) (s : list nat) : bool := bool_decide (x ∈ s).
Definition add (x : nat) (s : list nat) : list nat :=
  if has x s then s else s ++ [x].
Definition delete (x : nat) (s : list nat) : list nat :=
  filter (λ y, y ≠ x) s.
Definition size (s : list nat) : num := Num.of_nat (length s).
End JSSet.

(* ===================================================================== *)
(** ** estimator.js *)
(* ===================================================================== *)

Definition DEFAULT_MAXIMUM_CONCURRENT_REQUESTS : num := 10%Z.
Definition DEFAULT_RESPONSE_TIME : num := 30%Z.
Definition DEFAULT_RTT : num := 150%Z.
Definition DEFAULT_THROUGHPUT : num := (1600 * 1024)%Z.

(** [groupBy]: a [Map] from key to the items with that key, keys in the order
    of their first item. *)
Section GroupBy.
Context {A : Type} (keyFunc : A -> nat).

Fixpoint map_set (key : nat) (group : list A) (grouped : list (nat * list A))
    : list (nat * list A) :=
  match grouped with
  | [] => [(key, group)]
  | (k, g) :: rest =>
      if Nat.eqb k key then (k, group) :: rest
      else (k, g) :: map_set key group rest
  end.

Fixpoint map_get (key : nat) (grouped : list (nat * list A)) : option (list A) :=
  match grouped with
  | [] => None
  | (k, g) :: rest => if Nat.eqb k key then Some g else map_get key rest
  end.

Definition groupBy (items : list A) : list (nat * list A) :=
  fold_left
    (fun grouped item =>
       let key := keyFunc item in
       let group := default [] (map_get key grouped) in
       map_set key (group ++ [item]) grouped)
    items [].
End GroupBy.

Inductive Error : Type :=
| Unsupported                (* [new Error('Unsupported')] *)
| MaximumDepthExceeded       (* [new Error('Maximum depth exceeded: estimate')] *)
| TypeError.                 (* a property read on [undefined] *)

(** The outcome of a call: a result, an exception, or no result because a
    call of [calculateTimeToDownload] has none. *)
Inductive outcome (A : Type) : Type :=
| Ret (a : A)
| Throw (e : Error)
| NoResult.
Arguments Ret {A} a.
Arguments Throw {A} e.
Arguments NoResult {A}.

Module Estimator.

Record Options : Type := {
  rtt : option num;
  throughput : option num;
  defaultResponseTime : option num;
  maximumConcurrentRequests : option num;
}.

(** The fields the constructor sets: they do not change afterwards. *)
Record t : Type := {
  _graph : Graph;
  _rtt : num;
  _throughput : num;
  _defaultResponseTime : num;
  _maximumConcurrentRequests : num;
}.

Definition constructor (graph : Graph) (options : Options) : t :=
  let o_rtt := default DEFAULT_RTT (rtt options) in
  let o_throughput := default DEFAULT_THROUGHPUT (throughput options) in
  let o_defaultResponseTime :=
    default DEFAULT_RESPONSE_TIME (defaultResponseTime options) in
  let o_maximumConcurrentRequests :=
    default DEFAULT_MAXIMUM_CONCURRENT_REQUESTS
            (maximumConcurrentRequests options) in
  {| _graph := graph;
     _rtt := o_rtt;
     _throughput := o_throughput;
     _defaultResponseTime := o_defaultResponseTime;
     _maximumConcurrentRequests :=
       Num.min (TcpConnection.maximumSaturatedConnections o_rtt o_throughput)
               o_maximumConcurrentRequests |}.

Definition getResponseTime (record : NetworkRecord) : num :=
  match _timing record with
  | None => PInf
  | Some timing =>
      let measured := (receiveHeadersEnd timing - sendEnd timing)%num in
      if Num.truthy measured then measured else PInf
  end.

Record AuxiliaryData : Type := {
  startTime : num;
  timeElapsed : num;
  timeElapsedOvershoot : num;
  bytesDownloaded : num;
  estimatedTimeElapsed : option num;
  endTime : option num;
}.

(** The containers [estimate] initializes and then mutates. *)
Record State : Type := {
  _connections : gmap ConnectionId TcpConnection.t;
  _nodeAuxiliaryData : gmap NodeId AuxiliaryData;
  _nodesCompleted : list NodeId;
  _nodesInProcess : list NodeId;
  _nodesInQueue : list NodeId;
  _connectionsInUse : list ConnectionId;
}.

Section Methods.
Variable this : t.

Definition _initializeNetworkRecords : list NetworkRecord :=
  flat_map (fun n => match data (node (_graph this) n) with
                     | NetworkNode record => [record]
                     | CPUNode => []
                     end)
           (traverse (_graph this)).

Definition connectionFor (records : list NetworkRecord) : TcpConnection.t :=
  let isSsl := match records with
               | r :: _ => String.eqb (scheme r) "https"
               | [] => false
               end in
  let responseTime :=
    fold_left (fun min record => Num.min min (getResponseTime record))
              records PInf in
  let responseTime :=
    if negb (Num.isFinite responseTime) then _defaultResponseTime this
    else responseTime in
  TcpConnection.constructor (_rtt this) (_throughput this) responseTime isSsl.

Definition _initializeNetworkConnections (networkRecords : list NetworkRecord)
    : gmap ConnectionId TcpConnection.t :=
  let recordsByConnection := groupBy connectionId networkRecords in
  fold_left (fun connections '(connectionId, records) =>
               <[connectionId := connectionFor records]> connections)
            recordsByConnection ∅.

Definition _initializeAuxiliaryData
    (connections : gmap ConnectionId TcpConnection.t) : State :=
  {| _connections := connections;
     _nodeAuxiliaryData := ∅;
     _nodesCompleted := [];
     _nodesInProcess := [];
     _nodesInQueue := [];
     _connectionsInUse := [] |}.

(** *** Methods that mutate the containers

    A method returns its result and the containers after the call, or
    throws.  Next to the outcome it yields the history of the call: the
    containers after each mutation it made, in order. *)
Definition E (A : Type) : Type := State -> list State * outcome (A * State).

#[global] Instance E_ret : MRet E := fun A a s => ([], Ret (a, s)).
#[global] Instance E_bind : MBind E := fun A B k m s =>
  match m s with
  | (h, Ret (a, s')) => let '(h', r) := k a s' in (h ++ h', r)
  | (h, Throw e) => (h, Throw e)
  | (h, NoResult) => (h, NoResult)
  end.
Definition get {A} (field : State -> A) : E A := fun s => ([], Ret (field s, s)).
Definition modify (f : State -> State) : E unit :=
  fun s => ([f s], Ret (tt, f s)).
Definition throw {A} (e : Error) : E A := fun _ => ([], Throw e).
Definition noResult {A} : E A := fun _ => ([], NoResult).

(** [x.f] where [x] is the result of a [Map.get]: a TypeError when the
    key is absent. *)
Definition defined {A} (o : option A) : E A :=
  match o with
  | Some a => mret a
  | None => throw TypeError
  end.

(** [for (const x of xs) body(x)], over the elements [xs] had when the
    loop started.  The loops of the estimator remove from the set they
    iterate over at most the element being visited, and add nothing to
    it, so they visit exactly these elements. *)
Fixpoint for_of {A} (xs : list A) (body : A -> E unit) : E unit :=
  match xs with
  | [] => mret tt
  | x :: xs' => _ ← body x; for_of xs' body
  end.

Definition set_connections f (s : State) : State :=
  {| _connections := f (_connections s);
     _nodeAuxiliaryData := _nodeAuxiliaryData s;
     _nodesCompleted := _nodesCompleted s;
     _nodesInProcess := _nodesInProcess s;
     _nodesInQueue := _nodesInQueue s;
     _connectionsInUse := _connectionsInUse s |}.
Definition set_nodeAuxiliaryData f (s : State) : State :=
  {| _connections := _connections s;
     _nodeAuxiliaryData := f (_nodeAuxiliaryData s);
     _nodesCompleted := _nodesCompleted s;
     _nodesInProcess := _nodesInProcess s;
     _nodesInQueue := _nodesInQueue s;
     _connectionsInUse := _connectionsInUse s |}.
Definition set_nodesCompleted f (s : State) : State :=
  {| _connections := _connections s;
     _nodeAuxiliaryData := _nodeAuxiliaryData s;
     _nodesCompleted := f (_nodesCompleted s);
     _nodesInProcess := _nodesInProcess s;
     _nodesInQueue := _nodesInQueue s;
     _connectionsInUse := _connectionsInUse s |}.
Definition set_nodesInProcess f (s : State) : State :=
  {| _connections := _connections s;
     _nodeAuxiliaryData := _nodeAuxiliaryData s;
     _nodesCompleted := _nodesCompleted s;
     _nodesInProcess := f (_nodesInProcess s);
     _nodesInQueue := _nodesInQueue s;
     _connectionsInUse := _connectionsInUse s |}.
Definition set_nodesInQueue f (s : State) : State :=
  {| _connections := _connections s;
     _nodeAuxiliaryData := _nodeAuxiliaryData s;
     _nodesCompleted := _nodesCompleted s;
     _nodesInProcess := _nodesInProcess s;
     _nodesInQueue := f (_nodesInQueue s);
     _connectionsInUse := _connectionsInUse s |}.
Definition set_connectionsInUse f (s : State) : State :=
  {| _connections := _connections s;
     _nodeAuxiliaryData := _nodeAuxiliaryData s;
     _nodesCompleted := _nodesCompleted s;
     _nodesInProcess := _nodesInProcess s;
     _nodesInQueue := _nodesInQueue s;
     _connectionsInUse := f (_connectionsInUse s) |}.

(** A method call on the connection stored under [id]; the connection
    object is updated in place. *)
Definition onConnection {A} (id : ConnectionId) (m : TcpConnection.M A) : E A :=
  connections ← get _connections;
  connection ← defined (connections !! id);
  match m connection with
  | None => noResult
  | Some (a, connection') =>
      _ ← modify (set_connections <[id := connection']>);
      mret a
  end.

Definition _enqueueNodeIfPossible (n : NodeId) : E unit :=
  let dependencies := getDependencies (node (_graph this) n) in
  nodesCompleted ← get _nodesCompleted;
  if negb (JSSet.has n nodesCompleted)
     && forallb (fun dependency => JSSet.has dependency nodesCompleted)
                dependencies
  then modify (set_nodesInQueue (JSSet.add n))
  else mret tt.

(** When [this._connections.get] finds no connection the source goes on
    with [undefined]: it admits the node and fails with a TypeError at
    the next statement of [estimate], [_updateNetworkCapacity], which
    calls a method on every connection in use.  The model throws at the
    admission. *)
Definition _startNodeIfPossible (n : NodeId) (totalElapsedTime : num) : E unit :=
  match data (node (_graph this) n) with
  | CPUNode => mret tt
  | NetworkNode record =>
      connections ← get _connections;
      nodesInProcess ← get _nodesInProcess;
      connectionsInUse ← get _connectionsInUse;
      let connection := connections !! connectionId record in
      if Num.geb (JSSet.size nodesInProcess) (_maximumConcurrentRequests this)
         || (match connection with
             | Some _ => JSSet.has (connectionId record) connectionsInUse
             | None => false
             end)
      then mret tt
      else
        _ ← defined connection;
        _ ← modify (set_nodesInQueue (JSSet.delete n));
        _ ← modify (set_nodesInProcess (JSSet.add n));
        _ ← modify (set_nodeAuxiliaryData
                      <[n := {| startTime := totalElapsedTime;
                                timeElapsed := 0%Z;
                                timeElapsedOvershoot := 0%Z;
                                bytesDownloaded := 0%Z;
                                estimatedTimeElapsed := None;
                                endTime := None |}]>);
        modify (set_connectionsInUse (JSSet.add (connectionId record)))
  end.

Definition _updateNetworkCapacity : E unit :=
  connectionsInUse ← get _connectionsInUse;
  for_of connectionsInUse (fun connection =>
    nodesInProcess ← get _nodesInProcess;
    onConnection connection
      (TcpConnection.setThroughput
         (_throughput this / JSSet.size nodesInProcess)%num)).

Definition _estimateTimeRemaining (n : NodeId) : E num :=
  match data (node (_graph this) n) with
  | CPUNode => throw Unsupported
  | NetworkNode record =>
      nodeAuxiliaryData ← get _nodeAuxiliaryData;
      auxiliaryData ← defined (nodeAuxiliaryData !! n);
      calculation ← onConnection (connectionId record)
        (TcpConnection.calculateTimeToDownload
           (transferSize record - bytesDownloaded auxiliaryData)%num
           (timeElapsed auxiliaryData)
           PInf);
      let estimate :=
        (TcpConnection.timeElapsed calculation
         + timeElapsedOvershoot auxiliaryData)%num in
      _ ← modify (set_nodeAuxiliaryData
                    <[n := {| startTime := startTime auxiliaryData;
                              timeElapsed := timeElapsed auxiliaryData;
                              timeElapsedOvershoot :=
                                timeElapsedOvershoot auxiliaryData;
                              bytesDownloaded := bytesDownloaded auxiliaryData;
                              estimatedTimeElapsed := Some estimate;
                              endTime := endTime auxiliaryData |}]>);
      mret estimate
  end.

Fixpoint findNext (nodes : list NodeId) (minimumTime : num) : E num :=
  match nodes with
  | [] => mret minimumTime
  | n :: nodes' =>
      estimate ← _estimateTimeRemaining n;
      findNext nodes' (Num.min minimumTime estimate)
  end.

Definition _findNextNodeCompletionTime : E num :=
  nodesInProcess ← get _nodesInProcess;
  findNext nodesInProcess PInf.

(** [estimatedTimeElapsed === timePeriodLength]; the field is [undefined]
    until [_estimateTimeRemaining] sets it. *)
Definition strictly_equal (x : option num) (y : num) : bool :=
  match x with
  | Some x => Num.eqb x y
  | None => false
  end.

Definition _updateProgressMadeInTimePeriod
    (n : NodeId) (timePeriodLength totalElapsedTime : num) : E unit :=
  match data (node (_graph this) n) with
  | CPUNode => throw Unsupported
  | NetworkNode record =>
      nodeAuxiliaryData ← get _nodeAuxiliaryData;
      auxiliaryData ← defined (nodeAuxiliaryData !! n);
      calculation ← onConnection (connectionId record)
        (TcpConnection.calculateTimeToDownload
           (transferSize record - bytesDownloaded auxiliaryData)%num
           (timeElapsed auxiliaryData)
           (timePeriodLength - timeElapsedOvershoot auxiliaryData)%num);
      _ ← onConnection (connectionId record)
        (TcpConnection.setCongestionWindow
           (TcpConnection.congestionWindow calculation));
      if strictly_equal (estimatedTimeElapsed auxiliaryData) timePeriodLength
      then
        _ ← modify (set_nodeAuxiliaryData
                      <[n := {| startTime := startTime auxiliaryData;
                                timeElapsed := timeElapsed auxiliaryData;
                                timeElapsedOvershoot :=
                                  timeElapsedOvershoot auxiliaryData;
                                bytesDownloaded := bytesDownloaded auxiliaryData;
                                estimatedTimeElapsed :=
                                  estimatedTimeElapsed auxiliaryData;
                                endTime := Some totalElapsedTime |}]>);
        _ ← onConnection (connectionId record) (TcpConnection.setWarmed true);
        _ ← modify (set_connectionsInUse (JSSet.delete (connectionId record)));
        _ ← modify (set_nodesCompleted (JSSet.add n));
        _ ← modify (set_nodesInProcess (JSSet.delete n));
        for_of (getDependents (node (_graph this) n)) _enqueueNodeIfPossible
      else
        modify (set_nodeAuxiliaryData
                  <[n := {| startTime := startTime auxiliaryData;
                            timeElapsed :=
                              (timeElapsed auxiliaryData
                               + TcpConnection.timeElapsed calculation)%num;
                            timeElapsedOvershoot :=
                              (timeElapsedOvershoot auxiliaryData
                               + (TcpConnection.timeElapsed calculation
                                  - timePeriodLength))%num;
                            bytesDownloaded :=
                              (bytesDownloaded auxiliaryData
                               + TcpConnection.bytesDownloaded calculation)%num;
                            estimatedTimeElapsed :=
                              estimatedTimeElapsed auxiliaryData;
                            endTime := endTime auxiliaryData |}]>)
  end.

(** One pass through the body of the [while] loop of [estimate], up to
    the depth check. *)
Definition iteration (totalElapsedTime : num) : E num :=
  nodesInQueue ← get _nodesInQueue;
  _ ← for_of nodesInQueue (fun n => _startNodeIfPossible n totalElapsedTime);
  _ ← _updateNetworkCapacity;
  minimumTime ← _findNextNodeCompletionTime;
  let totalElapsedTime := (totalElapsedTime + minimumTime)%num in
  nodesInProcess ← get _nodesInProcess;
  _ ← for_of nodesInProcess (fun n =>
        _updateProgressMadeInTimePeriod n minimumTime totalElapsedTime);
  mret totalElapsedTime.

(** The [while] loop.  [budget] is [10000 - depth]: the pass that starts
    with no budget left is the one after which [depth > 10000]. *)
Fixpoint main_loop (budget : nat) (totalElapsedTime : num) : E num :=
  nodesInQueue ← get _nodesInQueue;
  nodesInProcess ← get _nodesInProcess;
  if Num.truthy (JSSet.size nodesInQueue)
     || Num.truthy (JSSet.size nodesInProcess)
  then
    totalElapsedTime ← iteration totalElapsedTime;
    match budget with
    | O => throw MaximumDepthExceeded
    | S budget' => main_loop budget' totalElapsedTime
    end
  else mret totalElapsedTime.

Definition initial_state : State :=
  let networkRecords := _initializeNetworkRecords in
  let connections := _initializeNetworkConnections networkRecords in
  set_nodesInQueue (JSSet.add (getRootNode (_graph this)))
                   (_initializeAuxiliaryData connections).

Definition run : list State * outcome (num * State) :=
  main_loop (Z.to_nat 10000) 0%Z initial_state.

Definition estimate : outcome num :=
  match snd run with
  | Ret (totalElapsedTime, _) => Ret totalElapsedTime
  | Throw e => Throw e
  | NoResult => NoResult
  end.

(** The containers throughout the run: as initialized, then after each
    mutation. *)
Definition history : list State := initial_state :: fst run.
End Methods.

End Estimator.

(* ===================================================================== *)
(** ** unused-css-rules.js *)
(* ===================================================================== *)

(** The static methods of the [UnusedCSSRules] audit that index the
    stylesheets and compute what each of them wastes.  An object used as a
    map from strings is a [gmap]: the properties an object inherits from
    [Object.prototype] are not modelled.  The length of a string is its
    number of characters. *)

Module UnusedCSSRules.
Local Open Scope string_scope.

(** [Math.round]: the nearest integer, a half going up. *)
Definition Math_round (a : num) : num :=
  match a with
  | Fin x => Num.of_Z (Qfloor (x + (1 # 2)))
  | _ => a
  end.

Record ResourceType : Type := { _name : string }.

(** A network record, as far as the audit reads it. *)
Record NetworkRequest : Type := {
  url : string;
  _resourceType : option ResourceType;
  transferSize : num;
}.

Record Header : Type := {
  styleSheetId : string;
  sourceURL : string;
}.

(** An element of the output of the Styles gatherer.  [isDuplicate] is
    [false] when the property is missing. *)
Module Styles.
Record t : Type := {
  header : Header;
  content : string;
  isDuplicate : bool;
}.
End Styles.

(** An element of the output of the CSSUsage gatherer. *)
Module CSSUsage.
Record t : Type := {
  styleSheetId : string;
  used : bool;
  startOffset : num;
  endOffset : num;
}.
End CSSUsage.

(** [Object.assign({usedRules, networkRecord}, stylesheet)]. *)
Record StylesheetInfo : Type := {
  usedRules : list CSSUsage.t;
  networkRecord : option NetworkRequest;
  header : Header;
  content : string;
  isDuplicate : bool;
}.

(** An object is truthy, [undefined] is not. *)
Definition truthy {A} (o : option A) : bool :=
  match o with
  | Some _ => true
  | None => false
  end.





Record Usage : Type := {
  debugString : option string;
  wastedBytes : num;
  wastedPercent : num;
  totalBytes : num;
}.

(** The [for] loop of [computeUsage] over the used rules. *)
Definition usedUncompressedBytes (stylesheetInfo : StylesheetInfo) : num :=
  foldl (fun usedUncompressedBytes usedRule =>
           (usedUncompressedBytes
            + (CSSUsage.endOffset usedRule - CSSUsage.startOffset usedRule))%num)
        (Num.of_Z 0) (usedRules stylesheetInfo).

Definition computeUsage (stylesheetInfo : StylesheetInfo) (isInline : bool)
    : Usage :=
  let usedUncompressedBytes : num := usedUncompressedBytes stylesheetInfo in
  let totalUncompressedBytes : num :=
    Num.of_nat (String.length (content stylesheetInfo)) in
  let totalBytes : num :=
    match networkRecord stylesheetInfo with
    | Some networkRecord => transferSize networkRecord
    | None =>
        Math_round
          (Num.of_nat (String.length (content stylesheetInfo)) / 3%Z)%num
    end in
  let percentUnused : num :=
    ((totalUncompressedBytes - usedUncompressedBytes)
     / totalUncompressedBytes)%num in
  let wastedBytes : num := Math_round (percentUnused * totalBytes)%num in
  let debugString : option string :=
    if negb isInline && negb (truthy (networkRecord stylesheetInfo))
    then Some ("Unable to find network record for "
               +:+ sourceURL (header stylesheetInfo))
    else None in
  {| debugString := debugString;
     wastedBytes := wastedBytes;
     wastedPercent := (percentUnused * 100%Z)%num;
     totalBytes := totalBytes |}.
End UnusedCSSRules.

(** [UnusedCSSRules.determineContentPreview].  A string is a sequence of
    characters with codes below 256; the two regular expressions and
    [trim] are written out as functions on such strings, with the
    white space of [\s] and of [trim] being the codes 9 to 13, 32 and
    160. *)

Module ContentPreview.
Local Open Scope string_scope.

Definition PREVIEW_LENGTH : Z := 100.

Definition is_space (c : ascii) : bool := Ascii.eqb c " ".
Definition is_tab (c : ascii) : bool := Ascii.eqb c "009".
Definition is_newline (c : ascii) : bool := Ascii.eqb c "010".

(** A character that [\s] matches and [trim] removes. *)
Definition is_whitespace (c : ascii) : bool :=
  let code := N_of_ascii c in
  ((9 <=? code) && (code <=? 13) || (code =? 32) || (code =? 160))%N.

(** [s.slice(0, n)] for [n] at least 0. *)
Fixpoint slice_to (n : nat) (s : string) : string :=
  match n, s with
  | S n, String c s => String c (slice_to n s)
  | _, _ => ""
  end.

(** [s.indexOf(c)] and [s.lastIndexOf(c)]: [-1] when [c] does not
    occur. *)
Fixpoint indexOf (c : ascii) (s : string) : Z :=
  match s with
  | "" => -1
  | String x s =>
      if Ascii.eqb x c then 0
      else let i := indexOf c s in if (i =? -1)%Z then -1 else (i + 1)%Z
  end.

Fixpoint lastIndexOf (c : ascii) (s : string) : Z :=
  match s with
  | "" => -1
  | String x s =>
      let i := lastIndexOf c s in
      if (i =? -1)%Z then (if Ascii.eqb x c then 0 else -1) else (i + 1)%Z
  end.

(** The length of the match of [( {2,}|\t)+] at the start of [s], 0
    when there is none: runs of two or more spaces and single tabs.
    [in_run] says that the character before belongs to a run of
    spaces that is being matched. *)
Fixpoint indentation (in_run : bool) (s : string) : nat :=
  match s with
  | "" => O
  | String c s' =>
      if is_tab c then S (indentation false s')
      else if is_space c then
        if in_run then S (indentation true s')
        else match s' with
             | String c' _ =>
                 if is_space c' then S (indentation true s') else O
             | "" => O
             end
      else O
  end.

(** [s.replace(/( {2,}|\t)+/g, '  ')]; the first [skip] characters
    belong to a match that is replaced already. *)
Fixpoint replace_indentation (skip : nat) (s : string) : string :=
  match s with
  | "" => ""
  | String c s' =>
      match skip with
      | S skip => replace_indentation skip s'
      | O =>
          match indentation false s with
          | S matched => "  " ++ replace_indentation matched s'
          | O => String c (replace_indentation O s')
          end
      end
  end.

(** The number of white space characters at the start of [s], and the
    character after them. *)
Fixpoint whitespace_run (s : string) : nat * option ascii :=
  match s with
  | "" => (O, None)
  | String c s' =>
      if is_whitespace c
      then let '(n, next) := whitespace_run s' in (S n, next)
      else (O, Some c)
  end.

(** [s.replace(/\n\s+}/g, '\n}')]: a newline, white space and a closing
    brace become a newline and the brace. *)
Fixpoint replace_closing (skip : nat) (s : string) : string :=
  match s with
  | "" => ""
  | String c s' =>
      match skip with
      | S skip => replace_closing skip s'
      | O =>
          if is_newline c then
            match whitespace_run s' with
            | (S n, Some next) =>
                if Ascii.eqb next "}"
                then String c (String "}" (replace_closing (S (S n)) s'))
                else String c (replace_closing O s')
            | _ => String c (replace_closing O s')
            end
          else String c (replace_closing O s')
      end
  end.

(** [s.trim()] *)
Fixpoint trim_start (s : string) : string :=
  match s with
  | "" => ""
  | String c s' => if is_whitespace c then trim_start s' else s
  end.

Fixpoint trim_end (s : string) : string :=
  match s with
  | "" => ""
  | String c s' =>
      match trim_end s' with
      | "" => if is_whitespace c then "" else String c ""
      | rest => String c rest
      end
  end.

Definition trim (s : string) : string := trim_end (trim_start s).

Definition determineContentPreview (content : string) : string :=
  let preview :=
    trim (replace_closing O
            (replace_indentation O
               (slice_to (Z.to_nat (PREVIEW_LENGTH * 5)) content))) in
  if (Z.of_nat (String.length preview) >? PREVIEW_LENGTH)%Z then
    let firstRuleStart := indexOf "{" preview in
    let firstRuleEnd := indexOf "}" preview in
    if (firstRuleStart =? -1)%Z || (firstRuleEnd =? -1)%Z
       || (firstRuleStart >? firstRuleEnd)%Z
       || (firstRuleStart >? PREVIEW_LENGTH)%Z
    then slice_to (Z.to_nat PREVIEW_LENGTH) preview ++ "..."
    else if (firstRuleEnd <? PREVIEW_LENGTH)%Z
    then slice_to (Z.to_nat (firstRuleEnd + 1)) preview ++ " ..."
    else
      let lastSemicolonIndex :=
        lastIndexOf ";" (slice_to (Z.to_nat PREVIEW_LENGTH) preview) in
      if (lastSemicolonIndex <? firstRuleStart)%Z
      then slice_to (Z.to_nat PREVIEW_LENGTH) preview ++ "... } ..."
      else slice_to (Z.to_nat (lastSemicolonIndex + 1)) preview ++ " ... } ..."
  else preview.
End ContentPreview.

(* ===================================================================== *)
(** ** chrome-launcher.ts *)
(* ===================================================================== *)

(** The polling of the debugging port in [Launcher.waitUntilReady].  What
    lies outside the program is a [World]: the outcome of each attempt to
    connect to the port, and the contents of the error log of Chrome.  The
    calls of the logger, the attempts to connect and the delays are
    recorded, in order, as [Event]s; a promise is modelled by how it
    settles.  The logger and [delay] (of [./utils]) are not among the
    sources: a call of the logger is taken to return, and the promise of
    [delay] to resolve. *)

Module Launcher.

Record LighthouseError : Type := {
  code : option string;
  message : string;
}.

(** How the promise of [doesDebuggingPortConnect] settles. *)
Inductive Connection : Type :=
| Connects
| Refuses (err : LighthouseError).

Record World : Type := {
(** the [k]-th attempt (from 0) of [waitUntilReady] to connect *)
doesDebuggingPortConnect : nat → Connection;
(** [fs.readFileSync] of [chrome-err.log]; [None] when it throws *)
readErrLog : option string;
}.

Inductive Level : Type := log_log | log_verbose | log_error.

Inductive Message : Type :=
| Establishing             (* `Establishing connection on port ${port}...` *)
| Status (waitStatus : string)
| Established              (* `Connection established on port ${port} ...` *)
| ErrorMessage (message : string)
| LoggingContents          (* `Logging contents of ${userDataDir}/chrome-err.log` *)
| Stderr (stderr : string).

Inductive Event : Type :=
| Log (level : Level) (msg : Message)
| Connect
| Delay (ms : Z).

(** How a promise ends: resolved, rejected, or never settled. *)
Inductive Settled : Type :=
| Resolved
| Rejected (err : LighthouseError)
| Pending.

Definition pollInterval : Z := 500.
Definition maxPortCheckRetries : nat := 10.

Section Methods.
Variable world : World.

(** [poll], with the variables [retries] and [waitStatus] of the
    enclosing function.  Each call of [poll] takes one unit of
    [fuel]. *)
Fixpoint poll (fuel : nat) (retries : nat) (waitStatus : string)
    (events : list Event) : option (Settled * list Event) :=
  match fuel with
  | O => None
  | S fuel =>
      let events := events ++ [Log log_verbose (Status waitStatus)] in
      let waitStatus := (waitStatus +:+ "..")%string in
      let attempt := retries in
      let retries := S retries in
      let events := events ++ [Connect] in
      match doesDebuggingPortConnect world attempt with
      | Connects =>
          Some (Resolved, events ++ [Log log_log Established])
      | Refuses err =>
          if (maxPortCheckRetries <? retries)%nat then
            let events :=
              events ++ [Log log_error (ErrorMessage (message err))] in
            match readErrLog world with
            | None => Some (Pending, events)
            | Some stderr =>
                Some (Rejected err,
                      events ++ [Log log_error LoggingContents;
                                 Log log_error (Stderr stderr)])
            end
          else poll fuel retries waitStatus (events ++ [Delay pollInterval])
      end
  end.

Definition waitUntilReady (fuel : nat) : option (Settled * list Event) :=
  poll fuel 0 "Attempting to connect..."%string [Log log_log Establishing].
End Methods.
End Launcher.

(* ===================================================================== *)
(** ** Quantities the statements below refer to *)
(* ===================================================================== *)

(** The specification's description of the connection model. *)
Module Spec.
Import TcpConnection.

(** Handshake cost: [1.5 × rtt + (ssl ? rtt : 0)] on a connection that is
    not warmed, [rtt / 2] on a warmed one. *)
Definition handshake (c : TcpConnection.t) : num :=
  if _warmed c then (_rtt c / 2%Z)%num
  else (Fin (3 # 2) * _rtt c + (if _ssl c then _rtt c else 0%Z))%num.

(** TTFB = handshake + serverResponseTime + oneWay. *)
Definition timeToFirstByte (c : TcpConnection.t) : num :=
  (handshake c + _responseTime c + _rtt c / 2%Z)%num.

(** Residual TTFB = max(TTFB − timeAlreadyElapsed, 0). *)
Definition residualTTFB (c : TcpConnection.t) (timeAlreadyElapsed : num) : num :=
  Num.max (timeToFirstByte c - timeAlreadyElapsed)%num 0%Z.

(** maximumCongestionWindow =
    floor((throughput / 8) × (rtt / 1000) / TCP_SEGMENT_SIZE). *)
Definition maximumCongestionWindow (c : TcpConnection.t) : num :=
  Num.floor ((_availableThroughput c / 8%Z) * (_rtt c / 1000%Z)
             / TCP_SEGMENT_SIZE)%num.

(** Download-phase time after [k] round trips. *)
Definition elapsed_after (k : nat) (rtt : num) : num :=
  Nat.iter k (fun elapsed => (elapsed + rtt)%num) 0%Z.

(** The congestion window after one more round trip. *)
Definition grow (maxCwnd congestionWindow : num) : num :=
  Num.max (Num.min maxCwnd (congestionWindow * 2%Z)%num) 1%Z.
End Spec.

Module TcpConnectionFacts.
Import TcpConnection.

(** The locals of [calculateTimeToDownload] when its loop is reached. *)
Definition locals_at_loop (c : t) (bytesToDownload timeAlreadyElapsed : num)
    : Locals :=
  let congestionWindow :=
    Num.min (_congestionWindow c) (Spec.maximumCongestionWindow c) in
  if Num.gtb (Spec.residualTTFB c timeAlreadyElapsed) 0%Z then
    {| l_roundTrips := Num.ceil (Spec.handshake c / _rtt c)%num;
       l_downloadTimeElapsed := 0%Z;
       l_congestionWindow := congestionWindow;
       l_bytesDownloaded := (congestionWindow * TCP_SEGMENT_SIZE)%num;
       l_bytesRemaining :=
         (bytesToDownload - congestionWindow * TCP_SEGMENT_SIZE)%num |}
  else
    {| l_roundTrips := Fin 0;
       l_downloadTimeElapsed := 0%Z;
       l_congestionWindow := congestionWindow;
       l_bytesDownloaded := Fin 0;
       l_bytesRemaining := (bytesToDownload - Fin 0)%num |}.

(** Infinitely many bytes are left to transfer after the first window:
    the one case in which the model gives a call no result. *)
Definition unbounded_transfer (c : t) (bytesToDownload timeAlreadyElapsed : num)
    : Prop :=
  l_bytesRemaining (locals_at_loop c bytesToDownload timeAlreadyElapsed) = PInf.

(** A finite number that is not negative. *)
Definition nonnegative (a : num) : Prop := ∃ q, a = Fin q ∧ 0 <= q.

(** Locals of the loop that are finite (the count of round trips apart:
    it is not finite when the rtt is 0). *)
Definition locals_finite (s : Locals) : Prop :=
  Num.isFinite (l_downloadTimeElapsed s) = true
  ∧ Num.isFinite (l_congestionWindow s) = true
  ∧ Num.isFinite (l_bytesDownloaded s) = true
  ∧ Num.isFinite (l_bytesRemaining s) = true.

(** The locals [s'] are ahead of [s]: as much time, a window at least as
    large, at most as many bytes remaining. *)
Definition ahead (s s' : Locals) : Prop :=
  l_downloadTimeElapsed s' = l_downloadTimeElapsed s
  ∧ ∃ cw cw' br br',
      l_congestionWindow s = Fin cw ∧ l_congestionWindow s' = Fin cw'
      ∧ cw <= cw'
      ∧ l_bytesRemaining s = Fin br ∧ l_bytesRemaining s' = Fin br'
      ∧ br' <= br.

(** The connection [c] with another available throughput. *)
Definition at_throughput (c : t) (throughput : num) : t :=
  {| _warmed := _warmed c; _ssl := _ssl c; _rtt := _rtt c;
     _availableThroughput := throughput;
     _responseTime := _responseTime c;
     _congestionWindow := _congestionWindow c |}.

(** A finite number that is positive. *)
Definition positive (a : num) : Prop := ∃ q, a = Fin q ∧ 0 < q.

(** A connection all of whose numbers are finite. *)
Definition finite (c : t) : Prop :=
  Num.isFinite (_rtt c) = true
  ∧ Num.isFinite (_availableThroughput c) = true
  ∧ Num.isFinite (_responseTime c) = true
  ∧ Num.isFinite (_congestionWindow c) = true.
End TcpConnectionFacts.

(** The connection of the specification's scenarios. *)
Definition scenario_connection : TcpConnection.t :=
  TcpConnection.constructor 100%Z 1638400%Z 0%Z true.

Module EstimatorFacts.
Import Estimator.

(** [chain J s h]: every mutation in the history [h], which starts from
    the containers [s], takes containers [a] to containers [b] with
    [J a b]. *)
Fixpoint chain (J : State → State → Prop) (s : State) (h : list State) : Prop :=
  match h with
  | [] => True
  | s' :: h' => J s s' ∧ chain J s' h'
  end.

(** [wp X N J m Q s]: run from the containers [s], every mutation the call
    [m] makes satisfies [J]; when it returns, the containers are the last
    of its history and [Q] holds of its result and of them; when it throws
    [e], [X e] holds; when it has no result, [N] holds. *)
Definition wp {A : Type} (X : Error → Prop) (N : Prop)
    (J : State → State → Prop) (m : E A) (Q : A → State → Prop) (s : State)
    : Prop :=
  chain J s (m s).1
  ∧ match (m s).2 with
    | Ret (a, s') => s' = List.last (m s).1 s ∧ Q a s'
    | Throw e => X e
    | NoResult => N
    end.

Section Invariants.
Variable this : Estimator.t.

(** The connection a node transfers on. *)
Definition connectionOf (n : NodeId) : option ConnectionId :=
  match data (node (_graph this) n) with
  | NetworkNode record => Some (connectionId record)
  | CPUNode => None
  end.

(** Only NETWORK nodes are in flight. *)
Definition in_flight_network (s : State) : Prop :=
  ∀ n, n ∈ _nodesInProcess s → type (node (_graph this) n) = NETWORK.

(** No two nodes in flight use the same connection. *)
Definition connections_exclusive (s : State) : Prop :=
  ∀ n1 n2 c,
    n1 ∈ _nodesInProcess s → n2 ∈ _nodesInProcess s →
    connectionOf n1 = Some c → connectionOf n2 = Some c → n1 = n2.

(** The connections of the nodes in flight are marked as in use. *)
Definition connections_marked (s : State) : Prop :=
  ∀ n c, n ∈ _nodesInProcess s → connectionOf n = Some c →
         c ∈ _connectionsInUse s.

(** The number of nodes in flight is within the concurrency limit, when
    that limit is a natural number. *)
Definition within_limit (s : State) : Prop :=
  ∀ k : nat, (_maximumConcurrentRequests this == Num.of_nat k)%num →
             (length (_nodesInProcess s) <= k)%nat.

(** What holds of the containers between any two mutations. *)
Definition structure_always (s : State) : Prop :=
  in_flight_network s ∧ connections_exclusive s ∧ within_limit s.

(** What holds in addition between two method calls. *)
Definition structure_inv (s : State) : Prop :=
  structure_always s ∧ connections_marked s ∧ NoDup (_nodesInProcess s).

(** *** Numbers *)

(** The inputs of the estimator are finite numbers. *)
Definition finite_inputs : Prop :=
  Num.isFinite (_rtt this) = true
  ∧ Num.isFinite (_throughput this) = true
  ∧ Num.isFinite (_defaultResponseTime this) = true
  ∧ ∀ n record, data (node (_graph this) n) = NetworkNode record →
                Num.isFinite (transferSize record) = true.

(** The auxiliary data of a node is finite, and its overshoot is not
    negative. *)
Definition aux_ok (aux : AuxiliaryData) : Prop :=
  Num.isFinite (timeElapsed aux) = true
  ∧ Num.isFinite (bytesDownloaded aux) = true
  ∧ Num.isFinite (timeElapsedOvershoot aux) = true
  ∧ (0%Z <= timeElapsedOvershoot aux)%num.

Definition aux_always (s : State) : Prop :=
  ∀ n aux, _nodeAuxiliaryData s !! n = Some aux → aux_ok aux.

Definition connections_finite (s : State) : Prop :=
  ∀ id c, _connections s !! id = Some c → TcpConnectionFacts.finite c.

(** A connection in use is the connection of a node in flight. *)
Definition in_use_in_flight (s : State) : Prop :=
  ∀ c, c ∈ _connectionsInUse s →
       ∃ n, n ∈ _nodesInProcess s ∧ connectionOf n = Some c.

Definition numeric_inv (s : State) : Prop :=
  aux_always s ∧ connections_finite s ∧ in_use_in_flight s.

(** The nodes the scheduler handles were traversed, traversed NETWORK
    nodes have a connection, and nodes in flight have auxiliary data. *)
Definition known (s : State) : Prop :=
  (∀ n, n ∈ _nodesInQueue s ∨ n ∈ _nodesInProcess s →
        n ∈ traverse (_graph this))
  ∧ (∀ n c, n ∈ traverse (_graph this) → connectionOf n = Some c →
            is_Some (_connections s !! c))
  ∧ (∀ n, n ∈ _nodesInProcess s → is_Some (_nodeAuxiliaryData s !! n)).

Definition total_inv (s : State) : Prop :=
  traverse_closed (_graph this) → known s.

Definition full_inv (s : State) : Prop :=
  structure_inv s ∧ numeric_inv s ∧ total_inv s.

(** The estimate stored for a node in flight is the one its connection
    gives now, and is not before the end of the time period. *)
Definition fresh (timePeriodLength : num) (s : State) (n : NodeId) : Prop :=
  ∃ record aux c r,
    data (node (_graph this) n) = NetworkNode record
    ∧ _nodeAuxiliaryData s !! n = Some aux
    ∧ _connections s !! connectionId record = Some c
    ∧ TcpConnection.calculateTimeToDownload
        (transferSize record - bytesDownloaded aux)%num (timeElapsed aux)
        PInf c = Some (r, c)
    ∧ estimatedTimeElapsed aux
      = Some (TcpConnection.timeElapsed r + timeElapsedOvershoot aux)%num
    ∧ (timePeriodLength
       <= TcpConnection.timeElapsed r + timeElapsedOvershoot aux)%num.
End Invariants.
End EstimatorFacts.

(** Example graphs. *)
Module Examples.
Import Estimator.
Local Open Scope string_scope.

Definition no_options : Options :=
  {| rtt := None; throughput := None; defaultResponseTime := None;
     maximumConcurrentRequests := None |}.

Definition leaf (d : NodeData) : Node :=
  {| data := d; getDependencies := []; getDependents := [] |}.

(** A graph of one CPU node. *)
Definition cpu_root_graph : Graph :=
  {| getRootNode := 0%nat; node := fun _ => leaf CPUNode; traverse := [0%nat] |}.

(** A graph of one NETWORK node of 10,000 bytes with no timing. *)
Definition single_request_graph : Graph :=
  {| getRootNode := 0%nat;
     node := fun _ =>
       leaf (NetworkNode {| connectionId := 1%nat; transferSize := 10000%Z;
                            scheme := "https"; _timing := None |});
     traverse := [0%nat] |}.

(** A graph of one NETWORK node whose response headers ended at the very
    time the request was sent: a measured response time of 0. *)
Definition zero_response_record : NetworkRecord :=
  {| connectionId := 1%nat; transferSize := 10000%Z; scheme := "https";
     _timing := Some {| receiveHeadersEnd := 5%Z; sendEnd := 5%Z |} |}.

Definition zero_response_graph : Graph :=
  {| getRootNode := 0%nat;
     node := fun _ => leaf (NetworkNode zero_response_record);
     traverse := [0%nat] |}.

Definition request (connection : ConnectionId) (size : Z)
    (responseTime : option Z) : NodeData :=
  NetworkNode
    {| connectionId := connection; transferSize := size; scheme := "http";
       _timing :=
         match responseTime with
         | Some r => Some {| receiveHeadersEnd := r; sendEnd := 0%Z |}
         | None => None
         end |}.


(** Six requests.  The root 0 is followed by 1 (100,000 bytes) and 2 (a
    response time of 685 ms), which run side by side; 3 follows 1 and 4
    follows 2, both on connection 3; 5 (a response time of 5 s) follows
    4. *)
Definition contention_graph : Graph :=
  {| getRootNode := 0%nat;
     node := fun n =>
       match n with
       | 0%nat => {| data := request 0 100 None;
                     getDependencies := []; getDependents := [1%nat; 2%nat] |}
       | 1%nat => {| data := request 1 100000 None;
                     getDependencies := [0%nat]; getDependents := [3%nat] |}
       | 2%nat => {| data := request 2 100 (Some 685%Z);
                     getDependencies := [0%nat]; getDependents := [4%nat] |}
       | 3%nat => {| data := request 3 100000 None;
                     getDependencies := [1%nat]; getDependents := [] |}
       | 4%nat => {| data := request 3 100 None;
                     getDependencies := [2%nat]; getDependents := [5%nat] |}
       | _ => {| data := request 4 100 (Some 5000%Z);
                 getDependencies := [4%nat]; getDependents := [] |}
       end;
     traverse := [0%nat; 1%nat; 2%nat; 3%nat; 4%nat; 5%nat] |}.

Definition with_throughput (bitsPerSecond : Z) : Options :=
  {| rtt := None; throughput := Some (Num.of_Z bitsPerSecond);
     defaultResponseTime := None; maximumConcurrentRequests := None |}.

(** The estimator of the single request with the default options, and
    the containers of its run once the request is admitted. *)
Definition single_request_estimator : Estimator.t :=
  constructor single_request_graph no_options.

Definition admitted_state : State :=
  default (initial_state single_request_estimator)
          (history single_request_estimator !! 4%nat).

Definition admitted_aux : AuxiliaryData :=
  {| startTime := 0%Z; timeElapsed := 0%Z; timeElapsedOvershoot := 0%Z;
     bytesDownloaded := 0%Z; estimatedTimeElapsed := None; endTime := None |}.

(** A graph of the one NETWORK node with the record [record], and an
    estimator for it. *)
Definition single_node_graph (record : NetworkRecord) : Graph :=
  {| getRootNode := 0%nat; node := fun _ => leaf (NetworkNode record);
     traverse := [0%nat] |}.

Definition single_node_estimator (record : NetworkRecord)
    (o_rtt o_throughput o_defaultResponseTime limit : num) : Estimator.t :=
  {| _graph := single_node_graph record; _rtt := o_rtt;
     _throughput := o_throughput;
     _defaultResponseTime := o_defaultResponseTime;
     _maximumConcurrentRequests := limit |}.





End Examples.
(* ===================================================================== *)
(** ** Quantities the further properties refer to *)
(* ===================================================================== *)

Module TcpConnectionLocals.
Import TcpConnection.

(** The locals [s] hold these finite numbers (the count of round trips
    apart). *)
Definition holds (s : Locals) (d cw bd br : Q) : Prop :=
  l_downloadTimeElapsed s = Fin d ∧ l_congestionWindow s = Fin cw
  ∧ l_bytesDownloaded s = Fin bd ∧ l_bytesRemaining s = Fin br.

(** The round trips of the handshake and request: 1 on a warmed
    connection, 2 on a cold one, 3 on a cold one with TLS. *)
Definition handshakeRoundTrips (c : t) : Z :=
  if _warmed c then 1 else if _ssl c then 3 else 2.

(** The locals [s] and [s'] differ at most in the count of round trips. *)
Definition same_download (s s' : Locals) : Prop :=
  l_downloadTimeElapsed s = l_downloadTimeElapsed s'
  ∧ l_congestionWindow s = l_congestionWindow s'
  ∧ l_bytesDownloaded s = l_bytesDownloaded s'
  ∧ l_bytesRemaining s = l_bytesRemaining s'.
End TcpConnectionLocals.
Module EstimatorLifecycle.
Import Estimator.

(** The sets of nodes and of connections in use: what the calls on
    connections and on the auxiliary data leave alone. *)
Definition node_sets (s : State)
    : list NodeId * list NodeId * list NodeId * list ConnectionId :=
  (_nodesInQueue s, _nodesInProcess s, _nodesCompleted s, _connectionsInUse s).

(** The completed nodes and which connections are warmed. *)
Definition warmth (s : State) : list NodeId * gmap ConnectionId bool :=
  (_nodesCompleted s, TcpConnection._warmed <$> _connections s).

(** The start and end times of the nodes and the rtt of the connections:
    what the calls that estimate and share out leave alone. *)
Definition times (s : State)
    : gmap NodeId (num * option num) * gmap ConnectionId num :=
  ((λ aux, (startTime aux, endTime aux)) <$> _nodeAuxiliaryData s,
   TcpConnection._rtt <$> _connections s).

(** No node started before time 0, and a node that has ended did not end
    before it started. *)
Definition times_ordered (s : State) : Prop :=
  ∀ n aux, _nodeAuxiliaryData s !! n = Some aux →
           (0%Z <= startTime aux)%num
           ∧ ∀ e, endTime aux = Some e → (startTime aux <= e)%num.

(** No node started or ended after [t]. *)
Definition times_until (t : num) (s : State) : Prop :=
  ∀ n aux, _nodeAuxiliaryData s !! n = Some aux →
           (startTime aux <= t)%num
           ∧ ∀ e, endTime aux = Some e → (e <= t)%num.

(** No connection has a negative rtt. *)
Definition rtts_nonnegative (s : State) : Prop :=
  ∀ id c, _connections s !! id = Some c →
          TcpConnectionFacts.nonnegative (TcpConnection._rtt c).

(** What holds of the containers when the clock of [estimate] shows
    [t]. *)
Definition clock (t : num) (s : State) : Prop :=
  times_ordered s ∧ times_until t s ∧ rtts_nonnegative s.

(** The bytes credited to the nodes. *)
Definition bytes (s : State) : gmap NodeId num :=
  bytesDownloaded <$> _nodeAuxiliaryData s.

Section Lifecycle.
Variable this : Estimator.t.

(** The connection of every completed request is warmed. *)
Definition completed_warmed (s : State) : Prop :=
  ∀ n record connection,
    n ∈ _nodesCompleted s →
    data (node (_graph this) n) = NetworkNode record →
    _connections s !! connectionId record = Some connection →
    TcpConnection._warmed connection = true.

(** All the dependencies of [n] are completed. *)
Definition dependencies_completed (s : State) (n : NodeId) : Prop :=
  ∀ d, d ∈ getDependencies (node (_graph this) n) → d ∈ _nodesCompleted s.

(** [n] may run: it is the root, which [estimate] queues without a
    check, or all its dependencies are completed. *)
Definition released (s : State) (n : NodeId) : Prop :=
  n = getRootNode (_graph this) ∨ dependencies_completed s n.

(** [n] is queued, in process or completed. *)
Definition handled (s : State) (n : NodeId) : Prop :=
  n ∈ _nodesInQueue s ∨ n ∈ _nodesInProcess s ∨ n ∈ _nodesCompleted s.

(** Every node the scheduler handles may run. *)
Definition in_order (s : State) : Prop := ∀ n, handled s n → released s n.

(** A dependent of a completed node is handled once all its dependencies
    are completed. *)
Definition dependents_handled (s : State) : Prop :=
  ∀ n d, n ∈ _nodesCompleted s → d ∈ getDependents (node (_graph this) n) →
         dependencies_completed s d → handled s d.

(** What a call keeps: the dependents of completed nodes are handled,
    completed nodes stay completed and handled nodes stay handled. *)
Definition kept (s s' : State) : Prop :=
  dependents_handled s'
  ∧ (∀ n, n ∈ _nodesCompleted s → n ∈ _nodesCompleted s')
  ∧ (∀ n, handled s n → handled s' n).

(** Nothing runs and nothing can start: no node is in process, no
    connection is in use, and a pass over the queue starts no node. *)
Definition idle (s : State) : Prop :=
  _nodesInProcess s = [] ∧ _connectionsInUse s = []
  ∧ ∀ totalElapsedTime,
      for_of (_nodesInQueue s)
             (λ n, _startNodeIfPossible this n totalElapsedTime) s
      = ([], Ret (tt, s)).


(** No node is credited with more bytes than its record has. *)
Definition bytes_within (s : State) : Prop :=
  ∀ n aux record,
    _nodeAuxiliaryData s !! n = Some aux →
    data (node (_graph this) n) = NetworkNode record →
    (bytesDownloaded aux <= transferSize record)%num.



(** The two directions of a dependency agree: a node is among the
    dependents of each of its dependencies. *)
Definition dependents_consistent : Prop :=
  ∀ n d, d ∈ getDependencies (node (_graph this) n) →
         n ∈ getDependents (node (_graph this) d).
End Lifecycle.
End EstimatorLifecycle.

Module LifecycleExamples.
Import Estimator Examples.

(** Two requests on two connections: node 1 (5,000 bytes) depends on the
    root 0 (10,000 bytes). *)
Definition chain_graph : Graph :=
  {| getRootNode := 0%nat;
     node := fun n =>
       match n with
       | 0%nat => {| data := request 1 10000 None;
                     getDependencies := []; getDependents := [1%nat] |}
       | 1%nat => {| data := request 2 5000 None;
                     getDependencies := [0%nat]; getDependents := [] |}
       | _ => leaf (request 3 100 None)
       end;
     traverse := [0%nat; 1%nat] |}.

Definition chain_estimator : Estimator.t := constructor chain_graph no_options.

(** The containers of a pass in which node 1 is in process, and
    those [estimate] ends with. *)
Definition chain_second_state : State :=
  default (initial_state chain_estimator) (history chain_estimator !! 20%nat).

(** The containers once node 0 is completed, before it leaves the nodes
    in process. *)
Definition chain_first_state : State :=
  default (initial_state chain_estimator) (history chain_estimator !! 13%nat).

Definition chain_final_state : State :=
  match snd (run chain_estimator) with
  | Ret (_, s) => s
  | _ => initial_state chain_estimator
  end.

(** The six requests of [contention_graph] with the default options, and
    the containers of their run once the first pass is over in which
    nodes 1 and 2 run side by side. *)
Definition contention_estimator : Estimator.t :=
  constructor contention_graph no_options.

Definition contention_state : State :=
  default (initial_state contention_estimator)
          (history contention_estimator !! 40%nat).

Definition chain_total : num :=
  match estimate chain_estimator with
  | Ret totalElapsedTime => totalElapsedTime
  | _ => NaN
  end.
End LifecycleExamples.

Module UnusedCSSRulesExamples.
Import UnusedCSSRules.
Local Open Scope string_scope.

(** A stylesheet of 12 characters served in 1,000 bytes, with one used
    rule that covers its first 6 characters. *)
Definition half_used_sheet : StylesheetInfo :=
  {| usedRules :=
       [ {| CSSUsage.styleSheetId := "1"; CSSUsage.used := true;
            CSSUsage.startOffset := 0%Z; CSSUsage.endOffset := 6%Z |} ];
     networkRecord :=
       Some {| url := "a.css"; _resourceType := Some {| _name := "stylesheet" |};
               transferSize := 1000%Z |};
     header := {| styleSheetId := "1"; sourceURL := "a.css" |};
     content := "a{c:d}b{e:f}";
     isDuplicate := false |}.

(** An inline stylesheet with no content. *)
Definition empty_sheet : StylesheetInfo :=
  {| usedRules := [];
     networkRecord := None;
     header := {| styleSheetId := "2"; sourceURL := "" |};
     content := "";
     isDuplicate := false |}.
End UnusedCSSRulesExamples.

Module LauncherFacts.
Import Launcher.

(** The number of attempts to connect among the events, and the time
    spent in delays. *)
Definition checks (events : list Event) : nat :=
  length (List.filter (λ e, match e with Connect => true | _ => false end)
                      events).

Definition waited (events : list Event) : Z :=
  foldr (λ e total, match e with Delay ms => (ms + total)%Z | _ => total end)
        0%Z events.

(** The first of the attempts [start], ..., [start + count - 1] that
    connects. *)
Fixpoint first_connection (world : World) (start count : nat) : option nat :=
  match count with
  | O => None
  | S count =>
      match doesDebuggingPortConnect world start with
      | Connects => Some start
      | Refuses _ => first_connection world (S start) count
      end
  end.

(** A port that refuses the first [n] connections with ECONNREFUSED, and
    connects from then on; the error log reads [stderr]. *)
Definition refused : LighthouseError :=
  {| code := Some "ECONNREFUSED"%string; message := "connect ECONNREFUSED"%string |}.

Definition ready_after (n : nat) (stderr : option string) : World :=
  {| doesDebuggingPortConnect := λ k, if (k <? n)%nat then Refuses refused else Connects;
     readErrLog := stderr |}.
End LauncherFacts.

(* ===================================================================== *)
(** ** Facts about numbers *)
(* ===================================================================== *)

Module NumFacts.

Lemma Qltb_lt x y : Num.Qltb x y = true ↔ x < y.
Proof.
  unfold Num.Qltb. rewrite negb_true_iff.
  destruct (Qle_bool y x) eqn:E.
  - apply Qle_bool_iff in E. split; [discriminate | intros H; exfalso; lra].
  - split; [intros _ | reflexivity].
    apply Qnot_le_lt. intros H. apply Qle_bool_iff in H. congruence.
Qed.

Lemma Qltb_ge x y : Num.Qltb x y = false ↔ y <= x.
Proof.
  unfold Num.Qltb. rewrite negb_false_iff. apply Qle_bool_iff.
Qed.

Lemma leb_fin x y : Num.leb (Fin x) (Fin y) = true ↔ x <= y.
Proof. apply Qle_bool_iff. Qed.

Lemma ltb_fin x y : Num.ltb (Fin x) (Fin y) = true ↔ x < y.
Proof. apply Qltb_lt. Qed.

Lemma fin_eq x y : x == y → Num.fin x = Num.fin y.
Proof. intros H. unfold Num.fin. f_equal. by apply Qred_complete. Qed.

Lemma eq_refl a : (a == a)%num.
Proof. destruct a; simpl; auto. reflexivity. Qed.

Lemma eq_sym a b : (a == b)%num → (b == a)%num.
Proof. destruct a, b; simpl; auto. intros H. by symmetry. Qed.

Lemma eq_trans a b c : (a == b)%num → (b == c)%num → (a == c)%num.
Proof. destruct a, b, c; simpl; auto; try tauto. intros H1 H2. by rewrite H1. Qed.

Lemma isFinite_Fin a : Num.isFinite a = true ↔ ∃ q, a = Fin q.
Proof.
  destruct a; simpl; split; try discriminate; eauto; intros [? ?]; discriminate.
Qed.

(** *** Finite numbers *)

Lemma isFinite_add a b :
  Num.isFinite a = true → Num.isFinite b = true → Num.isFinite (a + b)%num = true.
Proof. by destruct a, b. Qed.

Lemma isFinite_sub a b :
  Num.isFinite a = true → Num.isFinite b = true → Num.isFinite (a - b)%num = true.
Proof. by destruct a, b. Qed.

Lemma isFinite_mul a b :
  Num.isFinite a = true → Num.isFinite b = true → Num.isFinite (a * b)%num = true.
Proof. by destruct a, b. Qed.

Lemma isFinite_div a b q :
  Num.isFinite a = true → b = Fin q → ¬ q == 0 →
  Num.isFinite (a / b)%num = true.
Proof.
  intros Ha -> Hq. destruct a as [x| | |]; try done. unfold Num.div.
  destruct (Qeq_bool q 0) eqn:E; [|done]. by apply Qeq_bool_eq in E.
Qed.

Lemma isFinite_min a b :
  Num.isFinite a = true → Num.isFinite b = true →
  Num.isFinite (Num.min a b) = true.
Proof.
  destruct a, b; try done. intros _ _. unfold Num.min.
  by destruct (Num.leb _ _).
Qed.

Lemma isFinite_max a b :
  Num.isFinite a = true → Num.isFinite b = true →
  Num.isFinite (Num.max a b) = true.
Proof.
  destruct a, b; try done. intros _ _. unfold Num.max.
  by destruct (Num.leb _ _).
Qed.

Lemma isFinite_floor a : Num.isFinite a = true → Num.isFinite (Num.floor a) = true.
Proof. by destruct a. Qed.

Lemma isFinite_of_Z z : Num.isFinite (Num.of_Z z) = true.
Proof. done. Qed.

(** *** Order *)

Lemma le_PInf a : Num.isFinite a = true → Num.leb a PInf = true.
Proof. by destruct a. Qed.

Lemma min_le_l a b :
  a ≠ NaN → b ≠ NaN → Num.leb (Num.min a b) a = true.
Proof.
  intros Ha Hb. destruct a as [x| | |], b as [y| | |]; try done;
    unfold Num.min; cbn [Num.leb]; try reflexivity.
  - destruct (Qle_bool x y) eqn:E; cbn [Num.leb].
    + apply Qle_bool_iff. lra.
    + apply Qle_bool_iff. apply Qlt_le_weak, Qnot_le_lt.
      intros H. apply Qle_bool_iff in H. congruence.
  - apply Qle_bool_iff. lra.
Qed.

Lemma min_le_r a b :
  a ≠ NaN → b ≠ NaN → Num.leb (Num.min a b) b = true.
Proof.
  intros Ha Hb. destruct a as [x| | |], b as [y| | |]; try done;
    unfold Num.min; cbn [Num.leb]; try reflexivity.
  - destruct (Qle_bool x y) eqn:E; cbn [Num.leb]; [done|].
    apply Qle_bool_iff. lra.
  - apply Qle_bool_iff. lra.
Qed.

Lemma leb_trans a b c :
  Num.leb a b = true → Num.leb b c = true → Num.leb a c = true.
Proof.
  destruct a as [x| | |], b as [y| | |], c as [z| | |]; try done.
  cbn [Num.leb]. rewrite !Qle_bool_iff. lra.
Qed.

End NumFacts.

(* ===================================================================== *)
(** ** The connection model *)
(* ===================================================================== *)

Module TcpConnectionProofs.
Import TcpConnection TcpConnectionFacts.

Lemma div_half q : (Fin q / 2%Z)%num = Num.fin (q / 2).
Proof. reflexivity. Qed.

(** The handshake the code adds up is the one of the specification. *)
Lemma handshake_code c :
  (if negb (_warmed c) then
     (_rtt c / 2%Z + _rtt c / 2%Z + _rtt c / 2%Z
      + (if _ssl c then _rtt c else 0%Z))%num
   else (_rtt c / 2%Z)%num) = Spec.handshake c.
Proof.
  unfold Spec.handshake.
  destruct c as [w ssl rtt thr resp cw]; cbn [_warmed _ssl _rtt].
  destruct w; cbn [negb]; [reflexivity|].
  destruct rtt as [q| | |]; [|by destruct ssl..].
  rewrite div_half.
  destruct ssl; cbn [Num.add Num.mul Num.fin Num.of_Z];
    apply NumFacts.fin_eq; rewrite !Qred_correct; unfold inject_Z; field.
Qed.

Lemma calculateTimeToDownload_eq c b tae maxT :
  calculateTimeToDownload b tae maxT c =
  let s0 := locals_at_loop c b tae in
  match while_loop (_rtt c) (Spec.maximumCongestionWindow c)
          (maxT - Spec.residualTTFB c tae)%num
          (loop_fuel (l_bytesRemaining s0)) s0 with
  | Some s =>
      Some ({| roundTrips := l_roundTrips s;
               timeElapsed :=
                 (Spec.residualTTFB c tae + l_downloadTimeElapsed s)%num;
               bytesDownloaded := Num.min (l_bytesDownloaded s) b;
               congestionWindow := l_congestionWindow s |}, c)
  | None => None
  end.
Proof.
  unfold calculateTimeToDownload, _computeMaximumCongestionWindowInSegments,
    read, lift, mbind, mret, M_bind, M_ret.
  cbv zeta. rewrite handshake_code.
  fold (Spec.timeToFirstByte c). fold (Spec.residualTTFB c tae).
  fold (Spec.maximumCongestionWindow c).
  unfold locals_at_loop.
  destruct (Num.gtb (Spec.residualTTFB c tae) 0%Z); cbn [l_bytesRemaining];
    match goal with |- context [while_loop ?a ?b ?c ?d ?e] =>
      destruct (while_loop a b c d e) end; reflexivity.
Qed.

(** *** The loop *)
Section LoopFacts.
Variables (rtt maxCwnd maxD : num).

Local Abbreviation body := (loop_body rtt maxCwnd).
Local Abbreviation cond := (loop_cond maxD).
Local Abbreviation loop := (while_loop rtt maxCwnd maxD).

(** The loop stops after some number [k] of iterations: its condition
    holds before each of them and fails after the last. *)
Lemma while_loop_iter fuel s s' :
  loop fuel s = Some s' →
  ∃ k, (k <= fuel)%nat
       ∧ s' = Nat.iter k body s
       ∧ (∀ j, (j < k)%nat → cond (Nat.iter j body s) = true)
       ∧ cond s' = false.
Proof.
  revert s. induction fuel as [|fuel IH]; intros s; simpl.
  - destruct (cond s) eqn:Hc; [discriminate|].
    intros [= <-]. exists 0%nat. repeat split; auto. intros j Hj; lia.
  - destruct (cond s) eqn:Hc.
    + intros H. destruct (IH _ H) as (k & Hk & -> & Hlt & Hend).
      exists (S k). rewrite Nat.iter_succ_r. repeat split; auto; [lia|].
      intros [|j] Hj; [exact Hc|].
      rewrite Nat.iter_succ_r. apply Hlt. lia.
    + intros [= <-]. exists 0%nat. repeat split; auto; [lia|].
      intros j Hj; lia.
Qed.

Lemma iter_downloadTimeElapsed k s :
  l_downloadTimeElapsed (Nat.iter k body s)
  = Nat.iter k (fun e => (e + rtt)%num) (l_downloadTimeElapsed s).
Proof. induction k as [|k IH]; simpl; [reflexivity|]. by rewrite IH. Qed.

Lemma iter_congestionWindow k s :
  l_congestionWindow (Nat.iter k body s)
  = Nat.iter k (Spec.grow maxCwnd) (l_congestionWindow s).
Proof. induction k as [|k IH]; simpl; [reflexivity|]. by rewrite IH. Qed.

(** More fuel does not change a result. *)
Lemma while_loop_fuel fuel fuel' s s' :
  loop fuel s = Some s' → (fuel <= fuel')%nat → loop fuel' s = Some s'.
Proof.
  revert fuel' s. induction fuel as [|fuel IH]; intros fuel' s; simpl.
  - destruct (cond s) eqn:Hc; [discriminate|].
    intros [= <-] _. destruct fuel'; simpl; by rewrite Hc.
  - destruct (cond s) eqn:Hc.
    + intros H Hle. destruct fuel' as [|fuel']; [lia|].
      simpl. rewrite Hc. apply IH; [done|lia].
    + intros [= <-] _. destruct fuel'; simpl; by rewrite Hc.
Qed.

(** What a round trip can make of the congestion window: a number that
    is at least one segment, or NaN. *)
Lemma grow_cases cw :
  Spec.grow maxCwnd cw = NaN ∨ Spec.grow maxCwnd cw = PInf
  ∨ ∃ x, Spec.grow maxCwnd cw = Fin x ∧ 1 <= x.
Proof.
  unfold Spec.grow.
  destruct (Num.min maxCwnd (cw * 2%Z)%num) as [x| | |] eqn:E;
    unfold Num.of_Z; cbn [Num.max Num.leb]; auto.
  - destruct (Qle_bool x (inject_Z 1)) eqn:Hle.
    + right; right. exists (inject_Z 1). split; [done|]. unfold inject_Z. lra.
    + right; right. exists x. split; [done|].
      apply Qlt_le_weak, Qnot_le_lt. intros H.
      apply Qle_bool_iff in H. unfold inject_Z in *. congruence.
  - right; right. exists (inject_Z 1). split; [done|]. unfold inject_Z. lra.
Qed.

(** One iteration takes at least a segment off a finite
    [bytesRemaining], and never makes it infinitely large. *)
Lemma body_bytesRemaining s q :
  l_bytesRemaining s = Fin q →
  l_bytesRemaining (body s) = NaN ∨ l_bytesRemaining (body s) = NInf
  ∨ ∃ q', l_bytesRemaining (body s) = Fin q' ∧ q' <= q - 1460.
Proof.
  intros Hq. unfold loop_body. cbn [l_bytesRemaining]. rewrite Hq.
  fold (Spec.grow maxCwnd (l_congestionWindow s)).
  destruct (grow_cases (l_congestionWindow s)) as [->| [->|(x & -> & Hx)]].
  - by left.
  - right; left. reflexivity.
  - right; right. eexists. split; [reflexivity|].
    rewrite !Qred_correct. unfold inject_Z. lra.
Qed.

Lemma while_loop_total_aux n : ∀ s,
  l_bytesRemaining s ≠ PInf →
  (∀ q, l_bytesRemaining s = Fin q → q <= 1460 * inject_Z (Z.of_nat n)) →
  ∃ s', loop n s = Some s'.
Proof.
  induction n as [|n IH]; intros s Hinf Hq.
  - simpl. destruct (cond s) eqn:Hc; [|eauto].
    exfalso. unfold loop_cond in Hc. apply andb_true_iff in Hc as [Hc _].
    destruct (l_bytesRemaining s) as [q| | |] eqn:E; try done.
    apply NumFacts.ltb_fin in Hc. specialize (Hq q Logic.eq_refl).
    change (inject_Z (Z.of_nat 0)) with 0 in Hq.
    change (inject_Z 0) with 0 in Hc. lra.
  - simpl. destruct (cond s) eqn:Hc; [|eauto].
    unfold loop_cond in Hc. apply andb_true_iff in Hc as [Hc _].
    destruct (l_bytesRemaining s) as [q| | |] eqn:E; try done.
    apply IH.
    + destruct (body_bytesRemaining s q E) as [H|[H|(q' & H & _)]];
        rewrite H; discriminate.
    + intros q' Hq'.
      destruct (body_bytesRemaining s q E) as [H|[H|(q'' & H & Hle)]];
        rewrite H in Hq'; try discriminate.
      injection Hq' as ->. specialize (Hq q Logic.eq_refl).
      rewrite Nat2Z.inj_succ, <- Z.add_1_r, inject_Z_plus in Hq.
      unfold inject_Z in Hq at 2. lra.
Qed.

(** The loop ends within the iterations [loop_fuel] allows, unless
    infinitely many bytes remain. *)
Lemma while_loop_total s :
  l_bytesRemaining s ≠ PInf →
  ∃ s', loop (loop_fuel (l_bytesRemaining s)) s = Some s'.
Proof.
  intros Hinf. apply while_loop_total_aux; [done|].
  intros q Hq. rewrite Hq. unfold loop_fuel.
  assert (q == q / 1460 * 1460) as Hx by field.
  pose proof (Qle_ceiling (q / 1460)) as H.
  set (x := q / 1460) in *.
  destruct (Z_le_gt_dec 0 (Qceiling x)) as [Hpos|Hneg].
  - rewrite Z2Nat.id by done. lra.
  - replace (Z.to_nat (Qceiling x)) with 0%nat by lia.
    assert (inject_Z (Qceiling x) <= 0) as H0.
    { change 0 with (inject_Z 0). rewrite <- Zle_Qle. lia. }
    change (inject_Z (Z.of_nat 0)) with 0. lra.
Qed.
End LoopFacts.

(** *** [calculateTimeToDownload] *)

(** A call returns what the loop leaves after some number of iterations,
    and has no result only for an unbounded transfer. *)
Lemma calculateTimeToDownload_cases c b tae maxT :
  let s0 := locals_at_loop c b tae in
  let body := loop_body (_rtt c) (Spec.maximumCongestionWindow c) in
  let cond := loop_cond (maxT - Spec.residualTTFB c tae)%num in
  (∃ k,
      calculateTimeToDownload b tae maxT c =
        Some ({| roundTrips := l_roundTrips (Nat.iter k body s0);
                 timeElapsed :=
                   (Spec.residualTTFB c tae
                    + l_downloadTimeElapsed (Nat.iter k body s0))%num;
                 bytesDownloaded :=
                   Num.min (l_bytesDownloaded (Nat.iter k body s0)) b;
                 congestionWindow := l_congestionWindow (Nat.iter k body s0) |},
              c)
      ∧ (∀ j, (j < k)%nat → cond (Nat.iter j body s0) = true)
      ∧ cond (Nat.iter k body s0) = false)
  ∨ (calculateTimeToDownload b tae maxT c = None ∧ unbounded_transfer c b tae).
Proof.
  intros s0 body cond. rewrite calculateTimeToDownload_eq. cbv zeta.
  fold s0.
  destruct (while_loop _ _ _ _ s0) as [s|] eqn:E.
  - left. apply while_loop_iter in E as (k & _ & -> & Hlt & Hend).
    exists k. auto.
  - right. split; [done|]. unfold unbounded_transfer. fold s0.
    assert (l_bytesRemaining s0 = PInf ∨ l_bytesRemaining s0 ≠ PInf)
      as [|Hne] by (destruct (l_bytesRemaining s0); auto); [done|].
    apply (while_loop_total (_rtt c) (Spec.maximumCongestionWindow c)
             (maxT - Spec.residualTTFB c tae)%num) in Hne as [s' Hs'].
    congruence.
Qed.

Lemma locals_at_loop_elapsed c b tae :
  l_downloadTimeElapsed (locals_at_loop c b tae) = 0%Z.
Proof. unfold locals_at_loop. by destruct (Num.gtb _ _). Qed.


Lemma calculateTimeToDownload_frame c b tae maxT r c' :
  calculateTimeToDownload b tae maxT c = Some (r, c') → c' = c.
Proof.
  rewrite calculateTimeToDownload_eq. cbv zeta.
  destruct (while_loop _ _ _ _ _); [|discriminate]. by intros [= _ <-].
Qed.

Lemma maximumCongestionWindow_nonneg c :
  nonnegative (_rtt c) → nonnegative (_availableThroughput c) →
  nonnegative (Spec.maximumCongestionWindow c).
Proof.
  intros (r & Hr & Hr0) (t & Ht & Ht0). unfold Spec.maximumCongestionWindow.
  rewrite Hr, Ht. eexists. split; [reflexivity|].
  change 0 with (inject_Z 0). rewrite <- Zle_Qle.
  change 0%Z with (Qfloor 0). apply Qfloor_resp_le.
  rewrite !Qred_correct.
  apply Qle_shift_div_l; [reflexivity|]. rewrite Qmult_0_l.
  apply Qmult_le_0_compat; (apply Qle_shift_div_l; [reflexivity|]);
    by rewrite Qmult_0_l.
Qed.

Lemma min_nonneg a b : (0%Z <= a)%num → (0%Z <= b)%num → (0%Z <= Num.min a b)%num.
Proof.
  unfold Num.le. intros Ha Hb.
  destruct a, b; try done; unfold Num.min;
    match goal with |- context [if ?x then _ else _] => destruct x end; done.
Qed.

Lemma nonnegative_le a : nonnegative a → (0%Z <= a)%num.
Proof. intros (q & -> & Hq). by apply NumFacts.leb_fin. Qed.

(** *** Finite connections *)

Lemma handshake_finite c : finite c → Num.isFinite (Spec.handshake c) = true.
Proof.
  intros (Hrtt & _). unfold Spec.handshake.
  destruct (_rtt c) as [r| | |]; try done.
  by destruct (_warmed c), (_ssl c).
Qed.

Lemma residualTTFB_finite c tae :
  finite c → Num.isFinite tae = true →
  Num.isFinite (Spec.residualTTFB c tae) = true.
Proof.
  intros Hc Htae. pose proof (handshake_finite c Hc) as Hh.
  destruct Hc as (Hrtt & _ & Hresp & _).
  unfold Spec.residualTTFB, Spec.timeToFirstByte.
  apply NumFacts.isFinite_max; [|done].
  apply NumFacts.isFinite_sub; [|done].
  repeat apply NumFacts.isFinite_add; try done.
  by eapply NumFacts.isFinite_div.
Qed.

Lemma maximumCongestionWindow_finite c :
  finite c → Num.isFinite (Spec.maximumCongestionWindow c) = true.
Proof.
  intros (Hrtt & Hthr & _). unfold Spec.maximumCongestionWindow.
  apply NumFacts.isFinite_floor.
  eapply NumFacts.isFinite_div; [|reflexivity|done].
  apply NumFacts.isFinite_mul; by eapply NumFacts.isFinite_div.
Qed.

Lemma locals_at_loop_finite c b tae :
  finite c → Num.isFinite b = true → locals_finite (locals_at_loop c b tae).
Proof.
  intros Hc Hb. pose proof (maximumCongestionWindow_finite c Hc) as Hm.
  destruct Hc as (_ & _ & _ & Hcw).
  assert (Num.isFinite (Num.min (_congestionWindow c)
                          (Spec.maximumCongestionWindow c)) = true) as Hmin
    by by apply NumFacts.isFinite_min.
  unfold locals_at_loop. destruct (Num.gtb _ _); repeat split; simpl;
    try done; try apply NumFacts.isFinite_sub; try done;
    by apply NumFacts.isFinite_mul.
Qed.

Lemma loop_body_finite rtt maxCwnd s :
  Num.isFinite rtt = true → Num.isFinite maxCwnd = true →
  locals_finite s → locals_finite (loop_body rtt maxCwnd s).
Proof.
  intros Hrtt Hm (Hd & Hc & Hb & Hr).
  assert (Num.isFinite
            (Num.max (Num.min maxCwnd (l_congestionWindow s * 2%Z)%num) 1%Z)
          = true) as Hcw.
  { apply NumFacts.isFinite_max; [|done].
    apply NumFacts.isFinite_min; [done|]. by apply NumFacts.isFinite_mul. }
  unfold loop_body. repeat split; simpl.
  - by apply NumFacts.isFinite_add.
  - done.
  - apply NumFacts.isFinite_add; [done|]. by apply NumFacts.isFinite_mul.
  - apply NumFacts.isFinite_sub; [done|]. by apply NumFacts.isFinite_mul.
Qed.

Lemma iter_finite rtt maxCwnd k s :
  Num.isFinite rtt = true → Num.isFinite maxCwnd = true →
  locals_finite s → locals_finite (Nat.iter k (loop_body rtt maxCwnd) s).
Proof.
  intros Hrtt Hm Hs. induction k as [|k IH]; [done|].
  simpl. by apply loop_body_finite.
Qed.

(** On a finite connection a call for finitely many bytes returns, and
    what it returns is finite. *)
Lemma calculateTimeToDownload_finite c b tae maxT :
  finite c → Num.isFinite b = true → Num.isFinite tae = true →
  ∃ r, calculateTimeToDownload b tae maxT c = Some (r, c)
       ∧ Num.isFinite (timeElapsed r) = true
       ∧ Num.isFinite (bytesDownloaded r) = true
       ∧ Num.isFinite (congestionWindow r) = true.
Proof.
  intros Hc Hb Htae.
  pose proof (locals_at_loop_finite c b tae Hc Hb) as Hs0.
  destruct (calculateTimeToDownload_cases c b tae maxT)
    as [(k & -> & _)|[_ Hu]].
  - eexists. split; [reflexivity|].
    pose proof (iter_finite (_rtt c) (Spec.maximumCongestionWindow c) k _
                  (proj1 Hc) (maximumCongestionWindow_finite c Hc) Hs0)
      as (Hd & Hcw & Hbd & _).
    repeat split; simpl; [|by apply NumFacts.isFinite_min|done].
    apply NumFacts.isFinite_add; [|done]. by apply residualTTFB_finite.
  - unfold unbounded_transfer in Hu. destruct Hs0 as (_ & _ & _ & Hbr).
    by rewrite Hu in Hbr.
Qed.

(** A call with a deadline returns what the call without one returns, or
    stops after the deadline. *)
Lemma calculateTimeToDownload_deadline c b tae d rf rp :
  finite c → Num.isFinite b = true → Num.isFinite tae = true →
  calculateTimeToDownload b tae PInf c = Some (rf, c) →
  calculateTimeToDownload b tae (Fin d) c = Some (rp, c) →
  rp = rf ∨ (Fin d < timeElapsed rp)%num.
Proof.
  intros Hc Hb Htae Hf Hp.
  pose proof (locals_at_loop_finite c b tae Hc Hb) as Hs0.
  pose proof (residualTTFB_finite c tae Hc Htae) as Hres.
  pose proof (iter_finite (_rtt c) (Spec.maximumCongestionWindow c)) as Hiter.
  specialize (λ k, Hiter k _ (proj1 Hc) (maximumCongestionWindow_finite c Hc) Hs0).
  destruct (calculateTimeToDownload_cases c b tae PInf)
    as [(kf & Hf' & Hltf & Hendf)|[Hf' _]]; [|congruence].
  destruct (calculateTimeToDownload_cases c b tae (Fin d))
    as [(kp & Hp' & Hltp & Hendp)|[Hp' _]]; [|congruence].
  rewrite Hf in Hf'. rewrite Hp in Hp'.
  injection Hf' as ->. injection Hp' as ->.
  destruct (Spec.residualTTFB c tae) as [x| | |] eqn:Ex; try done.
  set (s0 := locals_at_loop c b tae) in *.
  set (body := loop_body (_rtt c) (Spec.maximumCongestionWindow c)) in *.
  assert (∀ s, locals_finite s →
            loop_cond (PInf - Fin x)%num s = Num.gtb (l_bytesRemaining s) 0%Z)
    as HcondF.
  { intros s (Hd & _). unfold loop_cond.
    destruct (l_downloadTimeElapsed s); try done. simpl.
    by rewrite andb_true_r. }
  unfold loop_cond in Hendp. apply andb_false_iff in Hendp as [Hbr|Hdl].
  - left. assert (kp = kf) as ->; [|done].
    destruct (lt_eq_lt_dec kp kf) as [[Hlt| ->]|Hgt]; [|done|].
    + specialize (Hltf kp Hlt). rewrite HcondF in Hltf by apply Hiter.
      congruence.
    + specialize (Hltp kf Hgt). unfold loop_cond in Hltp.
      apply andb_true_iff in Hltp as [Hltp _].
      rewrite HcondF in Hendf by apply Hiter. congruence.
  - right. destruct (Hiter kp) as (Hd & _).
    fold body s0 in Hd.
    destruct (l_downloadTimeElapsed (Nat.iter kp body s0)) as [e| | |];
      try done.
    simpl in Hdl. unfold Num.lt. simpl. apply NumFacts.Qltb_lt.
    assert (¬ e <= Qred (d + - x)) as Hlt.
    { intros H. apply Qle_bool_iff in H. congruence. }
    apply Qnot_le_lt in Hlt. rewrite !Qred_correct in *. lra.
Qed.

End TcpConnectionProofs.

(* ===================================================================== *)
(** ** More throughput on one connection *)
(* ===================================================================== *)

Module TcpConnectionThroughput.
Import TcpConnection TcpConnectionFacts TcpConnectionProofs.

Lemma min_fin_cases x y :
  ∃ z, Num.min (Fin x) (Fin y) = Fin z ∧ z <= x ∧ z <= y ∧ (z == x ∨ z == y).
Proof.
  unfold Num.min. cbn [Num.leb]. destruct (Qle_bool x y) eqn:E.
  - apply Qle_bool_iff in E. exists x.
    split; [done|]. split; [lra|]. split; [lra|]. by left.
  - assert (¬ x <= y) as H by (intros H; apply Qle_bool_iff in H; congruence).
    apply Qnot_le_lt in H. exists y.
    split; [done|]. split; [lra|]. split; [lra|]. by right.
Qed.

Lemma max_fin_cases x y :
  ∃ z, Num.max (Fin x) (Fin y) = Fin z ∧ x <= z ∧ y <= z ∧ (z == x ∨ z == y).
Proof.
  unfold Num.max. cbn [Num.leb]. destruct (Qle_bool x y) eqn:E.
  - apply Qle_bool_iff in E. exists y.
    split; [done|]. split; [lra|]. split; [lra|]. by right.
  - assert (¬ x <= y) as H by (intros H; apply Qle_bool_iff in H; congruence).
    apply Qnot_le_lt in H. exists x.
    split; [done|]. split; [lra|]. split; [lra|]. by left.
Qed.

(** A larger cap and a larger window give a larger next window. *)
Lemma grow_mono a a' cw cw' :
  a <= a' → cw <= cw' →
  ∃ g g', Spec.grow (Fin a) (Fin cw) = Fin g
          ∧ Spec.grow (Fin a') (Fin cw') = Fin g' ∧ g <= g'.
Proof.
  intros Ha Hcw. unfold Spec.grow.
  change (Fin cw * 2%Z)%num with (Fin (Qred (cw * inject_Z 2))).
  change (Fin cw' * 2%Z)%num with (Fin (Qred (cw' * inject_Z 2))).
  change (Num.of_Z 1) with (Fin (inject_Z 1)).
  destruct (min_fin_cases a (Qred (cw * inject_Z 2))) as (z & Ez & Hz1 & Hz2 & Hz).
  destruct (min_fin_cases a' (Qred (cw' * inject_Z 2)))
    as (z' & Ez' & Hz1' & Hz2' & Hz').
  rewrite Ez, Ez'.
  destruct (max_fin_cases z (inject_Z 1)) as (g & Eg & Hg1 & Hg2 & Hg).
  destruct (max_fin_cases z' (inject_Z 1)) as (g' & Eg' & Hg1' & Hg2' & Hg').
  rewrite Eg, Eg'.
  exists g, g'. split; [done|]. split; [done|].
  rewrite !Qred_correct in *.
  assert (inject_Z 2 == 2) as H2 by reflexivity. rewrite H2 in *.
  assert (z <= z') as Hzz.
  { destruct Hz' as [Hz'|Hz']; rewrite Hz'; lra. }
  destruct Hg as [Hg|Hg]; rewrite Hg; lra.
Qed.

Section Coupling.
Variables (rtt : num) (a a' : Q).
Hypothesis Ha : a <= a'.

Lemma ahead_body s s' :
  ahead s s' → ahead (loop_body rtt (Fin a) s) (loop_body rtt (Fin a') s').
Proof.
  intros (Hd & cw & cw' & br & br' & Hcw & Hcw' & Hle & Hbr & Hbr' & Hble).
  unfold loop_body. split; cbn [l_downloadTimeElapsed]; [by rewrite Hd|].
  cbn [l_congestionWindow l_bytesRemaining]. rewrite Hcw, Hcw', Hbr, Hbr'.
  fold (Spec.grow (Fin a) (Fin cw)). fold (Spec.grow (Fin a') (Fin cw')).
  destruct (grow_mono a a' cw cw' Ha Hle) as (g & g' & -> & -> & Hg).
  exists g, g'. eexists _, _.
  split; [done|]. split; [done|]. split; [done|].
  unfold TCP_SEGMENT_SIZE, Num.of_Z. cbn [Num.mul Num.sub Num.neg Num.add Num.fin].
  split; [reflexivity|]. split; [reflexivity|]. rewrite !Qred_correct.
  assert (inject_Z 1460 == 1460) as H by reflexivity. rewrite H. lra.
Qed.

Lemma ahead_iter k s s' :
  ahead s s' →
  ahead (Nat.iter k (loop_body rtt (Fin a)) s)
        (Nat.iter k (loop_body rtt (Fin a')) s').
Proof. intros H. induction k as [|k IH]; [done|]. simpl. by apply ahead_body. Qed.
End Coupling.

(** Download-phase time grows with the number of round trips, when the rtt
    is not negative. *)
Lemma elapsed_after_mono r j k :
  0 <= r → (j <= k)%nat →
  ∃ x y, Spec.elapsed_after j (Fin r) = Fin x
         ∧ Spec.elapsed_after k (Fin r) = Fin y ∧ x <= y.
Proof.
  intros Hr Hjk. induction Hjk as [|k Hjk IH].
  - assert (∃ x, Spec.elapsed_after j (Fin r) = Fin x) as [x Hx].
    { induction j as [|j [x IH]]; [by eexists|].
      change (Spec.elapsed_after (S j) (Fin r))
        with (Spec.elapsed_after j (Fin r) + Fin r)%num.
      rewrite IH. by eexists. }
    exists x, x. split; [done|]. split; [done|]. lra.
  - destruct IH as (x & y & Hx & Hy & Hle). exists x. eexists.
    split; [done|].
    change (Spec.elapsed_after (S k) (Fin r))
      with (Spec.elapsed_after k (Fin r) + Fin r)%num.
    rewrite Hy. split; [reflexivity|]. rewrite Qred_correct. lra.
Qed.

(** The cap on the congestion window grows with the throughput, when the
    rtt is not negative. *)
Lemma maximumCongestionWindow_mono c t t' :
  nonnegative (_rtt c) → t <= t' →
  ∃ a a', Spec.maximumCongestionWindow (at_throughput c (Fin t)) = Fin a
          ∧ Spec.maximumCongestionWindow (at_throughput c (Fin t')) = Fin a'
          ∧ a <= a'.
Proof.
  intros (q & Hq & Hq0) Ht. unfold Spec.maximumCongestionWindow.
  cbn [at_throughput _availableThroughput _rtt]. rewrite Hq.
  eexists _, _. split; [reflexivity|]. split; [reflexivity|].
  rewrite <- Zle_Qle. apply Qfloor_resp_le. rewrite !Qred_correct.
  assert (0 <= q / inject_Z 1000) as H1.
  { apply Qle_shift_div_l; [done|]. by rewrite Qmult_0_l. }
  assert (t / inject_Z 8 <= t' / inject_Z 8) as H2.
  { apply Qmult_le_compat_r; [done|]. done. }
  apply Qmult_le_compat_r; [|done].
  by apply Qmult_le_compat_r.
Qed.

Lemma residualTTFB_at_throughput c throughput tae :
  Spec.residualTTFB (at_throughput c throughput) tae = Spec.residualTTFB c tae.
Proof. reflexivity. Qed.

Lemma locals_at_loop_ahead c t t' b tae :
  finite c → nonnegative (_rtt c) → t <= t' →
  Num.isFinite b = true →
  ahead (locals_at_loop (at_throughput c (Fin t)) b tae)
        (locals_at_loop (at_throughput c (Fin t')) b tae).
Proof.
  intros (_ & _ & _ & Hcw) Hrtt Ht Hb.
  destruct (maximumCongestionWindow_mono c t t' Hrtt Ht)
    as (a & a' & Ea & Ea' & Ha).
  unfold locals_at_loop. rewrite !residualTTFB_at_throughput, Ea, Ea'.
  cbn [at_throughput _congestionWindow].
  destruct (_congestionWindow c) as [w| | |]; try done.
  destruct b as [b'| | |]; try done.
  destruct (min_fin_cases w a) as (z & Ez & Hz1 & Hz2 & Hz).
  destruct (min_fin_cases w a') as (z' & Ez' & Hz1' & Hz2' & Hz').
  rewrite Ez, Ez'.
  assert (z <= z') as Hzz by (destruct Hz' as [Hz'|Hz']; rewrite Hz'; lra).
  destruct (Num.gtb _ _); split; cbn [l_downloadTimeElapsed]; try done.
  - exists z, z'. eexists _, _. split; [done|]. split; [done|]. split; [done|].
    unfold TCP_SEGMENT_SIZE, Num.of_Z.
    cbn [l_bytesRemaining Num.mul Num.sub Num.neg Num.add Num.fin].
    split; [reflexivity|]. split; [reflexivity|]. rewrite !Qred_correct.
    assert (inject_Z 1460 == 1460) as H by reflexivity. rewrite H. lra.
  - exists z, z'. eexists _, _. split; [done|]. split; [done|]. split; [done|].
    cbn [l_bytesRemaining Num.sub Num.neg Num.add Num.fin].
    split; [reflexivity|]. split; [reflexivity|]. lra.
Qed.

(** With more throughput, a transfer without a deadline takes no longer. *)
Lemma calculateTimeToDownload_throughput c t t' b tae r r' :
  finite c → nonnegative (_rtt c) → t <= t' →
  Num.isFinite b = true → Num.isFinite tae = true →
  calculateTimeToDownload b tae PInf (at_throughput c (Fin t))
  = Some (r, at_throughput c (Fin t)) →
  calculateTimeToDownload b tae PInf (at_throughput c (Fin t'))
  = Some (r', at_throughput c (Fin t')) →
  Num.leb (timeElapsed r') (timeElapsed r) = true.
Proof.
  intros Hc Hrtt Ht Hb Htae Hr Hr'.
  assert (∀ x, finite (at_throughput c (Fin x))) as Hfin
    by (intros x; destruct Hc as (? & ? & ? & ?); by repeat split).
  pose proof (locals_at_loop_ahead c t t' b tae Hc Hrtt Ht Hb) as Hahead.
  destruct (maximumCongestionWindow_mono c t t' Hrtt Ht)
    as (a & a' & Ea & Ea' & Ha).
  pose proof (λ k, ahead_iter (_rtt c) a a' Ha k _ _ Hahead) as Hiter.
  pose proof (residualTTFB_finite c tae Hc Htae) as Hres.
  destruct (calculateTimeToDownload_cases (at_throughput c (Fin t)) b tae PInf)
    as [(k & Hk & Hlt & Hend)|[Hk _]]; [|congruence].
  destruct (calculateTimeToDownload_cases (at_throughput c (Fin t')) b tae PInf)
    as [(k' & Hk' & Hlt' & Hend')|[Hk' _]]; [|congruence].
  rewrite Hr in Hk. rewrite Hr' in Hk'.
  injection Hk as ->. injection Hk' as ->.
  rewrite !residualTTFB_at_throughput in *.
  rewrite Ea in *. rewrite Ea' in *.
  cbn [at_throughput _rtt] in *.
  cbn [timeElapsed]. rewrite !iter_downloadTimeElapsed, !locals_at_loop_elapsed.
  destruct (Spec.residualTTFB c tae) as [ρ| | |] eqn:Eρ; try done.
  assert (k' <= k)%nat as Hkk.
  { destruct (le_lt_dec k' k) as [|Hgt]; [done|]. exfalso.
    specialize (Hlt' k Hgt). unfold loop_cond in Hlt', Hend.
    apply andb_true_iff in Hlt' as [Hbr' _].
    destruct (Hiter k) as (Hd & cw & cw' & br & br' & _ & _ & _ & Ebr & Ebr' & Hle).
    rewrite Ebr' in Hbr'. rewrite Ebr in Hend.
    apply NumFacts.ltb_fin in Hbr'.
    assert (Num.gtb (Fin br) 0%Z = true) as Hbr.
    { apply NumFacts.ltb_fin. lra. }
    rewrite Hbr in Hend. simpl in Hend.
    pose proof (iter_finite (_rtt c) (Fin a) k _ (proj1 Hc) Logic.eq_refl
                  (locals_at_loop_finite _ b tae (Hfin t) Hb)) as (Hdf & _).
    destruct (l_downloadTimeElapsed _); done. }
  destruct Hrtt as (q & Eq & Hq). rewrite Eq.
  destruct (elapsed_after_mono q k' k Hq Hkk) as (x & y & Ex & Ey & Hxy).
  unfold Spec.elapsed_after in Ex, Ey. rewrite Ex, Ey.
  cbn [Num.add Num.fin Num.leb]. apply Qle_bool_iff. rewrite !Qred_correct. lra.
Qed.

End TcpConnectionThroughput.

(* ===================================================================== *)
(** ** Properties of the connection model *)
(* ===================================================================== *)

Section ConnectionClaims.
Import TcpConnection TcpConnectionFacts TcpConnectionProofs.

(** C1.  For every connection and every call of [calculateTimeToDownload],
    the handshake cost is [1.5 × rtt + (ssl ? rtt : 0)] when the connection
    is not warmed and [rtt / 2] when it is, the time to first byte is
    handshake + response time + [rtt / 2], and the call charges
    [max(TTFB − timeAlreadyElapsed, 0)] of it: the returned [timeElapsed] is
    that residual plus the time of the [k] round trips of the download
    phase.  (The call has no result only for an unbounded transfer.) *)
Theorem calculateTimeToDownload_charges_residual_ttfb
    (c : TcpConnection.t) (bytesToDownload timeAlreadyElapsed maximumTimeToElapse : num) :
  match calculateTimeToDownload bytesToDownload timeAlreadyElapsed
          maximumTimeToElapse c with
  | Some (r, _) =>
      ∃ k, timeElapsed r
           = (Spec.residualTTFB c timeAlreadyElapsed
              + Spec.elapsed_after k (_rtt c))%num
  | None => unbounded_transfer c bytesToDownload timeAlreadyElapsed
  end.
Proof.
  destruct (calculateTimeToDownload_cases c bytesToDownload timeAlreadyElapsed
              maximumTimeToElapse) as [(k & -> & _)|[-> Hu]]; [|done].
  exists k. cbn [timeElapsed].
  by rewrite iter_downloadTimeElapsed, locals_at_loop_elapsed.
Qed.

(** C2, as the code has it.  On a connection with rtt = 100 ms,
    throughput = 1,638,400 bits/s, ssl, response time 0, not warmed,
    [calculateTimeToDownload(0)] returns [timeElapsed] = 300 ms: 150 ms of
    TCP handshake and request, 100 ms of TLS, 50 ms for the first byte to
    come back. *)
Theorem calculateTimeToDownload_scenario_zero_bytes :
  calculateTimeToDownload 0%Z 0%Z PInf scenario_connection
  = Some ({| roundTrips := 3%Z; timeElapsed := 300%Z;
             bytesDownloaded := 0%Z; congestionWindow := 10%Z |},
          scenario_connection).
Proof. vm_compute. reflexivity. Qed.

(** C2, as stated, fails: the call does not return 250 ms. *)
Lemma calculateTimeToDownload_scenario_not_250 :
  ¬ ∃ r c', calculateTimeToDownload 0%Z 0%Z PInf scenario_connection = Some (r, c')
            ∧ (timeElapsed r == 250%Z)%num.
Proof.
  intros (r & c' & Hcall & Heq).
  rewrite calculateTimeToDownload_scenario_zero_bytes in Hcall.
  injection Hcall as <- _. simpl in Heq. discriminate Heq.
Qed.

(** C6.  [calculateTimeToDownload] leaves the connection as it was, and so
    does [_computeMaximumCongestionWindowInSegments]; each of the three
    setters changes its own field and no other. *)
Theorem calculateTimeToDownload_does_not_mutate
    (c : TcpConnection.t) (bytesToDownload timeAlreadyElapsed maximumTimeToElapse : num) :
  match calculateTimeToDownload bytesToDownload timeAlreadyElapsed
          maximumTimeToElapse c with
  | Some (_, c') => c' = c
  | None => unbounded_transfer c bytesToDownload timeAlreadyElapsed
  end
  ∧ _computeMaximumCongestionWindowInSegments c
    = Some (Spec.maximumCongestionWindow c, c)
  ∧ (∀ throughput,
        setThroughput throughput c
        = Some (tt, {| _warmed := _warmed c; _ssl := _ssl c; _rtt := _rtt c;
                       _availableThroughput := throughput;
                       _responseTime := _responseTime c;
                       _congestionWindow := _congestionWindow c |}))
  ∧ (∀ congestion,
        setCongestionWindow congestion c
        = Some (tt, {| _warmed := _warmed c; _ssl := _ssl c; _rtt := _rtt c;
                       _availableThroughput := _availableThroughput c;
                       _responseTime := _responseTime c;
                       _congestionWindow := congestion |}))
  ∧ (∀ value,
        setWarmed value c
        = Some (tt, {| _warmed := value; _ssl := _ssl c; _rtt := _rtt c;
                       _availableThroughput := _availableThroughput c;
                       _responseTime := _responseTime c;
                       _congestionWindow := _congestionWindow c |})).
Proof.
  split; [|repeat split].
  destruct (calculateTimeToDownload_cases c bytesToDownload timeAlreadyElapsed
              maximumTimeToElapse) as [(k & -> & _)|[-> Hu]]; done.
Qed.

(** C4.  The growth loop of [calculateTimeToDownload]: every iteration adds
    one rtt to the download-phase time, sets the congestion window to
    [max(min(maximumCongestionWindow, congestionWindow × 2), 1)] and credits
    that window times 1460 bytes; a call returns the state after [k]
    iterations, where bytes remained and the download-phase time was at most
    [maximumTimeToElapse − residual TTFB] before each of them and not after
    the last, with [bytesDownloaded] clamped to [bytesToDownload].  A call
    for 0 bytes, on a connection whose rtt, throughput and congestion window
    are not negative, returns 0 bytes and the residual TTFB alone. *)
Theorem calculateTimeToDownload_growth_loop
    (c : TcpConnection.t) (bytesToDownload timeAlreadyElapsed maximumTimeToElapse : num) :
  let maxCwnd := Spec.maximumCongestionWindow c in
  let residual := Spec.residualTTFB c timeAlreadyElapsed in
  let state k :=
    Nat.iter k (loop_body (_rtt c) maxCwnd)
             (locals_at_loop c bytesToDownload timeAlreadyElapsed) in
  let goes_on s :=
    Num.gtb (l_bytesRemaining s) 0%Z
    && Num.leb (l_downloadTimeElapsed s) (maximumTimeToElapse - residual)%num in
  (∀ k,
      l_downloadTimeElapsed (state (S k))
      = (l_downloadTimeElapsed (state k) + _rtt c)%num
      ∧ l_congestionWindow (state (S k))
        = Num.max (Num.min maxCwnd (l_congestionWindow (state k) * 2%Z)%num) 1%Z
      ∧ l_bytesDownloaded (state (S k))
        = (l_bytesDownloaded (state k)
           + l_congestionWindow (state (S k)) * TCP_SEGMENT_SIZE)%num
      ∧ l_bytesRemaining (state (S k))
        = (l_bytesRemaining (state k)
           - l_congestionWindow (state (S k)) * TCP_SEGMENT_SIZE)%num)
  ∧ match calculateTimeToDownload bytesToDownload timeAlreadyElapsed
            maximumTimeToElapse c with
    | Some (r, _) =>
        ∃ k, (∀ j, (j < k)%nat → goes_on (state j) = true)
             ∧ goes_on (state k) = false
             ∧ timeElapsed r = (residual + l_downloadTimeElapsed (state k))%num
             ∧ congestionWindow r = l_congestionWindow (state k)
             ∧ bytesDownloaded r
               = Num.min (l_bytesDownloaded (state k)) bytesToDownload
    | None => unbounded_transfer c bytesToDownload timeAlreadyElapsed
    end
  ∧ (bytesToDownload = 0%Z →
     nonnegative (_rtt c) → nonnegative (_availableThroughput c) →
     (0%Z <= _congestionWindow c)%num →
     ∃ r, calculateTimeToDownload bytesToDownload timeAlreadyElapsed
            maximumTimeToElapse c = Some (r, c)
          ∧ (bytesDownloaded r == 0%Z)%num
          ∧ (timeElapsed r == residual)%num).
Proof.
  intros maxCwnd residual state goes_on.
  split; [|split].
  - intros k. unfold state. simpl. auto.
  - destruct (calculateTimeToDownload_cases c bytesToDownload timeAlreadyElapsed
                maximumTimeToElapse) as [(k & -> & Hlt & Hend)|[-> Hu]]; [|done].
    exists k. auto.
  - intros -> Hrtt Hthr Hcw.
    assert (0%Z <= Num.min (_congestionWindow c) maxCwnd)%num as Hcw0.
    { apply min_nonneg; [done|].
      by apply nonnegative_le, maximumCongestionWindow_nonneg. }
    rewrite calculateTimeToDownload_eq. cbv zeta.
    unfold locals_at_loop. fold maxCwnd residual.
    destruct (Num.gtb residual 0%Z) eqn:Hres; cbn [l_bytesRemaining].
    + destruct (Num.min (_congestionWindow c) maxCwnd) as [x| | |] eqn:Hmin;
        try done.
      * apply NumFacts.leb_fin in Hcw0. change (inject_Z 0) with 0 in Hcw0.
        assert (0 <= x * 1460) as Hx by nra.
        unfold TCP_SEGMENT_SIZE, Num.of_Z, Num.mul, Num.sub, Num.neg, Num.add,
          Num.fin, loop_fuel.
        set (bd := Qred (x * inject_Z 1460)).
        assert (bd == x * 1460) as Hbd by (unfold bd; by rewrite Qred_correct).
        set (br := Qred (inject_Z 0 + - bd)).
        assert (br == - bd) as Hbr.
        { unfold br. rewrite Qred_correct. change (inject_Z 0) with 0. ring. }
        assert (Num.gtb (Fin br) (Fin (inject_Z 0)) = false) as Hgt.
        { apply NumFacts.Qltb_ge. change (inject_Z 0) with 0. lra. }
        assert (∀ f d s, l_bytesRemaining s = Fin br →
                  while_loop (_rtt c) maxCwnd d f s = Some s) as Hloop.
        { intros f d s Hs. destruct f; simpl; unfold loop_cond;
            rewrite Hs; unfold Num.of_Z; by rewrite Hgt. }
        rewrite Hloop by done. eexists. split; [reflexivity|].
        cbn [bytesDownloaded timeElapsed l_bytesDownloaded l_downloadTimeElapsed].
        split.
        -- unfold Num.min. cbn [Num.leb].
           destruct (Qle_bool bd (inject_Z 0)) eqn:Hle; simpl; [|reflexivity].
           apply Qle_bool_iff in Hle. change (inject_Z 0) with 0 in *. lra.
        -- destruct residual; simpl; auto. rewrite Qred_correct.
           change (inject_Z 0) with 0. ring.
      * (* an infinite window *)
        eexists. split; [reflexivity|].
        split; [reflexivity|].
        destruct residual; simpl; auto. rewrite Qred_correct.
        change (inject_Z 0) with 0. ring.
    + eexists. split; [reflexivity|].
      split; [reflexivity|].
      destruct residual; simpl; auto. rewrite Qred_correct.
      change (inject_Z 0) with 0. ring.
Qed.

Lemma calculateTimeToDownload_growth_loop_witness :
  nonnegative (_rtt scenario_connection)
  ∧ nonnegative (_availableThroughput scenario_connection)
  ∧ (0%Z <= _congestionWindow scenario_connection)%num
  ∧ ∃ r, calculateTimeToDownload 0%Z 0%Z PInf scenario_connection
         = Some (r, scenario_connection)
         ∧ (bytesDownloaded r == 0%Z)%num
         ∧ (timeElapsed r == Spec.residualTTFB scenario_connection 0%Z)%num.
Proof.
  assert (nonnegative (_rtt scenario_connection)) as Hrtt.
  { exists 100. split; reflexivity || discriminate. }
  assert (nonnegative (_availableThroughput scenario_connection)) as Hthr.
  { exists 1638400. split; reflexivity || discriminate. }
  assert (0%Z <= _congestionWindow scenario_connection)%num as Hcw
    by reflexivity.
  split; [exact Hrtt|]. split; [exact Hthr|]. split; [exact Hcw|].
  exact (proj2 (proj2 (calculateTimeToDownload_growth_loop
                         scenario_connection 0%Z 0%Z PInf))
               Logic.eq_refl Hrtt Hthr Hcw).
Defined.

End ConnectionClaims.

(* ===================================================================== *)
(** ** Reasoning about the methods of the estimator *)
(* ===================================================================== *)

Module EstimatorProofs.
Import Estimator EstimatorFacts.

Lemma last_cons_state (s x : State) h : List.last (x :: h) s = List.last h x.
Proof.
  revert s x. induction h as [|y h IH]; intros s x; [done|].
  change (List.last (x :: y :: h) s) with (List.last (y :: h) s).
  by rewrite !IH.
Qed.

Lemma chain_app J s h h' :
  chain J s (h ++ h') ↔ chain J s h ∧ chain J (List.last h s) h'.
Proof.
  revert s. induction h as [|x h IH]; intros s; [simpl; tauto|].
  rewrite last_cons_state. simpl. rewrite IH. tauto.
Qed.

Lemma last_app_state (s : State) h h' :
  List.last (h ++ h') s = List.last h' (List.last h s).
Proof.
  revert s. induction h as [|x h IH]; intros s; [done|].
  rewrite <- app_comm_cons, !last_cons_state. apply IH.
Qed.

Lemma chain_and (J1 J2 : State → State → Prop) s h :
  chain J1 s h → chain J2 s h → chain (λ a b, J1 a b ∧ J2 a b) s h.
Proof.
  revert s. induction h as [|x h IH]; intros s; simpl; [done|].
  intros [? ?] [? ?]. auto.
Qed.

Lemma chain_impl (J J' : State → State → Prop) s h :
  (∀ a b, J a b → J' a b) → chain J s h → chain J' s h.
Proof.
  intros HJ. revert s. induction h as [|x h IH]; intros s; simpl; [done|].
  intros [? ?]. auto.
Qed.

(** A chain of steps that all end in containers satisfying [P]. *)
Lemma chain_Forall (P : State → Prop) s h :
  chain (λ _ s', P s') s h ↔ Forall P h.
Proof.
  revert s. induction h as [|x h IH]; intros s; simpl.
  - split; [constructor|done].
  - rewrite IH, Forall_cons. tauto.
Qed.

Section Rules.
Context (X : Error → Prop) (N : Prop) (J : State → State → Prop).

Lemma wp_ret {A} (a : A) (Q : A → State → Prop) s :
  Q a s → wp X N J (mret a) Q s.
Proof. intros H. split; simpl; done. Qed.

Lemma wp_bind {A B} (m : E A) (k : A → E B) (Q : B → State → Prop) s :
  wp X N J m (λ a s', wp X N J (k a) Q s') s → wp X N J (m ≫= k) Q s.
Proof.
  unfold wp, mbind, E_bind. intros [Hh Hr].
  destruct (m s) as [h [[a s']|e|]]; simpl in *; auto.
  destruct Hr as [-> [Hh' Hr]].
  destruct (k a (List.last h s)) as [h' r]. simpl in *.
  split; [by apply chain_app|].
  destruct r as [[b s'']|e|]; auto.
  destruct Hr as [-> HQ]. split; [|done]. by rewrite last_app_state.
Qed.

Lemma wp_get {A} (f : State → A) (Q : A → State → Prop) s :
  Q (f s) s → wp X N J (get f) Q s.
Proof. intros H. split; simpl; done. Qed.

Lemma wp_modify (f : State → State) (Q : unit → State → Prop) s :
  J s (f s) → Q tt (f s) → wp X N J (modify f) Q s.
Proof. intros HJ HQ. split; simpl; done. Qed.

Lemma wp_throw {A} (e : Error) (Q : A → State → Prop) s :
  X e → wp X N J (throw e) Q s.
Proof. intros H. split; simpl; done. Qed.

Lemma wp_noResult {A} (Q : A → State → Prop) s :
  N → wp X N J noResult Q s.
Proof. intros H. split; simpl; done. Qed.

Lemma wp_defined {A} (o : option A) (Q : A → State → Prop) s :
  match o with Some a => Q a s | None => X TypeError end →
  wp X N J (defined o) Q s.
Proof. destruct o; [apply wp_ret | apply wp_throw]. Qed.

Lemma wp_mono {A} (m : E A) (Q Q' : A → State → Prop) s :
  wp X N J m Q s → (∀ a s', Q a s' → Q' a s') → wp X N J m Q' s.
Proof.
  unfold wp. intros [Hh Hr] HQ. split; [done|].
  destruct (m s).2 as [[a s']|e|]; auto. destruct Hr. auto.
Qed.

(** A [for ... of] loop, with an invariant that may mention the elements
    still to visit. *)
Lemma wp_for_of {A} (I : list A → State → Prop) (body : A → E unit)
    (xs : list A) s :
  I xs s →
  (∀ x rest s', I (x :: rest) s' → wp X N J (body x) (λ _, I rest) s') →
  wp X N J (for_of xs body) (λ _, I []) s.
Proof.
  intros Hs Hbody. revert s Hs. induction xs as [|x xs IH]; intros s Hs; simpl.
  - by apply wp_ret.
  - apply wp_bind. eapply wp_mono; [by apply Hbody|].
    intros [] s' Hs'. by apply IH.
Qed.

(** A method call on a connection. *)
Lemma wp_onConnection {A} id (m : TcpConnection.M A) (Q : A → State → Prop) s :
  match _connections s !! id with
  | None => X TypeError
  | Some c =>
      match m c with
      | None => N
      | Some (a, c') =>
          J s (set_connections <[id := c']> s)
          ∧ Q a (set_connections <[id := c']> s)
      end
  end →
  wp X N J (onConnection id m) Q s.
Proof.
  intros H. unfold onConnection.
  apply wp_bind, wp_get, wp_bind, wp_defined.
  destruct (_connections s !! id) as [c|]; [|done].
  destruct (m c) as [[a c']|]; [|by apply wp_noResult].
  destruct H. apply wp_bind, wp_modify; [done|]. by apply wp_ret.
Qed.
End Rules.

(** Two properties of one call. *)
Lemma wp_and {A} X1 X2 (N1 N2 : Prop) J1 J2 (m : E A) Q1 Q2 s :
  wp X1 N1 J1 m Q1 s → wp X2 N2 J2 m Q2 s →
  wp (λ e, X1 e ∧ X2 e) (N1 ∧ N2) (λ a b, J1 a b ∧ J2 a b) m
     (λ a s, Q1 a s ∧ Q2 a s) s.
Proof.
  unfold wp. intros [Hh1 Hr1] [Hh2 Hr2]. split.
  - by apply chain_and.
  - destruct (m s).2 as [[a s']|e|]; auto. destruct Hr1, Hr2. auto.
Qed.

(** Weakening what is required of failures and of the history. *)
Lemma wp_weaken {A} (X X' : Error → Prop) (N N' : Prop)
    (J J' : State → State → Prop) (m : E A) Q s :
  wp X N J m Q s → (∀ e, X e → X' e) → (N → N') → (∀ a b, J a b → J' a b) →
  wp X' N' J' m Q s.
Proof.
  unfold wp. intros [Hh Hr] HX HN HJ. split.
  - by eapply chain_impl.
  - destruct (m s).2 as [[a s']|e|]; auto.
Qed.

(** Adding what another property of the call says of its result. *)
Lemma wp_post_and {A} X1 X2 (N1 N2 : Prop) J1 J2 (m : E A) Q1 Q2 s :
  wp X1 N1 J1 m Q1 s → wp X2 N2 J2 m Q2 s →
  wp X2 N2 J2 m (λ a s, Q1 a s ∧ Q2 a s) s.
Proof.
  intros H1 H2. eapply wp_weaken; [by apply wp_and| | |]; cbv beta; tauto.
Qed.

Ltac wp_step :=
  lazymatch goal with
  | |- wp _ _ _ (mbind _ _) _ _ => apply wp_bind
  | |- wp _ _ _ (mret _) _ _ => apply wp_ret
  | |- wp _ _ _ (get _) _ _ => apply wp_get
  | |- wp _ _ _ (throw _) _ _ => apply wp_throw
  | |- wp _ _ _ (defined _) _ _ => apply wp_defined
  | |- wp _ _ _ (modify _) _ _ => apply wp_modify
  | |- wp _ _ _ (onConnection _ _) _ _ => apply wp_onConnection
  end; cbv beta.

(** Projections of updated containers. *)
Ltac simpl_state :=
  cbn [_connections _nodeAuxiliaryData _nodesCompleted _nodesInProcess
       _nodesInQueue _connectionsInUse set_connections set_nodeAuxiliaryData
       set_nodesCompleted set_nodesInProcess set_nodesInQueue
       set_connectionsInUse] in *.

(** *** Sets *)
Lemma elem_of_add x y s : x ∈ JSSet.add y s ↔ x = y ∨ x ∈ s.
Proof.
  unfold JSSet.add, JSSet.has. case_bool_decide.
  - split; [auto|]. intros [->|]; done.
  - rewrite elem_of_app, list_elem_of_singleton. tauto.
Qed.

Lemma elem_of_delete x y s : x ∈ JSSet.delete y s ↔ x ≠ y ∧ x ∈ s.
Proof. unfold JSSet.delete. by rewrite list_elem_of_filter. Qed.

Lemma NoDup_add y s : NoDup s → NoDup (JSSet.add y s).
Proof.
  intros H. unfold JSSet.add, JSSet.has. case_bool_decide; [done|].
  apply NoDup_app. repeat split; [done| |apply NoDup_singleton].
  intros x Hx ->%list_elem_of_singleton. done.
Qed.

Lemma NoDup_delete y s : NoDup s → NoDup (JSSet.delete y s).
Proof. apply NoDup_filter. Qed.

Lemma length_add_new y s : y ∉ s → length (JSSet.add y s) = S (length s).
Proof.
  intros H. unfold JSSet.add, JSSet.has. rewrite bool_decide_eq_false_2 by done.
  rewrite length_app. simpl. lia.
Qed.

Lemma length_delete y s : (length (JSSet.delete y s) <= length s)%nat.
Proof. apply length_filter. Qed.

End EstimatorProofs.

(* ===================================================================== *)
(** ** Which nodes are in flight *)
(* ===================================================================== *)

Module EstimatorStructure.
Import Estimator EstimatorFacts EstimatorProofs.

Lemma limit_admits (l : list NodeId) (cap : num) (k : nat) :
  Num.geb (JSSet.size l) cap = false → (cap == Num.of_nat k)%num →
  (S (length l) <= k)%nat.
Proof.
  unfold Num.geb, JSSet.size, Num.of_nat, Num.of_Z.
  destruct cap as [q| | |]; simpl; try done.
  intros Hle Hq.
  assert (¬ q <= inject_Z (Z.of_nat (length l))) as Hlt.
  { intros H. apply Qle_bool_iff in H. congruence. }
  apply Qnot_le_lt in Hlt. rewrite Hq, <- Zlt_Qlt in Hlt. lia.
Qed.

Section Methods.
Variable this : Estimator.t.

Local Abbreviation X := (λ e : Error, e ≠ Unsupported).
Local Abbreviation J := (λ _ s' : State, structure_always this s').
Local Abbreviation Inv := (structure_inv this).

Lemma network_connectionOf n :
  type (node (_graph this) n) = NETWORK → ∃ c, connectionOf this n = Some c.
Proof.
  unfold type, connectionOf. destruct (data _); [eauto|discriminate].
Qed.

Lemma enqueue_structure n s :
  Inv s →
  wp X True J (_enqueueNodeIfPossible this n)
     (λ _ s', Inv s' ∧ _nodesInProcess s' = _nodesInProcess s) s.
Proof.
  intros Hinv. unfold _enqueueNodeIfPossible. wp_step. wp_step.
  destruct (_ && _); [|by wp_step].
  wp_step; [apply Hinv | split; [exact Hinv|done]].
Qed.

Lemma start_structure n t s :
  Inv s → wp X True J (_startNodeIfPossible this n t) (λ _, Inv) s.
Proof.
  intros Hinv. unfold _startNodeIfPossible.
  destruct (data (node (_graph this) n)) as [record|] eqn:Hdata;
    [|by wp_step].
  do 3 (wp_step; wp_step).
  destruct (_ || _) eqn:Hcond; [by wp_step|].
  apply orb_false_iff in Hcond as [Hcap Hused].
  wp_step. wp_step.
  destruct (_connections s !! connectionId record) as [c|] eqn:Hc; [|done].
  destruct Hinv as ((Hnet & Hexcl & Hlim) & Hmark & Hnodup).
  assert (connectionOf this n = Some (connectionId record)) as Hconn.
  { unfold connectionOf. by rewrite Hdata. }
  assert (∀ m, m ∈ _nodesInProcess s →
               connectionOf this m ≠ Some (connectionId record)) as Hfree.
  { intros m Hm Hcm. apply Hmark in Hcm; [|done].
    unfold JSSet.has in Hused. by apply bool_decide_eq_false in Hused. }
  assert (n ∉ _nodesInProcess s) as Hnew.
  { intros Hn. by apply (Hfree n). }
  assert (structure_always this (set_nodesInProcess (JSSet.add n) s)) as HJ.
  { repeat split.
    - intros m [->|Hm]%elem_of_add; [|by apply Hnet].
      unfold type. by rewrite Hdata.
    - intros n1 n2 c' [->|H1]%elem_of_add [->|H2]%elem_of_add Hc1 Hc2; cbn in *.
      + done.
      + exfalso. apply (Hfree n2 H2). congruence.
      + exfalso. apply (Hfree n1 H1). congruence.
      + by eapply Hexcl.
    - intros k Hk. cbn. rewrite length_add_new by done.
      by eapply limit_admits. }
  wp_step. wp_step; [by repeat split|].
  wp_step. wp_step; [exact HJ|].
  wp_step. wp_step; [exact HJ|].
  wp_step; [exact HJ|].
  split; [exact HJ|]. split.
  - intros m c' [->|Hm]%elem_of_add Hcm; cbn in *; apply elem_of_add.
    + left. congruence.
    + right. by eapply Hmark.
  - by apply NoDup_add.
Qed.

(** A method call on a connection changes neither what is in flight nor
    what is in use. *)
Lemma onConnection_structure {A} id (m : TcpConnection.M A) s :
  Inv s → wp X True J (onConnection id m) (λ _, Inv) s.
Proof.
  intros Hinv. wp_step.
  destruct (_connections s !! id) as [c|]; [|done].
  destruct (m c) as [[a c']|]; [|done].
  split; [apply Hinv | exact Hinv].
Qed.

Lemma updateNetworkCapacity_structure s :
  Inv s → wp X True J (_updateNetworkCapacity this) (λ _, Inv) s.
Proof.
  intros Hinv. unfold _updateNetworkCapacity. wp_step. wp_step.
  apply (wp_for_of _ _ _ (λ _, Inv)); [done|].
  intros id _ s' Hs'. wp_step. wp_step. by apply onConnection_structure.
Qed.

Lemma estimateTimeRemaining_structure n s :
  Inv s → n ∈ _nodesInProcess s →
  wp X True J (_estimateTimeRemaining this n) (λ _ s', Inv s'
    ∧ _nodesInProcess s' = _nodesInProcess s) s.
Proof.
  intros Hinv Hn. unfold _estimateTimeRemaining.
  assert (type (node (_graph this) n) = NETWORK) as Htype by by apply Hinv.
  unfold type in Htype.
  destruct (data (node (_graph this) n)) as [record|]; [|done].
  wp_step. wp_step. wp_step. wp_step.
  destruct (_nodeAuxiliaryData s !! n) as [aux|]; [|done].
  wp_step. wp_step.
  destruct (_connections s !! connectionId record) as [c|]; [|done].
  destruct (TcpConnection.calculateTimeToDownload _ _ _ c) as [[r c']|];
    [|done].
  split; [apply Hinv|].
  wp_step. wp_step; [apply Hinv|]. wp_step. split; [exact Hinv|done].
Qed.

Lemma findNext_structure nodes minimumTime s :
  Inv s → (∀ n, n ∈ nodes → n ∈ _nodesInProcess s) →
  wp X True J (findNext this nodes minimumTime) (λ _ s', Inv s'
    ∧ _nodesInProcess s' = _nodesInProcess s) s.
Proof.
  revert minimumTime s.
  induction nodes as [|n nodes IH]; intros minimumTime s Hinv Hsub; simpl.
  - by wp_step.
  - wp_step. eapply wp_mono.
    + apply estimateTimeRemaining_structure; [done|].
      apply Hsub. by left.
    + intros estimate s' [Hinv' Heq]. cbv beta.
      eapply wp_mono.
      * apply IH; [done|]. intros m Hm. rewrite Heq. apply Hsub. by right.
      * intros ? s'' [? Heq']. split; [done|]. by rewrite Heq', Heq.
Qed.

Lemma updateProgress_structure n timePeriodLength totalElapsedTime s :
  Inv s → n ∈ _nodesInProcess s →
  wp X True J
    (_updateProgressMadeInTimePeriod this n timePeriodLength totalElapsedTime)
    (λ _ s', Inv s'
       ∧ ∀ m, m ≠ n → m ∈ _nodesInProcess s → m ∈ _nodesInProcess s') s.
Proof.
  intros Hinv Hn. unfold _updateProgressMadeInTimePeriod.
  assert (type (node (_graph this) n) = NETWORK) as Htype by by apply Hinv.
  unfold type in Htype.
  destruct (data (node (_graph this) n)) as [record|] eqn:Hdata; [|done].
  assert (connectionOf this n = Some (connectionId record)) as Hconn.
  { unfold connectionOf. by rewrite Hdata. }
  wp_step. wp_step. wp_step. wp_step.
  destruct (_nodeAuxiliaryData s !! n) as [aux|]; [|done].
  wp_step. wp_step.
  destruct (_connections s !! connectionId record) as [c|]; [|done].
  destruct (TcpConnection.calculateTimeToDownload _ _ _ c) as [[r c']|];
    [|done].
  split; [apply Hinv|].
  wp_step. wp_step. cbn [_connections set_connections].
  rewrite lookup_insert_eq. cbn.
  split; [apply Hinv|].
  destruct (strictly_equal _ _).
  - wp_step. wp_step; [apply Hinv|].
    wp_step. wp_step. cbn [_connections set_connections set_nodeAuxiliaryData].
    rewrite lookup_insert_eq. cbn.
    split; [apply Hinv|].
    wp_step. wp_step; [apply Hinv|].
    wp_step. wp_step; [apply Hinv|].
    destruct Hinv as ((Hnet & Hexcl & Hlim) & Hmark & Hnodup).
    match goal with |- wp _ _ _ _ _ ?s1 =>
      assert (Inv (set_nodesInProcess (JSSet.delete n) s1)
              ∧ ∀ m, m ≠ n → m ∈ _nodesInProcess s →
                     m ∈ _nodesInProcess (set_nodesInProcess (JSSet.delete n) s1))
        as [Hinv' Hkeep]
    end.
    { split; [|intros m Hm Hin; cbn; by apply elem_of_delete].
      repeat split.
      - intros m [_ Hm]%elem_of_delete. by apply Hnet.
      - intros n1 n2 c0 [_ H1]%elem_of_delete [_ H2]%elem_of_delete.
        by apply Hexcl.
      - intros k Hk. specialize (Hlim k Hk).
        pose proof (length_delete n (_nodesInProcess s)) as Hlen.
        simpl_state. lia.
      - intros m c0 [Hne Hm]%elem_of_delete Hcm. apply elem_of_delete.
        split; [|by eapply Hmark].
        intros ->. apply Hne. by eapply Hexcl.
      - by apply NoDup_delete. }
    wp_step. wp_step; [apply Hinv'|].
    eapply wp_mono.
    + apply (wp_for_of _ _ _ (λ _ s', Inv s'
        ∧ ∀ m, m ≠ n → m ∈ _nodesInProcess s → m ∈ _nodesInProcess s'));
        [done|].
      intros d _ s' [Hs' Hk']. eapply wp_mono.
      * by apply enqueue_structure.
      * cbv beta. intros _ s'' [Hs'' Heq]. split; [done|].
        intros m Hm Hin. rewrite Heq. by apply Hk'.
    + done.
  - wp_step; [apply Hinv|]. split; [exact Hinv|done].
Qed.

Lemma iteration_structure totalElapsedTime s :
  Inv s → wp X True J (iteration this totalElapsedTime) (λ _, Inv) s.
Proof.
  intros Hinv. unfold iteration. wp_step. wp_step. wp_step.
  eapply wp_mono.
  { apply (wp_for_of _ _ _ (λ _, Inv)); [done|].
    intros n _ s' Hs'. by apply start_structure. }
  intros [] s1 Hs1. cbv beta. wp_step.
  eapply wp_mono; [by apply updateNetworkCapacity_structure|].
  intros [] s2 Hs2. cbv beta. wp_step.
  unfold _findNextNodeCompletionTime. wp_step. wp_step.
  eapply wp_mono; [by apply findNext_structure|].
  intros minimumTime s3 [Hs3 _]. cbv beta. wp_step. wp_step. wp_step.
  eapply wp_mono.
  { apply (wp_for_of _ _ _ (λ rest s', Inv s' ∧ NoDup rest
                              ∧ ∀ n, n ∈ rest → n ∈ _nodesInProcess s')).
    - split; [done|]. split; [apply Hs3|done].
    - intros n rest s' (Hs' & Hnodup & Hsub).
      apply NoDup_cons in Hnodup as [Hn Hnodup].
      eapply wp_mono.
      + apply updateProgress_structure; [done|]. apply Hsub. by left.
      + cbv beta. intros [] s'' [Hs'' Hkeep]. split; [done|].
        split; [done|]. intros m Hm. apply Hkeep.
        * intros ->. done.
        * apply Hsub. by right. }
  intros [] s4 [Hs4 _]. cbv beta. by wp_step.
Qed.

Lemma main_loop_structure budget totalElapsedTime s :
  Inv s →
  wp X True J (main_loop this budget totalElapsedTime)
     (λ _ s', _nodesInQueue s' = []) s.
Proof.
  revert totalElapsedTime s.
  induction budget as [|budget IH]; intros totalElapsedTime s Hinv; simpl.
  - wp_step. wp_step. wp_step. wp_step.
    destruct (_ || _) eqn:Hcond.
    + wp_step. eapply wp_mono; [by apply iteration_structure|].
      intros t s' Hs'. cbv beta. by wp_step.
    + wp_step. apply orb_false_iff in Hcond as [Hq _].
      by destruct (_nodesInQueue s).
  - wp_step. wp_step. wp_step. wp_step.
    destruct (_ || _) eqn:Hcond.
    + wp_step. eapply wp_mono; [by apply iteration_structure|].
      intros t s' Hs'. cbv beta. by apply IH.
    + wp_step. apply orb_false_iff in Hcond as [Hq _].
      by destruct (_nodesInQueue s).
Qed.

Lemma initial_state_structure : Inv (initial_state this).
Proof.
  repeat split; unfold initial_state; simpl_state.
  - intros n Hn. by apply elem_of_nil in Hn.
  - intros n1 n2 c Hn. by apply elem_of_nil in Hn.
  - intros k _. simpl. lia.
  - intros n c Hn. by apply elem_of_nil in Hn.
  - constructor.
Qed.

Lemma run_structure :
  wp X True J (main_loop this (Z.to_nat 10000) 0%Z)
     (λ _ s', _nodesInQueue s' = []) (initial_state this).
Proof. apply main_loop_structure, initial_state_structure. Qed.

(** *** Nodes that are not NETWORK nodes stay in the queue *)
Section Queued.
Variable n : NodeId.
Hypothesis Hcpu : type (node (_graph this) n) ≠ NETWORK.

Local Abbreviation stays :=
  (λ a b : State, n ∈ _nodesInQueue a → n ∈ _nodesInQueue b).
Local Abbreviation any := (λ _ : Error, True).

Lemma enqueue_stays m s :
  wp any True stays (_enqueueNodeIfPossible this m) (λ _ _, True) s.
Proof.
  unfold _enqueueNodeIfPossible. wp_step. wp_step.
  destruct (_ && _); [|by wp_step].
  wp_step; [|done]. simpl_state. intros Hn. apply elem_of_add. by right.
Qed.

Lemma start_stays m t s :
  wp any True stays (_startNodeIfPossible this m t) (λ _ _, True) s.
Proof.
  unfold _startNodeIfPossible.
  destruct (data (node (_graph this) m)) as [record|] eqn:Hdata;
    [|by wp_step].
  do 3 (wp_step; wp_step).
  destruct (_ || _); [by wp_step|].
  wp_step. wp_step.
  destruct (_connections s !! connectionId record) as [c|]; [|done].
  wp_step. wp_step.
  { simpl_state. intros Hn. apply elem_of_delete. split; [|done].
    intros ->. apply Hcpu. unfold type. by rewrite Hdata. }
  repeat (wp_step; try done).
Qed.

Lemma onConnection_stays {A} id (m : TcpConnection.M A) s :
  wp any True stays (onConnection id m) (λ _ _, True) s.
Proof.
  wp_step. destruct (_connections s !! id) as [c|]; [|done].
  by destruct (m c) as [[a c']|].
Qed.

Lemma for_of_stays {A} (xs : list A) (body : A → E unit) s :
  (∀ x s', wp any True stays (body x) (λ _ _, True) s') →
  wp any True stays (for_of xs body) (λ _ _, True) s.
Proof.
  intros Hbody.
  apply (wp_for_of _ _ _ (λ _ _, True)); [done|]. intros x _ s' _.
  apply Hbody.
Qed.

Lemma estimateTimeRemaining_stays m s :
  wp any True stays (_estimateTimeRemaining this m) (λ _ _, True) s.
Proof.
  unfold _estimateTimeRemaining.
  destruct (data (node (_graph this) m)) as [record|]; [|by wp_step].
  wp_step. wp_step. wp_step. wp_step.
  destruct (_nodeAuxiliaryData s !! m) as [aux|]; [|done].
  wp_step. eapply wp_mono; [apply onConnection_stays|].
  intros r s' _. cbv beta. by repeat (wp_step; try done).
Qed.

Lemma findNext_stays nodes minimumTime s :
  wp any True stays (findNext this nodes minimumTime) (λ _ _, True) s.
Proof.
  revert minimumTime s.
  induction nodes as [|m nodes IH]; intros minimumTime s; simpl.
  - by wp_step.
  - wp_step. eapply wp_mono; [apply estimateTimeRemaining_stays|].
    intros e s' _. apply IH.
Qed.

Lemma updateProgress_stays m timePeriodLength totalElapsedTime s :
  wp any True stays
     (_updateProgressMadeInTimePeriod this m timePeriodLength
        totalElapsedTime) (λ _ _, True) s.
Proof.
  unfold _updateProgressMadeInTimePeriod.
  destruct (data (node (_graph this) m)) as [record|]; [|by wp_step].
  wp_step. wp_step. wp_step. wp_step.
  destruct (_nodeAuxiliaryData s !! m) as [aux|]; [|done].
  wp_step. eapply wp_mono; [apply onConnection_stays|].
  intros r s1 _. cbv beta.
  wp_step. eapply wp_mono; [apply onConnection_stays|].
  intros [] s2 _. cbv beta.
  destruct (strictly_equal _ _).
  - wp_step. wp_step; [done|].
    wp_step. eapply wp_mono; [apply onConnection_stays|].
    intros [] s3 _. cbv beta.
    do 3 (wp_step; wp_step; [done|]).
    apply for_of_stays. intros. apply enqueue_stays.
  - by wp_step.
Qed.

Lemma iteration_stays totalElapsedTime s :
  wp any True stays (iteration this totalElapsedTime) (λ _ _, True) s.
Proof.
  unfold iteration. wp_step. wp_step. wp_step.
  eapply wp_mono; [apply for_of_stays; intros; apply start_stays|].
  intros [] s1 _. cbv beta. wp_step.
  eapply wp_mono.
  { unfold _updateNetworkCapacity. wp_step. wp_step.
    apply for_of_stays. intros. wp_step. wp_step.
    apply onConnection_stays. }
  intros [] s2 _. cbv beta. wp_step.
  unfold _findNextNodeCompletionTime. wp_step. wp_step.
  eapply wp_mono; [apply findNext_stays|].
  intros minimumTime s3 _. cbv beta. wp_step. wp_step. wp_step.
  eapply wp_mono; [apply for_of_stays; intros; apply updateProgress_stays|].
  intros [] s4 _. cbv beta. by wp_step.
Qed.

Lemma main_loop_stays budget totalElapsedTime s :
  wp any True stays (main_loop this budget totalElapsedTime)
     (λ _ _, True) s.
Proof.
  revert totalElapsedTime s.
  induction budget as [|budget IH]; intros totalElapsedTime s; simpl.
  - wp_step. wp_step. wp_step. wp_step.
    destruct (_ || _); [|by wp_step].
    wp_step. eapply wp_mono; [by apply iteration_stays|].
    intros t s' _. cbv beta. by wp_step.
  - wp_step. wp_step. wp_step. wp_step.
    destruct (_ || _); [|by wp_step].
    wp_step. eapply wp_mono; [by apply iteration_stays|].
    intros t s' _. cbv beta. by apply IH.
Qed.
End Queued.

(** Along a chain of steps that each preserve a property, the property
    holds from the first containers that have it. *)
Lemma chain_from (P : State → Prop) s h i j a b :
  chain (λ a b, P a → P b) s h → (i <= j)%nat →
  (s :: h) !! i = Some a → (s :: h) !! j = Some b → P a → P b.
Proof.
  revert s i j a. induction h as [|x h IH]; intros s i j a Hc Hij Hi Hj Ha.
  - destruct i as [|i]; [|done]. destruct j as [|j]; [|done].
    simpl in *. congruence.
  - destruct Hc as [Hstep Hc]. destruct i as [|i].
    + injection Hi as <-. destruct j as [|j]; [simpl in Hj; congruence|].
      apply (IH x 0%nat j x Hc); [lia|done|done|by apply Hstep].
    + destruct j as [|j]; [lia|].
      apply (IH x i j a Hc); [lia|done|done|done].
Qed.
End Methods.
End EstimatorStructure.

(* ===================================================================== *)
(** ** The concurrency limit *)
(* ===================================================================== *)

Module EstimatorLimit.
Import Estimator EstimatorFacts EstimatorProofs EstimatorStructure.
Import TcpConnectionFacts.


Lemma min_of_nat a b :
  Num.min (Num.of_nat a) (Num.of_nat b) = Num.of_nat (Nat.min a b).
Proof.
  unfold Num.of_nat, Num.of_Z, Num.min, Num.leb.
  destruct (Qle_bool _ _) eqn:Hle.
  - apply Qle_bool_iff in Hle. rewrite <- Zle_Qle in Hle.
    by rewrite Nat.min_l by lia.
  - assert (¬ (Z.of_nat a <= Z.of_nat b)%Z) as Hgt.
    { intros H. rewrite Zle_Qle in H. apply Qle_bool_iff in H. congruence. }
    by rewrite Nat.min_r by lia.
Qed.

Lemma history_structure this s :
  s ∈ history this → structure_always this s.
Proof.
  destruct (run_structure this) as [Hchain _].
  apply chain_Forall in Hchain. rewrite Forall_forall in Hchain.
  unfold history. intros [->|Hs]%elem_of_cons.
  - apply initial_state_structure.
  - by apply Hchain.
Qed.
End EstimatorLimit.

(* ===================================================================== *)
(** ** The numbers the scheduler keeps *)
(* ===================================================================== *)

Module EstimatorNumeric.
Import Estimator EstimatorFacts EstimatorProofs EstimatorStructure.
Import TcpConnectionFacts TcpConnectionProofs.

Section Methods.
Variable this : Estimator.t.
Hypothesis Hfin : finite_inputs this.

Local Abbreviation closed := (traverse_closed (_graph this)).
Local Abbreviation X := (λ e : Error, closed → e = MaximumDepthExceeded).
Local Abbreviation N := (closed → False).
Local Abbreviation J := (λ _ s' : State, aux_always s').

Lemma aux_always_insert n aux (s : State) :
  aux_always s → aux_ok aux →
  aux_always (set_nodeAuxiliaryData <[n := aux]> s).
Proof.
  intros Hs Haux m aux'. simpl_state.
  intros [[_ <-]|[_ Hm]]%lookup_insert_Some; [done|]. by eapply Hs.
Qed.

Lemma connections_finite_insert id c (s : State) :
  connections_finite s → finite c →
  connections_finite (set_connections <[id := c]> s).
Proof.
  intros Hs Hc id' c'. simpl_state.
  intros [[_ <-]|[_ Hm]]%lookup_insert_Some; [done|]. by eapply Hs.
Qed.

Lemma enqueue_numeric n s :
  numeric_inv this s → total_inv this s →
  (closed → n ∈ traverse (_graph this)) →
  wp X N J (_enqueueNodeIfPossible this n)
     (λ _ s', numeric_inv this s' ∧ total_inv this s'
              ∧ _nodeAuxiliaryData s' = _nodeAuxiliaryData s
              ∧ _connections s' = _connections s) s.
Proof.
  intros Hnum Htot Hn. unfold _enqueueNodeIfPossible.
  wp_step. wp_step.
  destruct (_ && _); [|by wp_step].
  wp_step; [apply Hnum|]. split; [exact Hnum|]. split; [|done].
  intros Hclosed. destruct (Htot Hclosed) as (Hk1 & Hk2 & Hk3).
  repeat split; simpl_state; [|done..].
  intros m [[->|Hm]%elem_of_add|Hm]; auto.
Qed.

Lemma start_numeric n t s :
  full_inv this s → (closed → n ∈ traverse (_graph this)) →
  wp X N J (_startNodeIfPossible this n t)
     (λ _ s', numeric_inv this s' ∧ total_inv this s') s.
Proof.
  intros (Hstr & Hnum & Htot) Hn. unfold _startNodeIfPossible.
  destruct (data (node (_graph this) n)) as [record|] eqn:Hdata;
    [|by wp_step].
  assert (connectionOf this n = Some (connectionId record)) as Hconn.
  { unfold connectionOf. by rewrite Hdata. }
  do 3 (wp_step; wp_step).
  destruct (_ || _) eqn:Hcond; [by wp_step|].
  wp_step. wp_step.
  destruct (_connections s !! connectionId record) as [c|] eqn:Hc.
  2:{ intros Hclosed. destruct (Htot Hclosed) as (_ & Hk & _).
      destruct (Hk n _ (Hn Hclosed) Hconn) as [c Hc']. congruence. }
  set (aux := {| startTime := t; timeElapsed := 0%Z;
                 timeElapsedOvershoot := 0%Z; bytesDownloaded := 0%Z;
                 estimatedTimeElapsed := None; endTime := None |}).
  assert (aux_ok aux) as Haux by done.
  destruct Hnum as (Ha & Hcf & Hiu).
  wp_step. wp_step; [exact Ha|].
  wp_step. wp_step; [exact Ha|].
  wp_step. wp_step; [by apply aux_always_insert|].
  wp_step; [by apply aux_always_insert|].
  split; [split; [|split]|].
  - by apply aux_always_insert.
  - exact Hcf.
  - intros c' [->|Hc']%elem_of_add; simpl_state.
    + exists n. split; [|done]. apply elem_of_add. by left.
    + destruct (Hiu c' Hc') as (m & Hm & Hcm). exists m.
      split; [|done]. apply elem_of_add. by right.
  - intros Hclosed. destruct (Htot Hclosed) as (Hk1 & Hk2 & Hk3).
    repeat split; simpl_state.
    + intros m [[_ Hm]%elem_of_delete|[->|Hm]%elem_of_add]; auto.
    + exact Hk2.
    + intros m [->|Hm]%elem_of_add.
      * rewrite lookup_insert_eq. eauto.
      * apply lookup_insert_is_Some. destruct (decide (n = m)); auto.
Qed.

(** A method call on a connection that exists and stays finite. *)
Lemma onConnection_numeric {A} id (m : TcpConnection.M A)
    (R : A → TcpConnection.t → TcpConnection.t → Prop) s :
  numeric_inv this s → total_inv this s →
  (closed → is_Some (_connections s !! id)) →
  (∀ c, _connections s !! id = Some c →
        ∃ a c', m c = Some (a, c') ∧ finite c' ∧ R a c c') →
  wp X N J (onConnection id m)
     (λ a s', numeric_inv this s' ∧ total_inv this s'
              ∧ ∃ c c', _connections s !! id = Some c ∧ R a c c'
                        ∧ s' = set_connections <[id := c']> s) s.
Proof.
  intros Hnum Htot Hex Hm. wp_step.
  destruct (_connections s !! id) as [c|] eqn:Hc.
  2:{ intros Hclosed. by destruct (Hex Hclosed). }
  destruct (Hm c Logic.eq_refl) as (a & c' & -> & Hc' & HR).
  destruct Hnum as (Ha & Hcf & Hiu).
  split; [exact Ha|]. split; [split; [|split]|split].
  - exact Ha.
  - by apply connections_finite_insert.
  - exact Hiu.
  - intros Hclosed. destruct (Htot Hclosed) as (Hk1 & Hk2 & Hk3).
    repeat split; simpl_state; [done| |done].
    intros n c0 Hn Hc0. apply lookup_insert_is_Some.
    destruct (decide (id = c0)); [auto|]. right. split; [done|]. eauto.
  - eauto.
Qed.

Lemma size_nonempty (l : list NodeId) n q :
  n ∈ l → JSSet.size l = Fin q → ¬ q == 0.
Proof.
  intros Hn [= <-] Hq. destruct l as [|x l]; [by apply elem_of_nil in Hn|].
  apply (proj1 (inject_Z_injective _ 0%Z)) in Hq.
  rewrite length_cons in Hq. lia.
Qed.

Lemma updateNetworkCapacity_numeric s :
  full_inv this s →
  wp X N J (_updateNetworkCapacity this)
     (λ _ s', numeric_inv this s' ∧ total_inv this s') s.
Proof.
  intros (Hstr & Hnum & Htot). unfold _updateNetworkCapacity.
  wp_step. wp_step.
  eapply wp_mono.
  { apply (wp_for_of _ _ _ (λ rest s',
             numeric_inv this s' ∧ total_inv this s'
             ∧ _nodesInProcess s' = _nodesInProcess s
             ∧ ∀ c, c ∈ rest → c ∈ _connectionsInUse s')); [by auto|].
    intros c rest s' (Hnum' & Htot' & Hproc & Hrest).
    wp_step. wp_step.
    destruct (proj2 (proj2 Hnum') c) as (n & Hn & Hcn);
      [apply Hrest; by left|].
    eapply wp_mono.
    - apply (onConnection_numeric _ _ (λ _ _ _, True)); [done|done| |].
      + intros Hclosed. destruct (Htot' Hclosed) as (Hk1 & Hk2 & _).
        eapply Hk2; [|done]. apply Hk1. by right.
      + intros c0 Hc0. eexists _, _. split; [reflexivity|]. split; [|done].
        destruct (proj1 (proj2 Hnum') _ _ Hc0) as (? & ? & ? & ?).
        repeat split; simpl; try done.
        destruct Hfin as (_ & Hthr & _).
        eapply NumFacts.isFinite_div; [done|reflexivity|].
        by eapply size_nonempty.
    - cbv beta. intros [] s'' (Hnum'' & Htot'' & c0 & c' & _ & _ & Heq).
      subst s''. split; [done|]. split; [done|]. split; [done|].
      simpl_state. intros c1 Hc1. apply Hrest. by right. }
  cbv beta. intros [] s' (? & ? & _). done.
Qed.

Lemma fresh_frame timePeriodLength s s' n :
  _nodeAuxiliaryData s' !! n = _nodeAuxiliaryData s !! n →
  (∀ c, connectionOf this n = Some c →
        _connections s' !! c = _connections s !! c) →
  fresh this timePeriodLength s n → fresh this timePeriodLength s' n.
Proof.
  intros Haux Hconn (record & aux & c & r & Hd & Ha & Hc & Hcalc & He & Hle).
  exists record, aux, c, r. repeat split; try done; [congruence|].
  rewrite Hconn; [done|]. unfold connectionOf. by rewrite Hd.
Qed.

Lemma fresh_le t t' s n :
  Num.leb t' t = true → fresh this t s n → fresh this t' s n.
Proof.
  intros Hle (record & aux & c & r & Hd & Ha & Hc & Hcalc & He & Hle').
  exists record, aux, c, r. repeat split; try done.
  by eapply NumFacts.leb_trans.
Qed.

Lemma leb_refl_finite a : Num.isFinite a = true → Num.leb a a = true.
Proof. destruct a; try done. intros _. apply Qle_bool_iff. lra. Qed.

Lemma estimateTimeRemaining_numeric n s :
  full_inv this s → n ∈ _nodesInProcess s →
  wp X N J (_estimateTimeRemaining this n)
     (λ e s', numeric_inv this s' ∧ total_inv this s'
              ∧ Num.isFinite e = true ∧ fresh this e s' n
              ∧ _connections s' = _connections s
              ∧ ∀ m, m ≠ n →
                     _nodeAuxiliaryData s' !! m = _nodeAuxiliaryData s !! m) s.
Proof.
  intros (Hstr & Hnum & Htot) Hn. unfold _estimateTimeRemaining.
  assert (type (node (_graph this) n) = NETWORK) as Htype by by apply Hstr.
  unfold type in Htype.
  destruct (data (node (_graph this) n)) as [record|] eqn:Hdata; [|done].
  assert (connectionOf this n = Some (connectionId record)) as Hconn.
  { unfold connectionOf. by rewrite Hdata. }
  wp_step. wp_step. wp_step. wp_step.
  destruct (_nodeAuxiliaryData s !! n) as [aux|] eqn:Haux.
  2:{ intros Hclosed. destruct (Htot Hclosed) as (_ & _ & Hk3).
      destruct (Hk3 n Hn). congruence. }
  destruct (proj1 Hnum _ _ Haux) as (Hte & Hbd & Ho & Ho0).
  wp_step. eapply wp_mono.
  { apply (onConnection_numeric _ _ (λ r c c', c' = c
             ∧ TcpConnection.calculateTimeToDownload
                 (transferSize record - bytesDownloaded aux)%num
                 (timeElapsed aux) PInf c = Some (r, c)
             ∧ Num.isFinite (TcpConnection.timeElapsed r) = true));
      [done|done| |].
    - intros Hclosed. destruct (Htot Hclosed) as (Hk1 & Hk2 & _).
      eapply Hk2; [|done]. apply Hk1. by right.
    - intros c Hc. pose proof (proj1 (proj2 Hnum) _ _ Hc) as Hcfin.
      destruct (calculateTimeToDownload_finite c
                  (transferSize record - bytesDownloaded aux)%num
                  (timeElapsed aux) PInf Hcfin) as (r & Hr & Hrte & _);
        [|done|].
      { apply NumFacts.isFinite_sub; [|done].
        destruct Hfin as (_ & _ & _ & Hsize). by eapply Hsize. }
      exists r, c. auto. }
  cbv beta.
  intros r s1 (Hnum1 & Htot1 & c & c' & Hc & (-> & Hcalc & Hrte) & ->).
  assert (<[connectionId record := c]> (_connections s) = _connections s)
    as Hsame by by apply insert_id.
  wp_step. wp_step.
  { apply aux_always_insert; [apply Hnum1|]. done. }
  wp_step.
  assert (Num.isFinite (TcpConnection.timeElapsed r
                        + timeElapsedOvershoot aux)%num = true) as Hefin
    by by apply NumFacts.isFinite_add.
  split; [|split; [|split; [done|split; [|split]]]]; simpl_state.
  - destruct Hnum1 as (Ha1 & Hcf1 & Hiu1). split; [|split]; [|done..].
    by apply aux_always_insert.
  - intros Hclosed. destruct (Htot1 Hclosed) as (Hk1 & Hk2 & Hk3).
    repeat split; simpl_state; [done..|].
    intros m Hm. apply lookup_insert_is_Some.
    destruct (decide (n = m)); [auto|]. right. split; [done|]. by apply Hk3.
  - eexists record, _, c, r. simpl_state.
    rewrite lookup_insert_eq, Hsame.
    split; [done|]. split; [reflexivity|]. split; [done|].
    split; [exact Hcalc|]. split; [reflexivity|].
    by apply leb_refl_finite.
  - done.
  - intros m Hm. by rewrite lookup_insert_ne.
Qed.

Lemma estimateTimeRemaining_full n s :
  full_inv this s → n ∈ _nodesInProcess s →
  wp X N J (_estimateTimeRemaining this n)
     (λ e s', full_inv this s'
              ∧ _nodesInProcess s' = _nodesInProcess s
              ∧ Num.isFinite e = true ∧ fresh this e s' n
              ∧ _connections s' = _connections s
              ∧ ∀ m, m ≠ n →
                     _nodeAuxiliaryData s' !! m = _nodeAuxiliaryData s !! m) s.
Proof.
  intros Hinv Hn. eapply wp_mono.
  - eapply wp_post_and.
    + apply estimateTimeRemaining_structure; [apply Hinv|done].
    + by apply estimateTimeRemaining_numeric.
  - cbv beta. intros e s' ((Hstr & Hproc) & Hnum & Htot & Hrest).
    split; [by split|]. split; [done|]. exact Hrest.
Qed.

Lemma min_finite acc e :
  acc = PInf ∨ Num.isFinite acc = true → Num.isFinite e = true →
  Num.isFinite (Num.min acc e) = true
  ∧ Num.leb (Num.min acc e) acc = true
  ∧ Num.leb (Num.min acc e) e = true.
Proof.
  intros Hacc He.
  assert (acc ≠ NaN) as Ha by (destruct Hacc as [->|Hacc]; [done|by destruct acc]).
  assert (e ≠ NaN) as He' by by destruct e.
  split; [|split].
  - destruct Hacc as [->|Hacc]; [by destruct e|].
    by apply NumFacts.isFinite_min.
  - by apply NumFacts.min_le_l.
  - by apply NumFacts.min_le_r.
Qed.

Lemma findNext_full nodes acc s :
  full_inv this s → (∀ n, n ∈ nodes → n ∈ _nodesInProcess s) →
  NoDup nodes → acc = PInf ∨ Num.isFinite acc = true →
  wp X N J (findNext this nodes acc)
     (λ res s', full_inv this s'
                ∧ _nodesInProcess s' = _nodesInProcess s
                ∧ _connections s' = _connections s
                ∧ (∀ m, m ∉ nodes →
                        _nodeAuxiliaryData s' !! m = _nodeAuxiliaryData s !! m)
                ∧ (∀ n, n ∈ nodes → fresh this res s' n)
                ∧ Num.leb res acc = true
                ∧ (Num.isFinite acc = true ∨ nodes ≠ [] →
                   Num.isFinite res = true)) s.
Proof.
  revert acc s.
  induction nodes as [|n nodes IH]; intros acc s Hinv Hsub Hnodup Hacc; simpl.
  - wp_step. do 4 (split; [done|]). split; [|split].
    + intros n Hn. by apply elem_of_nil in Hn.
    + destruct Hacc as [->|Hacc]; [done|]. by apply leb_refl_finite.
    + by intros [?|?].
  - apply NoDup_cons in Hnodup as [Hn Hnodup].
    wp_step. eapply wp_mono.
    { apply estimateTimeRemaining_full; [done|]. apply Hsub. by left. }
    cbv beta. intros e s1 (Hinv1 & Hproc1 & He & Hfresh1 & Hconn1 & Haux1).
    destruct (min_finite acc e Hacc He) as (Hmin & Hle1 & Hle2).
    eapply wp_mono.
    { apply IH; [done| |done|by right].
      intros m Hm. rewrite Hproc1. apply Hsub. by right. }
    cbv beta.
    intros res s2 (Hinv2 & Hproc2 & Hconn2 & Haux2 & Hfresh2 & Hle & Hres).
    split; [done|]. split; [congruence|]. split; [congruence|].
    split; [|split; [|split]].
    + intros m Hm. rewrite Haux2, Haux1; [done| |];
        intros ?; apply Hm; subst; [by left|by right].
    + intros m [->|Hm]%elem_of_cons; [|by apply Hfresh2].
      apply (fresh_le e); [by eapply NumFacts.leb_trans|].
      eapply fresh_frame; [| |exact Hfresh1].
      * by apply Haux2.
      * intros c _. by rewrite Hconn2.
    + by eapply NumFacts.leb_trans.
    + intros _. apply Hres. by left.
Qed.

(** The overshoot after a step in which the node does not finish. *)
Lemma overshoot_nonneg c b tae rf rp (o period : num) :
  finite c → Num.isFinite b = true → Num.isFinite tae = true →
  Num.isFinite o = true → Num.isFinite period = true →
  TcpConnection.calculateTimeToDownload b tae PInf c = Some (rf, c) →
  TcpConnection.calculateTimeToDownload b tae (period - o)%num c
  = Some (rp, c) →
  Num.isFinite (TcpConnection.timeElapsed rf) = true →
  Num.isFinite (TcpConnection.timeElapsed rp) = true →
  Num.eqb (TcpConnection.timeElapsed rf + o)%num period = false →
  Num.leb period (TcpConnection.timeElapsed rf + o)%num = true →
  (0%Z <= o + (TcpConnection.timeElapsed rp - period))%num.
Proof.
  intros Hc Hb Htae Ho Hperiod Hf Hp Hff Hpf Hne Hle.
  destruct o as [o'| | |]; try done.
  destruct period as [t'| | |]; try done.
  pose proof (calculateTimeToDownload_deadline c b tae _ rf rp Hc Hb Htae
                Hf Hp) as Hcases.
  destruct (TcpConnection.timeElapsed rf) as [f| | |] eqn:Ef; try done.
  destruct (TcpConnection.timeElapsed rp) as [p| | |] eqn:Ep; try done.
  simpl in Hne, Hle. apply Qle_bool_iff in Hle.
  assert (¬ Qred (f + o') == t') as Hne'.
  { intros H. apply Qeq_bool_iff in H. congruence. }
  rewrite Qred_correct in Hle, Hne'.
  unfold Num.le. simpl. apply Qle_bool_iff. rewrite !Qred_correct.
  change (inject_Z 0) with 0.
  destruct Hcases as [->|Hlt].
  - rewrite Ef in Ep. injection Ep as <-.
    destruct (Qlt_le_dec t' (f + o')) as [Hlt|Hge]; [lra|].
    exfalso. apply Hne'. lra.
  - unfold Num.lt in Hlt. simpl in Hlt. apply NumFacts.Qltb_lt in Hlt.
    rewrite Qred_correct in Hlt. lra.
Qed.

Lemma updateProgress_numeric n timePeriodLength totalElapsedTime s :
  full_inv this s → n ∈ _nodesInProcess s →
  Num.isFinite timePeriodLength = true →
  fresh this timePeriodLength s n →
  wp X N J
     (_updateProgressMadeInTimePeriod this n timePeriodLength totalElapsedTime)
     (λ _ s', numeric_inv this s' ∧ total_inv this s'
              ∧ ∀ m, m ≠ n → m ∈ _nodesInProcess s →
                     fresh this timePeriodLength s m →
                     fresh this timePeriodLength s' m) s.
Proof.
  intros (Hstr & Hnum & Htot) Hn Hperiod
    (record & aux & c & rf & Hdata & Haux & Hc & Hcalc & Hest & Hle).
  assert (connectionOf this n = Some (connectionId record)) as Hconn.
  { unfold connectionOf. by rewrite Hdata. }
  destruct Hnum as (Ha & Hcf & Hiu).
  pose proof (Ha _ _ Haux) as (Hte & Hbd & Ho & Ho0).
  pose proof (Hcf _ _ Hc) as Hcfin.
  assert (Num.isFinite (transferSize record - bytesDownloaded aux)%num = true)
    as Hbytes.
  { apply NumFacts.isFinite_sub; [|done].
    destruct Hfin as (_ & _ & _ & Hsize). by eapply Hsize. }
  destruct (calculateTimeToDownload_finite c _ _
              (timePeriodLength - timeElapsedOvershoot aux)%num
              Hcfin Hbytes Hte) as (rp & Hp & Hpte & Hpbd & Hpcw).
  destruct (calculateTimeToDownload_finite c _ _ PInf Hcfin Hbytes Hte)
    as (rf' & Hf' & Hfte & _).
  rewrite Hcalc in Hf'. injection Hf' as <-.
  (* frames for the other nodes in flight *)
  assert (∀ s' : State,
            (∀ m, m ≠ n →
                  _nodeAuxiliaryData s' !! m = _nodeAuxiliaryData s !! m) →
            (∀ id, id ≠ connectionId record →
                   _connections s' !! id = _connections s !! id) →
            ∀ m, m ≠ n → m ∈ _nodesInProcess s →
                 fresh this timePeriodLength s m →
                 fresh this timePeriodLength s' m) as Hframe.
  { intros s' Haux' Hconn' m Hm Hin Hfresh.
    eapply fresh_frame; [by apply Haux'| |done].
    intros cm Hcm. apply Hconn'. intros ->. apply Hm.
    destruct Hstr as ((_ & Hexcl & _) & _). by eapply Hexcl. }
  unfold _updateProgressMadeInTimePeriod. rewrite Hdata.
  wp_step. wp_step. wp_step. wp_step. rewrite Haux.
  wp_step. wp_step. rewrite Hc, Hp. split; [exact Ha|].
  wp_step. wp_step. simpl_state. rewrite lookup_insert_eq. cbn.
  split; [exact Ha|].
  set (c2 := {| TcpConnection._warmed := TcpConnection._warmed c;
                TcpConnection._ssl := TcpConnection._ssl c;
                TcpConnection._rtt := TcpConnection._rtt c;
                TcpConnection._availableThroughput :=
                  TcpConnection._availableThroughput c;
                TcpConnection._responseTime := TcpConnection._responseTime c;
                TcpConnection._congestionWindow :=
                  TcpConnection.congestionWindow rp |}).
  assert (finite c2) as Hc2 by (destruct Hcfin as (? & ? & ? & ?); by repeat split).
  rewrite Hest. cbn [strictly_equal].
  destruct (Num.eqb _ timePeriodLength) eqn:Heq.
  - (* the node finishes *)
    set (aux' := {| startTime := startTime aux; timeElapsed := timeElapsed aux;
                    timeElapsedOvershoot := timeElapsedOvershoot aux;
                    bytesDownloaded := bytesDownloaded aux;
                    estimatedTimeElapsed :=
                      Some (TcpConnection.timeElapsed rf
                            + timeElapsedOvershoot aux)%num;
                    endTime := Some totalElapsedTime |}).
    assert (aux_ok aux') as Haux' by done.
    wp_step. wp_step; [by apply aux_always_insert|].
    wp_step. wp_step. simpl_state. rewrite lookup_insert_eq. cbn.
    split; [by apply aux_always_insert|].
    set (c3 := {| TcpConnection._warmed := true;
                  TcpConnection._ssl := TcpConnection._ssl c2;
                  TcpConnection._rtt := TcpConnection._rtt c2;
                  TcpConnection._availableThroughput :=
                    TcpConnection._availableThroughput c2;
                  TcpConnection._responseTime := TcpConnection._responseTime c2;
                  TcpConnection._congestionWindow :=
                    TcpConnection._congestionWindow c2 |}).
    assert (finite c3) as Hc3 by done.
    do 3 (wp_step; wp_step; [by apply aux_always_insert|]).
    match goal with |- wp _ _ _ _ _ ?s6 => set (s6' := s6) end.
    assert (numeric_inv this s6') as Hnum6.
    { split; [|split].
      - by apply aux_always_insert.
      - unfold s6'. intros id c'. simpl_state.
        rewrite !lookup_insert_Some. intros [[_ <-]|[_ [[_ <-]|[_ [[_ <-]|[_ H]]]]]];
          try done. by eapply Hcf.
      - unfold s6'. intros c' [Hne Hc']%elem_of_delete. simpl_state.
        destruct (Hiu c' Hc') as (m & Hm & Hcm). exists m. split; [|done].
        apply elem_of_delete. split; [|done]. intros ->. congruence. }
    assert (total_inv this s6') as Htot6.
    { intros Hclosed. destruct (Htot Hclosed) as (Hk1 & Hk2 & Hk3).
      unfold s6'. repeat split; simpl_state.
      - intros m [Hm|[_ Hm]%elem_of_delete]; auto.
      - intros m cm Hm Hcm. rewrite !lookup_insert_is_Some.
        destruct (decide (connectionId record = cm)); [auto|].
        right. split; [done|]. right. split; [done|]. right.
        split; [done|]. eauto.
      - intros m [_ Hm]%elem_of_delete. apply lookup_insert_is_Some.
        destruct (decide (n = m)); [auto|]. right. split; [done|]. auto. }
    eapply wp_mono.
    { apply (wp_for_of _ _ _ (λ rest s',
               numeric_inv this s' ∧ total_inv this s'
               ∧ _nodeAuxiliaryData s' = _nodeAuxiliaryData s6'
               ∧ _connections s' = _connections s6'
               ∧ ∀ d, d ∈ rest → closed → d ∈ traverse (_graph this))).
      - do 4 (split; [done|]). intros d Hd Hclosed.
        destruct (Htot Hclosed) as (Hk1 & _). destruct Hclosed as [_ Hcl].
        eapply Hcl; [|done]. apply Hk1. by right.
      - intros d rest s' (Hnum' & Htot' & Haux'' & Hconn'' & Hrest).
        eapply wp_mono.
        + apply enqueue_numeric; [done|done|]. apply Hrest. by left.
        + cbv beta. intros [] s'' (? & ? & Ha'' & Hc'').
          do 2 (split; [done|]). split; [congruence|]. split; [congruence|].
          intros d' Hd'. apply Hrest. by right. }
    cbv beta. intros [] s' (Hnum' & Htot' & Haux'' & Hconn'' & _).
    do 2 (split; [done|]). apply Hframe.
    + intros m Hm. rewrite Haux''. unfold s6'. simpl_state.
      by rewrite lookup_insert_ne.
    + intros id Hid. rewrite Hconn''. unfold s6'. simpl_state.
      by rewrite !lookup_insert_ne.
  - (* the node goes on *)
    set (aux' := {| startTime := startTime aux;
                    timeElapsed :=
                      (timeElapsed aux + TcpConnection.timeElapsed rp)%num;
                    timeElapsedOvershoot :=
                      (timeElapsedOvershoot aux
                       + (TcpConnection.timeElapsed rp - timePeriodLength))%num;
                    bytesDownloaded :=
                      (bytesDownloaded aux
                       + TcpConnection.bytesDownloaded rp)%num;
                    estimatedTimeElapsed :=
                      Some (TcpConnection.timeElapsed rf
                            + timeElapsedOvershoot aux)%num;
                    endTime := endTime aux |}).
    assert (aux_ok aux') as Haux'.
    { unfold aux'.
      split; [|split; [|split]];
        cbn [timeElapsed bytesDownloaded timeElapsedOvershoot].
      - by apply NumFacts.isFinite_add.
      - by apply NumFacts.isFinite_add.
      - apply NumFacts.isFinite_add; [done|].
        by apply NumFacts.isFinite_sub.
      - by apply (overshoot_nonneg c _ _ rf rp _ _ Hcfin Hbytes Hte Ho Hperiod
                    Hcalc Hp). }
    wp_step; [by apply aux_always_insert|].
    split; [split; [|split]|split].
    + by apply aux_always_insert.
    + intros id c'. simpl_state.
      rewrite !lookup_insert_Some. intros [[_ <-]|[_ [[_ <-]|[_ H]]]];
        try done. by eapply Hcf.
    + exact Hiu.
    + intros Hclosed. destruct (Htot Hclosed) as (Hk1 & Hk2 & Hk3).
      repeat split; simpl_state.
      * exact Hk1.
      * intros m cm Hm Hcm. rewrite !lookup_insert_is_Some.
        destruct (decide (connectionId record = cm)); [auto|].
        right. split; [done|]. right. split; [done|]. eauto.
      * intros m Hm. apply lookup_insert_is_Some.
        destruct (decide (n = m)); [auto|]. right. split; [done|]. auto.
    + apply Hframe.
      * intros m Hm. simpl_state. by rewrite lookup_insert_ne.
      * intros id Hid. simpl_state. by rewrite !lookup_insert_ne.
Qed.
End Methods.
End EstimatorNumeric.

(* ===================================================================== *)
(** ** Initialization *)
(* ===================================================================== *)

Module EstimatorInit.
Import Estimator EstimatorFacts EstimatorProofs EstimatorStructure.
Import TcpConnectionFacts.

Section GroupByFacts.
Context {A : Type} (keyFunc : A → nat).

Lemma map_get_set_eq key (group : list A) grouped :
  map_get key (map_set key group grouped) = Some group.
Proof.
  induction grouped as [|[k g] grouped IH]; simpl.
  - by rewrite Nat.eqb_refl.
  - destruct (Nat.eqb k key) eqn:E; simpl; by rewrite E.
Qed.

Lemma map_get_set_ne key key' (group : list A) grouped :
  key ≠ key' →
  map_get key' (map_set key group grouped) = map_get key' grouped.
Proof.
  intros Hne. induction grouped as [|[k g] grouped IH]; simpl.
  - by apply Nat.eqb_neq in Hne as ->.
  - destruct (Nat.eqb k key) eqn:E; simpl.
    + apply Nat.eqb_eq in E as ->. by apply Nat.eqb_neq in Hne as ->.
    + by rewrite IH.
Qed.

Lemma map_get_elem key (group : list A) grouped :
  map_get key grouped = Some group → (key, group) ∈ grouped.
Proof.
  induction grouped as [|[k g] grouped IH]; simpl; [done|].
  destruct (Nat.eqb k key) eqn:E.
  - apply Nat.eqb_eq in E as ->. intros [= ->]. by left.
  - intros H. right. by apply IH.
Qed.

(** Every item is in the group of its key. *)
Lemma groupBy_fold_key items : ∀ grouped k,
  is_Some (map_get k grouped) ∨ (∃ x, x ∈ items ∧ keyFunc x = k) →
  is_Some (map_get k
    (fold_left
       (fun grouped item =>
          let key := keyFunc item in
          let group := default [] (map_get key grouped) in
          map_set key (group ++ [item]) grouped)
       items grouped)).
Proof.
  induction items as [|item items IH]; intros grouped k; simpl.
  - intros [H|(x & Hx & _)]; [done|]. by apply elem_of_nil in Hx.
  - intros H. apply IH.
    destruct (decide (keyFunc item = k)) as [<-|Hne].
    + left. rewrite map_get_set_eq. eauto.
    + rewrite map_get_set_ne by done.
      destruct H as [H|(x & [->|Hx]%elem_of_cons & Hk)];
        [by left|congruence|right; eauto].
Qed.

Lemma groupBy_key items x :
  x ∈ items → is_Some (map_get (keyFunc x) (groupBy keyFunc items)).
Proof. intros Hx. apply groupBy_fold_key. eauto. Qed.
End GroupByFacts.

Section Connections.
Variable this : Estimator.t.

Lemma connections_fold grouped : ∀ (init : gmap ConnectionId TcpConnection.t),
  let result :=
    fold_left (fun connections '(connectionId, records) =>
                 <[connectionId := connectionFor this records]> connections)
              grouped init in
  (∀ id, is_Some (init !! id) ∨ (∃ g, (id, g) ∈ grouped) →
         is_Some (result !! id))
  ∧ (∀ id c, result !! id = Some c →
             init !! id = Some c ∨ ∃ records, c = connectionFor this records).
Proof.
  induction grouped as [|[k g] grouped IH]; intros init; simpl.
  - split; [|by auto]. intros id [H|(g & Hg)]; [done|].
    by apply elem_of_nil in Hg.
  - destruct (IH (<[k := connectionFor this g]> init)) as [IH1 IH2].
    split.
    + intros id H. apply IH1. rewrite lookup_insert_is_Some.
      destruct (decide (k = id)) as [->|Hne]; [auto|].
      destruct H as [H|(g' & [[= -> ->]|Hg']%elem_of_cons)];
        [by left; right|done|right; eauto].
    + intros id c Hc. destruct (IH2 id c Hc) as [H|H]; [|by right].
      apply lookup_insert_Some in H as [[_ <-]|[_ H]]; eauto.
Qed.

Lemma connectionFor_finite records :
  finite_inputs this → finite (connectionFor this records).
Proof.
  intros (Hrtt & Hthr & Hdef & _). unfold connectionFor.
  repeat split; simpl; try done.
  by destruct (Num.isFinite (fold_left _ _ _)) eqn:E.
Qed.

Lemma initial_connections_finite :
  finite_inputs this → connections_finite (initial_state this).
Proof.
  intros Hfin id c. unfold initial_state, _initializeAuxiliaryData. simpl_state.
  unfold _initializeNetworkConnections. intros Hc.
  apply connections_fold in Hc as [Hc|(records & ->)]; [done|].
  by apply connectionFor_finite.
Qed.

Lemma initial_connections_known n c :
  n ∈ traverse (_graph this) → connectionOf this n = Some c →
  is_Some (_connections (initial_state this) !! c).
Proof.
  intros Hn Hc. unfold initial_state, _initializeAuxiliaryData. simpl_state.
  unfold _initializeNetworkConnections.
  apply connections_fold. right.
  unfold connectionOf in Hc.
  destruct (data (node (_graph this) n)) as [record|] eqn:Hdata; [|done].
  injection Hc as <-.
  assert (record ∈ _initializeNetworkRecords this) as Hrec.
  { unfold _initializeNetworkRecords. apply list_elem_of_In, in_flat_map.
    exists n. split; [by apply list_elem_of_In|]. rewrite Hdata. by left. }
  destruct (groupBy_key connectionId _ _ Hrec) as [g Hg].
  exists g. by apply map_get_elem.
Qed.

Lemma initial_state_full :
  finite_inputs this → full_inv this (initial_state this).
Proof.
  intros Hfin. split; [apply initial_state_structure|]. split.
  - split; [|split].
    + intros n aux. unfold initial_state, _initializeAuxiliaryData. simpl_state. by rewrite lookup_empty.
    + by apply initial_connections_finite.
    + intros c. unfold initial_state, _initializeAuxiliaryData. simpl_state.
      intros Hc. by apply elem_of_nil in Hc.
  - intros [Hroot Hclosed]. repeat split.
    + unfold initial_state, _initializeAuxiliaryData. simpl_state.
      intros n [[->|Hn]%elem_of_add|Hn]; [done| |];
        by apply elem_of_nil in Hn.
    + apply initial_connections_known.
    + unfold initial_state, _initializeAuxiliaryData. simpl_state. intros n Hn.
      by apply elem_of_nil in Hn.
Qed.
End Connections.
End EstimatorInit.

(* ===================================================================== *)
(** ** The main loop *)
(* ===================================================================== *)

Module EstimatorLoop.
Import Estimator EstimatorFacts EstimatorProofs EstimatorStructure.
Import EstimatorNumeric EstimatorInit.

Section Loop.
Variable this : Estimator.t.
Hypothesis Hfin : finite_inputs this.

Local Abbreviation closed := (traverse_closed (_graph this)).
Local Abbreviation X := (λ e : Error, closed → e = MaximumDepthExceeded).
Local Abbreviation N := (closed → False).
Local Abbreviation J := (λ _ s' : State, aux_always s').

Lemma iteration_full totalElapsedTime s :
  full_inv this s →
  wp X N J (iteration this totalElapsedTime) (λ _, full_inv this) s.
Proof.
  intros Hinv. unfold iteration. wp_step. wp_step. wp_step.
  eapply wp_mono.
  { apply (wp_for_of _ _ _ (λ rest s',
             full_inv this s'
             ∧ ∀ n, n ∈ rest → closed → n ∈ traverse (_graph this))).
    - split; [done|]. intros n Hn Hclosed.
      destruct Hinv as (_ & _ & Htot). destruct (Htot Hclosed) as (Hk1 & _).
      apply Hk1. by left.
    - intros n rest s' [Hinv' Hrest]. eapply wp_mono.
      + eapply wp_post_and.
        * apply start_structure, Hinv'.
        * apply start_numeric; [done|]. apply Hrest. by left.
      + cbv beta. intros [] s'' (Hstr & Hnum & Htot).
        split; [done|]. intros m Hm. apply Hrest. by right. }
  cbv beta. intros [] s1 [Hinv1 _]. wp_step.
  eapply wp_mono.
  { eapply wp_post_and.
    - apply updateNetworkCapacity_structure, Hinv1.
    - by apply (updateNetworkCapacity_numeric this Hfin). }
  cbv beta. intros [] s2 Hinv2.
  assert (full_inv this s2) as Hinv2' by (destruct Hinv2 as (? & ? & ?); done).
  clear Hinv2. wp_step.
  unfold _findNextNodeCompletionTime. wp_step. wp_step.
  eapply wp_mono.
  { apply (findNext_full this Hfin); [done|done|apply Hinv2'|by left]. }
  cbv beta.
  intros minimumTime s3 (Hinv3 & Hproc3 & _ & _ & Hfresh3 & _ & Hmin).
  wp_step. wp_step. wp_step.
  eapply wp_mono.
  { apply (wp_for_of _ _ _ (λ rest s',
             full_inv this s' ∧ NoDup rest
             ∧ (rest ≠ [] → Num.isFinite minimumTime = true)
             ∧ ∀ n, n ∈ rest →
                    n ∈ _nodesInProcess s' ∧ fresh this minimumTime s' n)).
    - split; [done|]. split; [apply Hinv3|]. split.
      + intros Hne. apply Hmin. right. by rewrite <- Hproc3.
      + intros n Hn. split; [done|]. apply Hfresh3. by rewrite <- Hproc3.
    - intros n rest s' (Hinv' & Hnodup & Hfinite & Hrest).
      apply NoDup_cons in Hnodup as [Hn Hnodup].
      destruct (Hrest n) as [Hin Hfresh]; [by left|].
      eapply wp_mono.
      + eapply wp_post_and.
        * apply updateProgress_structure; [apply Hinv'|done].
        * by apply (updateProgress_numeric this Hfin); [..|apply Hfinite|].
      + cbv beta. intros [] s'' ((Hstr & Hkeep) & Hnum & Htot & Hframe).
        split; [done|]. split; [done|]. split; [intros _; by apply Hfinite|].
        intros m Hm. assert (m ≠ n) as Hne by (intros ->; done).
        destruct (Hrest m) as [Hin' Hfresh']; [by right|].
        split; [by apply Hkeep|by apply Hframe]. }
  cbv beta. intros [] s4 [Hinv4 _]. by wp_step.
Qed.

Lemma main_loop_full budget totalElapsedTime s :
  full_inv this s →
  wp X N J (main_loop this budget totalElapsedTime) (λ _ _, True) s.
Proof.
  revert totalElapsedTime s.
  induction budget as [|budget IH]; intros totalElapsedTime s Hinv; simpl.
  - wp_step. wp_step. wp_step. wp_step.
    destruct (_ || _); [|by wp_step].
    wp_step. eapply wp_mono; [by apply iteration_full|].
    intros t s' Hs'. cbv beta. by wp_step.
  - wp_step. wp_step. wp_step. wp_step.
    destruct (_ || _); [|by wp_step].
    wp_step. eapply wp_mono; [by apply iteration_full|].
    intros t s' Hs'. cbv beta. by apply IH.
Qed.

Lemma run_full :
  wp X N J (main_loop this (Z.to_nat 10000) 0%Z) (λ _ _, True)
     (initial_state this).
Proof. by apply main_loop_full, initial_state_full. Qed.
End Loop.
End EstimatorLoop.
(* ===================================================================== *)
(** ** A graph of one request *)
(* ===================================================================== *)

Module EstimatorSingle.
Import Estimator EstimatorFacts EstimatorProofs EstimatorStructure.
Import TcpConnectionFacts Examples.



Section OneRequest.
Variables (record : NetworkRecord) (r t d limit : num).
Let this := single_node_estimator record r t d limit.
Let c0 := connectionFor this [record].

(** The connection of the request once it is in flight: it has the whole
    throughput. *)
Let c1 := at_throughput c0 (t / JSSet.size [0%nat])%num.








End OneRequest.



End EstimatorSingle.

(* ===================================================================== *)
(** ** Properties of the scheduler *)
(* ===================================================================== *)

Section SchedulerClaims.
Import Estimator EstimatorFacts EstimatorProofs EstimatorStructure.
Import EstimatorNumeric EstimatorInit EstimatorLoop EstimatorLimit.
Import EstimatorSingle.
Import TcpConnectionFacts Examples.

(** With finite inputs and a closed traversal, a run returns or exceeds
    the depth limit. *)
Lemma estimate_returns_or_exceeds this :
  finite_inputs this → traverse_closed (_graph this) →
  (∃ totalElapsedTime, estimate this = Ret totalElapsedTime)
  ∨ estimate this = Throw MaximumDepthExceeded.
Proof.
  intros Hfin Hclosed. destruct (run_full this Hfin) as [_ Hr].
  unfold estimate, run.
  destruct (main_loop _ _ _ _).2 as [[t s']|e|]; [eauto| |done].
  right. by rewrite (Hr Hclosed).
Qed.

Lemma history_aux this s :
  finite_inputs this → s ∈ history this → aux_always s.
Proof.
  intros Hfin. destruct (run_full this Hfin) as [Hchain _].
  apply chain_Forall in Hchain. rewrite Forall_forall in Hchain.
  unfold history. intros [->|Hs]%elem_of_cons.
  - by apply initial_state_full.
  - by apply Hchain.
Qed.


(** C10.  [estimate] never throws 'Unsupported': [_startNodeIfPossible]
    returns without effect for a node that is not a NETWORK node, so only
    NETWORK nodes are ever in flight; a node that is not a NETWORK node and
    is in the queue at some point of the run is in the queue at every later
    point, and the run does not return a result: with finite inputs and a
    graph whose traversal covers the nodes reachable from the root, it ends
    with 'Maximum depth exceeded'. *)
Theorem estimate_never_unsupported (this : Estimator.t) :
  estimate this ≠ Throw Unsupported
  ∧ (∀ n totalElapsedTime s,
        type (node (_graph this) n) ≠ NETWORK →
        _startNodeIfPossible this n totalElapsedTime s = ([], Ret (tt, s)))
  ∧ (∀ s n, s ∈ history this → n ∈ _nodesInProcess s →
            type (node (_graph this) n) = NETWORK)
  ∧ (∀ n i s,
        type (node (_graph this) n) ≠ NETWORK →
        history this !! i = Some s → n ∈ _nodesInQueue s →
        (∀ j s', (i <= j)%nat → history this !! j = Some s' →
                 n ∈ _nodesInQueue s')
        ∧ (∀ totalElapsedTime, estimate this ≠ Ret totalElapsedTime)
        ∧ (finite_inputs this → traverse_closed (_graph this) →
           estimate this = Throw MaximumDepthExceeded)).
Proof.
  split; [|split; [|split]].
  - destruct (run_structure this) as [_ Hr].
    unfold estimate, run. destruct (main_loop _ _ _ _).2 as [[t s']|e|];
      [done| |done].
    intros [= ->]. done.
  - intros n t s Hn. unfold _startNodeIfPossible, type in *.
    by destruct (data (node (_graph this) n)).
  - intros s n Hs. by apply history_structure.
  - intros n i s Hn Hi Hq.
    destruct (main_loop_stays this n Hn (Z.to_nat 10000) 0%Z (initial_state this))
      as [Hchain _].
    assert (∀ j s', (i <= j)%nat → history this !! j = Some s' →
                    n ∈ _nodesInQueue s') as Hstays.
    { intros j s' Hij Hj. unfold history, run in *.
      by eapply (chain_from (λ s, n ∈ _nodesInQueue s)). }
    split; [exact Hstays|].
    assert (∀ t, estimate this ≠ Ret t) as Hnoret;
      [|split; [exact Hnoret|]; intros Hfin Hclosed;
        destruct (estimate_returns_or_exceeds this Hfin Hclosed) as [[t Ht]|Ht];
        [by destruct (Hnoret t)|done]].
    intros t Ht. destruct (run_structure this) as [_ Hr].
    unfold estimate, run in Ht.
    destruct (main_loop this (Z.to_nat 10000) 0%Z (initial_state this))
      as [h [[t' s']|e|]] eqn:Hrun; simpl in Ht, Hr; try done.
    destruct Hr as [Hlast Hempty].
    assert (history this !! length h = Some s') as Hend.
    { unfold history, run. rewrite Hrun. simpl fst. rewrite Hlast.
      clear. generalize (initial_state this) as s0.
      induction h as [|x h IH]; intros s0; [done|].
      rewrite last_cons_state. simpl. apply IH. }
    assert (i <= length h)%nat as Hle.
    { apply lookup_lt_Some in Hi. unfold history, run in Hi.
      rewrite Hrun in Hi. simpl in Hi. lia. }
    specialize (Hstays _ _ Hle Hend). rewrite Hempty in Hstays.
    by apply elem_of_nil in Hstays.
Qed.


(** C7.  With finite inputs (rtt, throughput, default response time and
    transfer sizes), throughout every run of [estimate] the
    [timeElapsedOvershoot] of a node is never negative: it is 0 when the
    node is admitted, and every update by [returned timeElapsed − step
    length] of a node that does not finish in the step leaves it at least
    0. *)
Theorem overshoot_never_negative (this : Estimator.t) :
  finite_inputs this →
  ∀ s n aux,
    s ∈ history this → _nodeAuxiliaryData s !! n = Some aux →
    (0%Z <= timeElapsedOvershoot aux)%num.
Proof.
  intros Hfin s n aux Hs Haux.
  by destruct (history_aux this s Hfin Hs n aux Haux) as (_ & _ & _ & ?).
Qed.



(** C3, at a record whose measured response time is exactly 0: the
    difference [receiveHeadersEnd − sendEnd] is the finite number 0, yet
    [getResponseTime] yields [Infinity] for it, and the connection is
    created with the default response time of 30 ms. *)
Theorem zero_response_time_replaced_by_default :
  let this := constructor zero_response_graph no_options in
  (receiveHeadersEnd {| receiveHeadersEnd := 5%Z; sendEnd := 5%Z |}
   - sendEnd {| receiveHeadersEnd := 5%Z; sendEnd := 5%Z |})%num = Fin 0
  ∧ getResponseTime zero_response_record = PInf
  ∧ _connections (initial_state this) !! 1%nat
    = Some (TcpConnection.constructor 150%Z 1638400%Z 30%Z true).
Proof. vm_compute. repeat split. Qed.



(** *** The statements above at concrete inputs *)

Lemma single_request_finite_inputs : finite_inputs single_request_estimator.
Proof.
  repeat split. intros n record. simpl. intros [= <-]. reflexivity.
Defined.


Lemma admitted_state_in_history :
  admitted_state ∈ history single_request_estimator.
Proof.
  apply (list_elem_of_lookup_2 _ 4%nat). vm_compute. reflexivity.
Defined.


Lemma overshoot_never_negative_witness :
  finite_inputs single_request_estimator
  ∧ admitted_state ∈ history single_request_estimator
  ∧ _nodeAuxiliaryData admitted_state !! 0%nat = Some admitted_aux
  ∧ (0%Z <= timeElapsedOvershoot admitted_aux)%num.
Proof.
  assert (_nodeAuxiliaryData admitted_state !! 0%nat = Some admitted_aux)
    as Haux by (vm_compute; reflexivity).
  split; [apply single_request_finite_inputs|].
  split; [apply admitted_state_in_history|]. split; [exact Haux|].
  exact (overshoot_never_negative single_request_estimator
           single_request_finite_inputs admitted_state 0%nat admitted_aux
           admitted_state_in_history Haux).
Defined.


Lemma estimate_never_unsupported_witness :
  type (node cpu_root_graph 0%nat) ≠ NETWORK
  ∧ history (constructor cpu_root_graph no_options) !! 0%nat
    = Some (initial_state (constructor cpu_root_graph no_options))
  ∧ 0%nat ∈ _nodesInQueue (initial_state (constructor cpu_root_graph no_options))
  ∧ ∀ totalElapsedTime,
      estimate (constructor cpu_root_graph no_options) ≠ Ret totalElapsedTime.
Proof.
  assert (type (node cpu_root_graph 0%nat) ≠ NETWORK) as Hcpu by discriminate.
  assert (0%nat ∈ _nodesInQueue
            (initial_state (constructor cpu_root_graph no_options))) as Hq
    by (by left).
  split; [exact Hcpu|]. split; [reflexivity|]. split; [exact Hq|].
  exact (proj1 (proj2 (proj2 (proj2 (proj2
           (estimate_never_unsupported (constructor cpu_root_graph no_options))))
           0%nat 0%nat _ Hcpu Logic.eq_refl Hq))).
Defined.


End SchedulerClaims.
(* ===================================================================== *)
(** ** Further properties of the connection model *)
(* ===================================================================== *)

Module TcpConnectionRounds.
Import TcpConnection TcpConnectionFacts TcpConnectionProofs TcpConnectionThroughput.
Import TcpConnectionLocals.

Lemma locals_finite_holds s :
  locals_finite s ↔ ∃ d cw bd br, holds s d cw bd br.
Proof.
  unfold locals_finite, holds. rewrite !NumFacts.isFinite_Fin. split.
  - intros ((d & ?) & (cw & ?) & (bd & ?) & (br & ?)). by exists d, cw, bd, br.
  - intros (d & cw & bd & br & ? & ? & ? & ?). eauto 10.
Qed.

(** One round trip, on finite numbers. *)
Lemma loop_body_holds r a s d cw bd br :
  holds s d cw bd br →
  ∃ cw', holds (loop_body (Fin r) (Fin a) s)
           (Qred (d + r)) cw' (Qred (bd + Qred (cw' * inject_Z 1460)))
           (Qred (br + - Qred (cw' * inject_Z 1460)))
         ∧ 1 <= cw' ∧ (cw' <= a ∨ cw' == 1) ∧ (cw' <= cw * 2 ∨ cw' == 1).
Proof.
  intros (Hd & Hcw & Hbd & Hbr). unfold loop_body, holds.
  cbn [l_downloadTimeElapsed l_congestionWindow l_bytesDownloaded l_bytesRemaining].
  rewrite Hd, Hcw, Hbd, Hbr.
  change (Fin cw * 2%Z)%num with (Fin (Qred (cw * inject_Z 2))).
  change (Num.of_Z 1) with (Fin (inject_Z 1)).
  destruct (min_fin_cases a (Qred (cw * inject_Z 2))) as (z & -> & Hz1 & Hz2 & Hz).
  destruct (max_fin_cases z (inject_Z 1)) as (g & -> & Hg1 & Hg2 & Hg).
  exists g. split; [done|]. rewrite Qred_correct in *.
  change (inject_Z 1) with 1 in *. change (inject_Z 2) with 2 in *.
  split; [done|]. split; (destruct Hg as [Hg|Hg]; [left; lra|by right]).
Qed.

(** [k] round trips, on finite numbers: the time grows by [k] rtt, the
    bytes downloaded and remaining add up as before, the window is at least
    one segment after the first round trip and at most the cap (or one
    segment), and at least a segment is downloaded per round trip. *)
Lemma iter_holds r a k s d cw bd br :
  holds s d cw bd br →
  ∃ d' cw' bd' br',
    holds (Nat.iter k (loop_body (Fin r) (Fin a)) s) d' cw' bd' br'
    ∧ d' == d + inject_Z (Z.of_nat k) * r
    ∧ bd' + br' == bd + br
    ∧ bd + 1460 * inject_Z (Z.of_nat k) <= bd'
    ∧ (k = 0%nat → cw' = cw)
    ∧ ((0 < k)%nat → 1 <= cw' ∧ (cw' <= a ∨ cw' == 1)).
Proof.
  intros Hs. induction k as [|k IH].
  - exists d, cw, bd, br. split; [done|].
    change (inject_Z (Z.of_nat 0)) with 0.
    split; [ring|]. split; [ring|]. split; [lra|]. split; [done|]. lia.
  - destruct IH as (d' & cw' & bd' & br' & Hk & Hd & Hsum & Hbd & _ & _).
    cbn [Nat.iter].
    destruct (loop_body_holds r a _ _ _ _ _ Hk) as (g & Hg & Hg1 & Hga & _).
    eexists _, g, _, _. split; [exact Hg|].
    rewrite !Qred_correct, Nat2Z.inj_succ, <- Z.add_1_r, inject_Z_plus.
    change (inject_Z 1) with 1. change (inject_Z 1460) with 1460.
    split; [rewrite Hd; ring|]. split; [rewrite <- Hsum; ring|].
    split; [nra|]. split; [lia|]. done.
Qed.

End TcpConnectionRounds.

Module TcpConnectionHandshake.
Import TcpConnection TcpConnectionFacts TcpConnectionProofs TcpConnectionThroughput.
Import TcpConnectionLocals TcpConnectionRounds.

Lemma div_fin x y : ¬ y == 0 → (Fin x / Fin y)%num = Fin (Qred (x / y)).
Proof.
  intros Hy. unfold Num.div.
  destruct (Qeq_bool y 0) eqn:E; [|done]. by apply Qeq_bool_eq in E.
Qed.

Lemma handshake_roundTrips c :
  positive (_rtt c) →
  Num.ceil (Spec.handshake c / _rtt c)%num = Num.of_Z (handshakeRoundTrips c).
Proof.
  intros (r & Hr & Hr0). unfold Spec.handshake, handshakeRoundTrips.
  rewrite Hr. unfold Num.of_Z.
  assert (¬ r == 0) as Hne by lra.
  destruct (_warmed c); [|destruct (_ssl c)].
  - rewrite (div_fin r (inject_Z 2)) by done. rewrite (div_fin _ r Hne).
    cbn [Num.ceil]. unfold Num.of_Z. f_equal. f_equal.
    transitivity (Qceiling (1 # 2)); [|reflexivity].
    apply Qceiling_comp. rewrite !Qred_correct. change (inject_Z 2) with 2.
    field. lra.
  - unfold Num.mul, Num.add, Num.fin. rewrite (div_fin _ r Hne).
    cbn [Num.ceil]. unfold Num.of_Z. f_equal. f_equal.
    transitivity (Qceiling (5 # 2)); [|reflexivity].
    apply Qceiling_comp. rewrite !Qred_correct. field. lra.
  - unfold Num.mul, Num.add, Num.fin. rewrite (div_fin _ r Hne).
    cbn [Num.ceil]. unfold Num.of_Z. f_equal. f_equal.
    transitivity (Qceiling (3 # 2)); [|reflexivity].
    apply Qceiling_comp. rewrite !Qred_correct. change (inject_Z 0) with 0.
    field. lra.
Qed.

(** The count of round trips goes up by one per iteration. *)
Lemma iter_roundTrips rtt maxCwnd k s n :
  l_roundTrips s = Fin n →
  ∃ n', l_roundTrips (Nat.iter k (loop_body rtt maxCwnd) s) = Fin n'
        ∧ n' == n + inject_Z (Z.of_nat k).
Proof.
  intros Hn. induction k as [|k (n' & IH & Hn')].
  - exists n. split; [done|]. change (inject_Z (Z.of_nat 0)) with 0. ring.
  - rewrite Nat.iter_succ. unfold loop_body at 1. cbn [l_roundTrips]. rewrite IH. eexists.
    split; [reflexivity|].
    rewrite Qred_correct, Hn', Nat2Z.inj_succ, <- Z.add_1_r, inject_Z_plus. ring.
Qed.

Lemma same_download_body rtt maxCwnd s s' :
  same_download s s' →
  same_download (loop_body rtt maxCwnd s) (loop_body rtt maxCwnd s').
Proof.
  intros (Hd & Hcw & Hbd & Hbr). unfold same_download, loop_body.
  cbn [l_downloadTimeElapsed l_congestionWindow l_bytesDownloaded l_bytesRemaining].
  by rewrite Hd, Hcw, Hbd, Hbr.
Qed.

Lemma same_download_iter rtt maxCwnd k s s' :
  same_download s s' →
  same_download (Nat.iter k (loop_body rtt maxCwnd) s)
                (Nat.iter k (loop_body rtt maxCwnd) s').
Proof.
  intros H. induction k as [|k IH]; [done|]. by apply same_download_body.
Qed.

Lemma same_download_cond maxD s s' :
  same_download s s' → loop_cond maxD s = loop_cond maxD s'.
Proof. intros (Hd & _ & _ & Hbr). unfold loop_cond. by rewrite Hd, Hbr. Qed.
End TcpConnectionHandshake.

Section ConnectionProperties.
Import TcpConnection TcpConnectionFacts TcpConnectionProofs TcpConnectionThroughput.
Import TcpConnectionLocals TcpConnectionRounds.



(** X3.  A deadline cuts the download short.  On a connection whose numbers are
    finite and whose rtt is not negative, the call with the deadline
    [maximumTimeToElapse] returns no more time and no more bytes than the
    call without a deadline; it returns the same result, or a time past the
    deadline; and its time is at most one rtt past the deadline, or the
    residual TTFB. *)
Theorem calculateTimeToDownload_deadline_bounds
    (c : TcpConnection.t) (bytesToDownload timeAlreadyElapsed : num)
    (maximumTimeToElapse : Q) :
  finite c → nonnegative (_rtt c) →
  Num.isFinite bytesToDownload = true →
  Num.isFinite timeAlreadyElapsed = true →
  ∃ whole part,
    calculateTimeToDownload bytesToDownload timeAlreadyElapsed PInf c
    = Some (whole, c)
    ∧ calculateTimeToDownload bytesToDownload timeAlreadyElapsed
        (Fin maximumTimeToElapse) c = Some (part, c)
    ∧ (timeElapsed part <= timeElapsed whole)%num
    ∧ (bytesDownloaded part <= bytesDownloaded whole)%num
    ∧ (part = whole ∨ (Fin maximumTimeToElapse < timeElapsed part)%num)
    ∧ (timeElapsed part
       <= Num.max (Spec.residualTTFB c timeAlreadyElapsed)
                  (Fin maximumTimeToElapse + _rtt c))%num.
Proof.
  intros Hc (rtt & Hrtt & Hrtt0) Hb Htae.
  destruct (calculateTimeToDownload_finite c bytesToDownload timeAlreadyElapsed
              PInf Hc Hb Htae) as (whole & Hw & _).
  destruct (calculateTimeToDownload_finite c bytesToDownload timeAlreadyElapsed
              (Fin maximumTimeToElapse) Hc Hb Htae) as (part & Hp & _).
  exists whole, part. split; [done|]. split; [done|].
  split; [|split; [|split;
    [by apply (calculateTimeToDownload_deadline c bytesToDownload
                 timeAlreadyElapsed)|]]].
  all: pose proof (locals_at_loop_finite c bytesToDownload timeAlreadyElapsed
                     Hc Hb) as Hs0;
    pose proof (residualTTFB_finite c timeAlreadyElapsed Hc Htae) as Hres;
    pose proof (maximumCongestionWindow_finite c Hc) as Hmax;
    destruct (calculateTimeToDownload_cases c bytesToDownload
                timeAlreadyElapsed PInf)
      as [(kf & Hw' & Hltf & Hendf)|[Hw' _]]; [|congruence];
    destruct (calculateTimeToDownload_cases c bytesToDownload
                timeAlreadyElapsed (Fin maximumTimeToElapse))
      as [(kp & Hp' & Hltp & Hendp)|[Hp' _]]; [|congruence];
    rewrite Hw in Hw'; rewrite Hp in Hp'; injection Hw' as ->;
    injection Hp' as ->; clear Hw Hp;
    apply NumFacts.isFinite_Fin in Hb as (b & ->);
    apply NumFacts.isFinite_Fin in Hmax as (a & Ha);
    apply NumFacts.isFinite_Fin in Hres as (x & Hx);
    rewrite Ha, Hrtt, Hx in *;
    apply locals_finite_holds in Hs0 as (d0 & cw0 & bd0 & br0 & Hs0);
    assert (d0 == 0) as Hd0
      by (destruct Hs0 as (Hd0 & _); rewrite locals_at_loop_elapsed in Hd0;
          by injection Hd0 as <-);
    set (s0 := locals_at_loop c (Fin b) timeAlreadyElapsed) in *;
    set (body := loop_body (Fin rtt) (Fin a)) in *;
    assert (kp <= kf)%nat as Hk
      by (destruct (le_lt_dec kp kf) as [|Hgt]; [done|exfalso];
          specialize (Hltp kf Hgt); unfold loop_cond in Hltp, Hendf;
          apply andb_true_iff in Hltp as [Hltp _];
          destruct (iter_holds rtt a kf _ _ _ _ _ Hs0)
            as (d & cw & bd & br & (Hd & _ & _ & Hbr) & _);
          fold body s0 in Hd, Hbr;
          rewrite Hd in Hendf; rewrite Hltp in Hendf; done);
    destruct (iter_holds rtt a kp _ _ _ _ _ Hs0)
      as (dp & cwp & bdp & brp & Hsp & Hdp & Hsump & Hbdp & _);
    fold body s0 in Hsp;
    replace kf with ((kf - kp) + kp)%nat in * by lia;
    rewrite Nat.iter_add in *;
    destruct (iter_holds rtt a (kf - kp) _ _ _ _ _ Hsp)
      as (df & cwf & bdf & brf & Hsf & Hdf & Hsumf & Hbdf & _);
    fold body in Hsf;
    destruct Hsp as (Ep1 & Ep2 & Ep3 & Ep4);
    destruct Hsf as (Ef1 & Ef2 & Ef3 & Ef4);
    cbn [timeElapsed bytesDownloaded];
    assert (0 <= inject_Z (Z.of_nat (kf - kp))) as Hkk
      by (change 0 with (inject_Z 0); rewrite <- Zle_Qle; lia).
  - rewrite Ep1, Ef1. apply NumFacts.leb_fin. rewrite !Qred_correct. nra.
  - rewrite Ep3, Ef3.
    destruct (min_fin_cases bdp b) as (zp & -> & Hp1 & Hp2 & Hp3).
    destruct (min_fin_cases bdf b) as (zf & -> & Hf1 & Hf2 & Hf3).
    apply NumFacts.leb_fin. destruct Hf3 as [Hf3|Hf3]; rewrite Hf3; [|done].
    assert (bdp <= bdf) by nra. lra.
  - rewrite Ep1. cbn [Num.add]. unfold Num.fin.
    destruct (max_fin_cases x (Qred (maximumTimeToElapse + rtt)))
      as (z & -> & Hz1 & Hz2 & _).
    apply NumFacts.leb_fin. rewrite !Qred_correct in *.
    destruct kp as [|kp].
    + change (inject_Z (Z.of_nat 0)) with 0 in Hdp. lra.
    + specialize (Hltp kp (Nat.lt_succ_diag_r kp)).
      unfold loop_cond in Hltp. apply andb_true_iff in Hltp as [_ Hltp].
      destruct (iter_holds rtt a kp _ _ _ _ _ Hs0)
        as (d' & cw' & bd' & br' & (Hd' & _) & Hdd' & _).
      fold body s0 in Hd'. rewrite Hd' in Hltp.
      cbn [Num.sub Num.neg Num.add Num.fin] in Hltp.
      apply NumFacts.leb_fin in Hltp. rewrite Qred_correct in Hltp.
      rewrite Nat2Z.inj_succ, <- Z.add_1_r, inject_Z_plus in Hdp.
      change (inject_Z 1) with 1 in Hdp. nra.
Qed.


(** X5.  More throughput never slows a download down: on a connection whose
    numbers are finite and whose rtt is not negative, of two calls without
    a deadline that differ only in the available throughput, the one with
    the larger throughput returns the smaller or equal time. *)
Theorem calculateTimeToDownload_faster_with_throughput
    (c : TcpConnection.t) (throughput throughput' : Q)
    (bytesToDownload timeAlreadyElapsed : num) :
  finite c → nonnegative (_rtt c) → throughput <= throughput' →
  Num.isFinite bytesToDownload = true →
  Num.isFinite timeAlreadyElapsed = true →
  ∃ r r',
    calculateTimeToDownload bytesToDownload timeAlreadyElapsed PInf
      (at_throughput c (Fin throughput))
    = Some (r, at_throughput c (Fin throughput))
    ∧ calculateTimeToDownload bytesToDownload timeAlreadyElapsed PInf
        (at_throughput c (Fin throughput'))
      = Some (r', at_throughput c (Fin throughput'))
    ∧ (timeElapsed r' <= timeElapsed r)%num.
Proof.
  intros Hc Hrtt Ht Hb Htae.
  assert (∀ x, finite (at_throughput c (Fin x))) as Hcx
    by (intros x; destruct Hc as (? & ? & ? & ?); by repeat split).
  destruct (calculateTimeToDownload_finite _ bytesToDownload timeAlreadyElapsed
              PInf (Hcx throughput) Hb Htae) as (r & Hr & _).
  destruct (calculateTimeToDownload_finite _ bytesToDownload timeAlreadyElapsed
              PInf (Hcx throughput') Hb Htae) as (r' & Hr' & _).
  exists r, r'. split; [done|]. split; [done|].
  by apply (calculateTimeToDownload_throughput c throughput throughput'
              bytesToDownload timeAlreadyElapsed).
Qed.
End ConnectionProperties.

Section HandshakeProperties.
Import TcpConnection TcpConnectionFacts TcpConnectionProofs TcpConnectionThroughput.
Import TcpConnectionLocals TcpConnectionRounds TcpConnectionHandshake.

(** X6.  What [roundTrips] counts.  On a connection whose numbers are finite and
    whose rtt is positive, a call returns after some number [k] of download
    round trips; [roundTrips] is [k] plus the round trips of the handshake
    and request (1 on a warmed connection, 2 on a cold one, 3 on a cold one
    with TLS) when part of the time to first byte is still to come, and [k]
    alone otherwise; [timeElapsed] is the residual TTFB plus [k] times the
    rtt. *)
Theorem calculateTimeToDownload_roundTrips
    (c : TcpConnection.t) (bytesToDownload timeAlreadyElapsed maximumTimeToElapse : num) :
  finite c → positive (_rtt c) →
  Num.isFinite bytesToDownload = true →
  Num.isFinite timeAlreadyElapsed = true →
  let residual := Spec.residualTTFB c timeAlreadyElapsed in
  ∃ r (k : nat),
    calculateTimeToDownload bytesToDownload timeAlreadyElapsed
      maximumTimeToElapse c = Some (r, c)
    ∧ (roundTrips r
       == Num.of_Z ((if Num.gtb residual 0%Z then handshakeRoundTrips c else 0)
                    + Z.of_nat k))%num
    ∧ (timeElapsed r == residual + Num.of_nat k * _rtt c)%num.
Proof.
  intros Hc Hpos Hb Htae residual. subst residual.
  pose proof (locals_at_loop_finite c bytesToDownload timeAlreadyElapsed Hc Hb)
    as Hs0.
  pose proof (residualTTFB_finite c timeAlreadyElapsed Hc Htae) as Hres.
  pose proof (maximumCongestionWindow_finite c Hc) as Hmax.
  destruct (calculateTimeToDownload_finite c bytesToDownload timeAlreadyElapsed
              maximumTimeToElapse Hc Hb Htae) as (r & Hr & _).
  exists r.
  destruct (calculateTimeToDownload_cases c bytesToDownload timeAlreadyElapsed
              maximumTimeToElapse) as [(k & Hr' & _)|[Hr' _]]; [|congruence].
  exists k. split; [done|].
  rewrite Hr in Hr'. injection Hr' as ->. cbn [roundTrips timeElapsed].
  assert (l_roundTrips (locals_at_loop c bytesToDownload timeAlreadyElapsed)
          = Fin (inject_Z (if Num.gtb (Spec.residualTTFB c timeAlreadyElapsed) 0%Z
                           then handshakeRoundTrips c else 0))) as Hrt.
  { unfold locals_at_loop.
    destruct (Num.gtb _ 0%Z); cbn [l_roundTrips]; [|done].
    by rewrite handshake_roundTrips. }
  apply NumFacts.isFinite_Fin in Hmax as (a & Ha).
  apply NumFacts.isFinite_Fin in Hres as (x & Hx).
  destruct Hpos as (rtt & Hrtt & _).
  rewrite Ha, Hrtt, Hx in *.
  apply locals_finite_holds in Hs0 as (d0 & cw0 & bd0 & br0 & Hs0).
  assert (d0 == 0) as Hd0.
  { destruct Hs0 as (Hd0 & _). rewrite locals_at_loop_elapsed in Hd0.
    by injection Hd0 as <-. }
  destruct (iter_roundTrips (Fin rtt) (Fin a) k _ _ Hrt) as (n & -> & Hn).
  destruct (iter_holds rtt a k _ _ _ _ _ Hs0)
    as (d & cw & bd & br & (-> & _) & Hd & _).
  split; cbn [Num.eq Num.of_Z Num.of_nat Num.mul Num.add Num.fin].
  - by rewrite Hn, inject_Z_plus.
  - unfold Num.fin. cbn [Num.eq]. rewrite !Qred_correct, Hd, Hd0. ring.
Qed.

(** X7.  A warmed connection saves the handshake.  For a connection that is not
    warmed, whose numbers are finite, whose rtt is positive and whose
    response time is not negative, a download from the start without a
    deadline takes, once the connection is warmed, one rtt less (two with
    TLS) and one round trip less (two with TLS), for the same bytes and the
    same congestion window. *)
Theorem calculateTimeToDownload_warmed_saves_handshake
    (c c' : TcpConnection.t) (bytesToDownload : num) :
  finite c → positive (_rtt c) → nonnegative (_responseTime c) →
  _warmed c = false →
  Num.isFinite bytesToDownload = true →
  setWarmed true c = Some (tt, c') →
  ∃ cold warm,
    calculateTimeToDownload bytesToDownload 0%Z PInf c = Some (cold, c)
    ∧ calculateTimeToDownload bytesToDownload 0%Z PInf c' = Some (warm, c')
    ∧ (timeElapsed cold
       == timeElapsed warm + _rtt c + (if _ssl c then _rtt c else 0%Z))%num
    ∧ (roundTrips cold
       == roundTrips warm + 1%Z + (if _ssl c then 1%Z else 0%Z))%num
    ∧ bytesDownloaded cold = bytesDownloaded warm
    ∧ congestionWindow cold = congestionWindow warm.
Proof.
  intros Hc Hpos (resp & Hresp & Hresp0) Hcold Hb [= <-].
  set (c' := {| _warmed := true; _ssl := _ssl c; _rtt := _rtt c;
                _availableThroughput := _availableThroughput c;
                _responseTime := _responseTime c;
                _congestionWindow := _congestionWindow c |}).
  assert (finite c') as Hc' by (destruct Hc as (? & ? & ? & ?); by repeat split).
  pose proof Hpos as (rtt & Hrtt & Hrtt0).
  assert (¬ inject_Z 2 == 0) as H2 by done.
  (* the residual times to first byte *)
  assert (∃ x, Spec.residualTTFB c 0%Z = Fin x
               ∧ x == (3 # 2) * rtt + (if _ssl c then rtt else 0) + resp + (1 # 2) * rtt
               ∧ 0 < x) as (x & Hx & Hxv & Hx0).
  { unfold Spec.residualTTFB, Spec.timeToFirstByte, Spec.handshake.
    rewrite Hcold, Hrtt, Hresp. unfold Num.of_Z.
    rewrite (div_fin rtt (inject_Z 2) H2).
    change (Num.of_Z 0) with (Fin (inject_Z 0)).
    assert (∃ y, (Fin (3 # 2) * Fin rtt + (if _ssl c then Fin rtt else Fin (inject_Z 0))
                  + Fin resp + Fin (Qred (rtt / inject_Z 2)) - Fin (inject_Z 0))%num
                 = Fin y
                 ∧ y == (3 # 2) * rtt + (if _ssl c then rtt else 0) + resp + (1 # 2) * rtt)
      as (y & -> & Hy).
    { destruct (_ssl c); eexists; (split; [reflexivity|]);
        rewrite !Qred_correct; change (inject_Z 0) with 0;
        change (inject_Z 2) with 2; field. }
    assert (0 < y) as Hy0 by (rewrite Hy; destruct (_ssl c); lra).
    destruct (max_fin_cases y (inject_Z 0)) as (z & -> & Hz1 & Hz2 & Hz).
    exists z. split; [done|]. change (inject_Z 0) with 0 in *.
    destruct Hz as [Hz|Hz]; [|lra]. rewrite Hz. split; [done|lra]. }
  assert (∃ x', Spec.residualTTFB c' 0%Z = Fin x'
                ∧ x' == (1 # 2) * rtt + resp + (1 # 2) * rtt ∧ 0 < x') as (x' & Hx' & Hxv' & Hx0').
  { unfold Spec.residualTTFB, Spec.timeToFirstByte, Spec.handshake.
    cbn [c' _warmed _rtt _responseTime]. rewrite Hrtt, Hresp. unfold Num.of_Z.
    rewrite (div_fin rtt (inject_Z 2) H2).
    change (Num.of_Z 0) with (Fin (inject_Z 0)).
    assert (∃ y, (Fin (Qred (rtt / inject_Z 2)) + Fin resp
                  + Fin (Qred (rtt / inject_Z 2)) - Fin (inject_Z 0))%num = Fin y
                 ∧ y == (1 # 2) * rtt + resp + (1 # 2) * rtt) as (y & -> & Hy).
    { eexists; (split; [reflexivity|]).
      rewrite !Qred_correct; change (inject_Z 0) with 0;
        change (inject_Z 2) with 2; field. }
    assert (0 < y) as Hy0 by (rewrite Hy; lra).
    destruct (max_fin_cases y (inject_Z 0)) as (z & -> & Hz1 & Hz2 & Hz).
    exists z. split; [done|]. change (inject_Z 0) with 0 in *.
    destruct Hz as [Hz|Hz]; [|lra]. rewrite Hz. split; [done|lra]. }
  assert (Num.gtb (Spec.residualTTFB c 0%Z) 0%Z = true) as Hgt
    by (rewrite Hx; by apply NumFacts.ltb_fin).
  assert (Num.gtb (Spec.residualTTFB c' 0%Z) 0%Z = true) as Hgt'
    by (rewrite Hx'; by apply NumFacts.ltb_fin).
  set (s0 := locals_at_loop c bytesToDownload 0%Z).
  set (s0' := locals_at_loop c' bytesToDownload 0%Z).
  assert (same_download s0 s0') as Hsame.
  { unfold s0, s0', locals_at_loop. rewrite Hgt, Hgt'. by repeat split. }
  assert (l_roundTrips s0 = Num.of_Z (handshakeRoundTrips c)) as Hrt.
  { unfold s0, locals_at_loop. rewrite Hgt. by apply handshake_roundTrips. }
  assert (l_roundTrips s0' = Num.of_Z (handshakeRoundTrips c')) as Hrt'.
  { unfold s0', locals_at_loop. rewrite Hgt'. by apply handshake_roundTrips. }
  pose proof (locals_at_loop_finite c bytesToDownload 0%Z Hc Hb) as Hs0.
  pose proof (locals_at_loop_finite c' bytesToDownload 0%Z Hc' Hb) as Hs0'.
  destruct (calculateTimeToDownload_finite c bytesToDownload 0%Z PInf Hc Hb
              Logic.eq_refl) as (cold & Hcoldr & _).
  destruct (calculateTimeToDownload_finite c' bytesToDownload 0%Z PInf Hc' Hb
              Logic.eq_refl) as (warm & Hwarmr & _).
  exists cold, warm. split; [done|]. split; [done|].
  destruct (calculateTimeToDownload_cases c bytesToDownload 0%Z PInf)
    as [(k & Hr & Hlt & Hend)|[Hr _]]; [|congruence].
  destruct (calculateTimeToDownload_cases c' bytesToDownload 0%Z PInf)
    as [(k' & Hr' & Hlt' & Hend')|[Hr' _]]; [|congruence].
  rewrite Hcoldr in Hr. rewrite Hwarmr in Hr'.
  injection Hr as ->. injection Hr' as ->. clear Hcoldr Hwarmr.
  change (Spec.maximumCongestionWindow c') with (Spec.maximumCongestionWindow c)
    in *.
  change (_rtt c') with (_rtt c) in *.
  fold s0 in Hlt, Hend, Hs0 |- *. fold s0' in Hlt', Hend', Hs0' |- *.
  rewrite Hx in Hlt, Hend. rewrite Hx' in Hlt', Hend'.
  change (PInf - Fin x)%num with PInf in *.
  change (PInf - Fin x')%num with PInf in *.
  assert (k' = k) as ->.
  { destruct (lt_eq_lt_dec k' k) as [[Hl| ->]|Hl]; [|done|].
    - specialize (Hlt k' Hl).
      rewrite (same_download_cond PInf _ _ (same_download_iter _ _ k' _ _ Hsame))
        in Hlt. congruence.
    - specialize (Hlt' k Hl).
      rewrite <- (same_download_cond PInf _ _ (same_download_iter _ _ k _ _ Hsame))
        in Hlt'. congruence. }
  set (body := loop_body (_rtt c) (Spec.maximumCongestionWindow c)) in *.
  destruct (same_download_iter (_rtt c) (Spec.maximumCongestionWindow c) k _ _ Hsame)
    as (Ed & Ecw & Ebd & Ebr).
  fold body in Ed, Ecw, Ebd, Ebr.
  cbn [timeElapsed roundTrips bytesDownloaded congestionWindow].
  rewrite <- Ed, <- Ecw, <- Ebd.
  split; [|split; [|done]].
  - pose proof (maximumCongestionWindow_finite c Hc) as Hmax.
    apply NumFacts.isFinite_Fin in Hmax as (a & Ha).
    apply locals_finite_holds in Hs0 as (d0 & cw0 & bd0 & br0 & Hs0).
    unfold body. rewrite Ha, Hrtt.
    destruct (iter_holds rtt a k _ _ _ _ _ Hs0) as (d & ? & ? & ? & (-> & _) & _).
    rewrite Hx, Hx'.
    destruct (_ssl c); cbn [Num.add Num.eq Num.fin Num.of_Z]; unfold Num.fin;
      cbn [Num.eq]; rewrite !Qred_correct, Hxv, Hxv';
      change (inject_Z 0) with 0; ring.
  - destruct (iter_roundTrips (_rtt c) (Spec.maximumCongestionWindow c) k _ _ Hrt)
      as (n & Hn & Hnv).
    destruct (iter_roundTrips (_rtt c) (Spec.maximumCongestionWindow c) k _ _ Hrt')
      as (n' & Hn' & Hnv').
    fold body in Hn, Hn'. rewrite Hn, Hn'.
    unfold handshakeRoundTrips in Hnv, Hnv'. rewrite Hcold in Hnv.
    cbn [c' _warmed] in Hnv'.
    destruct (_ssl c); cbn [Num.add Num.eq Num.fin Num.of_Z]; unfold Num.fin;
      cbn [Num.eq]; rewrite !Qred_correct, Hnv, Hnv';
      change (inject_Z 0) with 0; change (inject_Z 1) with 1;
      change (inject_Z 2) with 2; change (inject_Z 3) with 3; ring.
Qed.
End HandshakeProperties.

Section SaturatedConnections.
Import TcpConnection TcpConnectionFacts.

(** X8.  The number of connections the link can saturate is a natural number
    that grows with the throughput and with the rtt: for positive rtts
    [rtt <= rtt'] and throughputs [0 <= throughput <= throughput'],
    [maximumSaturatedConnections(rtt, throughput)] is at most
    [maximumSaturatedConnections(rtt', throughput')]. *)
Theorem maximumSaturatedConnections_monotone (rtt rtt' throughput throughput' : Q) :
  0 < rtt → rtt <= rtt' → 0 <= throughput → throughput <= throughput' →
  ∃ j j' : nat,
    maximumSaturatedConnections (Fin rtt) (Fin throughput) = Num.of_nat j
    ∧ maximumSaturatedConnections (Fin rtt') (Fin throughput') = Num.of_nat j'
    ∧ (j <= j')%nat.
Proof.
  intros Hr Hrr Ht Htt.
  assert (∀ r t, 0 < r → 0 <= t →
            ∃ d, 0 < d ∧ d * r == 11680000
                 ∧ maximumSaturatedConnections (Fin r) (Fin t)
                   = Fin (inject_Z (Qfloor (Qred (t / d))))
                 ∧ (0 <= Qfloor (Qred (t / d)))%Z) as Hform.
  { intros r t Hr0 Ht0.
    unfold maximumSaturatedConnections, TCP_SEGMENT_SIZE.
    unfold Num.of_Z. unfold Num.div at 2.
    destruct (Qeq_bool r 0) eqn:Hr1; [apply Qeq_bool_eq in Hr1; lra|].
    unfold Num.mul, Num.fin.
    set (d := Qred (Qred (Qred (inject_Z 1000 / r) * inject_Z 1460) * inject_Z 8)).
    assert (d * r == 11680000) as Hd.
    { unfold d. rewrite !Qred_correct. change (inject_Z 1000) with 1000.
      change (inject_Z 1460) with 1460. change (inject_Z 8) with 8.
      field. lra. }
    assert (0 < d) as Hd0 by nra.
    unfold Num.div.
    destruct (Qeq_bool d 0) eqn:Hd1; [apply Qeq_bool_eq in Hd1; lra|].
    exists d. split; [done|]. split; [done|]. split; [reflexivity|].
    change 0%Z with (Qfloor 0). apply Qfloor_resp_le. rewrite Qred_correct.
    apply Qle_shift_div_l; [done|]. by rewrite Qmult_0_l. }
  destruct (Hform rtt throughput) as (d & Hd0 & Hd & -> & Hf); [lra..|].
  destruct (Hform rtt' throughput') as (d' & Hd0' & Hd' & -> & Hf'); [lra..|].
  exists (Z.to_nat (Qfloor (Qred (throughput / d)))),
         (Z.to_nat (Qfloor (Qred (throughput' / d')))).
  unfold Num.of_nat, Num.of_Z. rewrite !Z2Nat.id by done.
  split; [done|]. split; [done|].
  apply Z2Nat.inj_le; [done..|]. apply Qfloor_resp_le. rewrite !Qred_correct.
  apply Qle_shift_div_l; [done|].
  assert (throughput / d * d' == throughput * (d' / d)) as -> by (field; lra).
  assert (d' / d <= 1) as Hdd.
  { apply Qle_shift_div_r; [done|]. nra. }
  assert (0 <= d' / d) as Hdd0.
  { apply Qle_shift_div_l; [done|]. lra. }
  nra.
Qed.
End SaturatedConnections.

(** *** The statements above at concrete inputs *)

Section ConnectionWitnesses.
Import TcpConnection TcpConnectionFacts TcpConnectionLocals.

Lemma scenario_connection_finite : finite scenario_connection.
Proof. repeat split. Defined.

Lemma scenario_connection_positive_rtt : positive (_rtt scenario_connection).
Proof. exists (inject_Z 100). split; reflexivity. Defined.

Lemma scenario_connection_nonnegative_rtt : nonnegative (_rtt scenario_connection).
Proof. exists (inject_Z 100). split; [reflexivity|discriminate]. Defined.



Lemma calculateTimeToDownload_deadline_bounds_witness :
  finite scenario_connection ∧ nonnegative (_rtt scenario_connection)
  ∧ ∃ whole part,
      calculateTimeToDownload 100000%Z 0%Z PInf scenario_connection
      = Some (whole, scenario_connection)
      ∧ calculateTimeToDownload 100000%Z 0%Z (Fin 500) scenario_connection
        = Some (part, scenario_connection)
      ∧ (timeElapsed part <= timeElapsed whole)%num
      ∧ (bytesDownloaded part <= bytesDownloaded whole)%num
      ∧ (part = whole ∨ (Fin 500 < timeElapsed part)%num)
      ∧ (timeElapsed part
         <= Num.max (Spec.residualTTFB scenario_connection 0%Z)
                    (Fin 500 + _rtt scenario_connection))%num.
Proof.
  split; [exact scenario_connection_finite|].
  split; [exact scenario_connection_nonnegative_rtt|].
  exact (calculateTimeToDownload_deadline_bounds scenario_connection 100000%Z 0%Z
           500 scenario_connection_finite scenario_connection_nonnegative_rtt
           Logic.eq_refl Logic.eq_refl).
Defined.


Lemma calculateTimeToDownload_faster_with_throughput_witness :
  finite scenario_connection ∧ nonnegative (_rtt scenario_connection)
  ∧ 1638400 <= 3276800
  ∧ ∃ r r',
      calculateTimeToDownload 100000%Z 0%Z PInf
        (at_throughput scenario_connection (Fin 1638400))
      = Some (r, at_throughput scenario_connection (Fin 1638400))
      ∧ calculateTimeToDownload 100000%Z 0%Z PInf
          (at_throughput scenario_connection (Fin 3276800))
        = Some (r', at_throughput scenario_connection (Fin 3276800))
      ∧ (timeElapsed r' <= timeElapsed r)%num.
Proof.
  assert (1638400 <= 3276800) as Hle by discriminate.
  split; [exact scenario_connection_finite|].
  split; [exact scenario_connection_nonnegative_rtt|].
  split; [exact Hle|].
  exact (calculateTimeToDownload_faster_with_throughput scenario_connection
           1638400 3276800 100000%Z 0%Z scenario_connection_finite
           scenario_connection_nonnegative_rtt Hle Logic.eq_refl Logic.eq_refl).
Defined.

Lemma calculateTimeToDownload_roundTrips_witness :
  finite scenario_connection ∧ positive (_rtt scenario_connection)
  ∧ ∃ r (k : nat),
      calculateTimeToDownload 100000%Z 0%Z PInf scenario_connection
      = Some (r, scenario_connection)
      ∧ (roundTrips r
         == Num.of_Z ((if Num.gtb (Spec.residualTTFB scenario_connection 0%Z) 0%Z
                       then handshakeRoundTrips scenario_connection else 0)
                      + Z.of_nat k))%num
      ∧ (timeElapsed r
         == Spec.residualTTFB scenario_connection 0%Z
            + Num.of_nat k * _rtt scenario_connection)%num.
Proof.
  split; [exact scenario_connection_finite|].
  split; [exact scenario_connection_positive_rtt|].
  exact (calculateTimeToDownload_roundTrips scenario_connection 100000%Z 0%Z PInf
           scenario_connection_finite scenario_connection_positive_rtt
           Logic.eq_refl Logic.eq_refl).
Defined.

Lemma calculateTimeToDownload_warmed_saves_handshake_witness :
  let warmed := TcpConnection.mk true true 100%Z 1638400%Z 0%Z 10%Z in
  finite scenario_connection ∧ positive (_rtt scenario_connection)
  ∧ nonnegative (_responseTime scenario_connection)
  ∧ setWarmed true scenario_connection = Some (tt, warmed)
  ∧ ∃ cold warm,
      calculateTimeToDownload 100000%Z 0%Z PInf scenario_connection
      = Some (cold, scenario_connection)
      ∧ calculateTimeToDownload 100000%Z 0%Z PInf warmed = Some (warm, warmed)
      ∧ (timeElapsed cold
         == timeElapsed warm + _rtt scenario_connection
            + (if _ssl scenario_connection then _rtt scenario_connection
               else 0%Z))%num
      ∧ (roundTrips cold
         == roundTrips warm + 1%Z
            + (if _ssl scenario_connection then 1%Z else 0%Z))%num
      ∧ bytesDownloaded cold = bytesDownloaded warm
      ∧ congestionWindow cold = congestionWindow warm.
Proof.
  intros warmed.
  assert (nonnegative (_responseTime scenario_connection)) as Hresp.
  { exists (inject_Z 0). split; [reflexivity|discriminate]. }
  split; [exact scenario_connection_finite|].
  split; [exact scenario_connection_positive_rtt|].
  split; [exact Hresp|]. split; [reflexivity|].
  exact (calculateTimeToDownload_warmed_saves_handshake scenario_connection
           warmed 100000%Z scenario_connection_finite
           scenario_connection_positive_rtt Hresp Logic.eq_refl Logic.eq_refl
           Logic.eq_refl).
Defined.

Lemma maximumSaturatedConnections_monotone_witness :
  0 < 150 ∧ 150 <= 150 ∧ 0 <= 1638400 ∧ 1638400 <= 3276800
  ∧ ∃ j j' : nat,
      maximumSaturatedConnections (Fin 150) (Fin 1638400) = Num.of_nat j
      ∧ maximumSaturatedConnections (Fin 150) (Fin 3276800) = Num.of_nat j'
      ∧ (j <= j')%nat.
Proof.
  assert (0 < 150) as H1 by reflexivity.
  assert (150 <= 150) as H2 by discriminate.
  assert (0 <= 1638400) as H3 by discriminate.
  assert (1638400 <= 3276800) as H4 by discriminate.
  split; [exact H1|]. split; [exact H2|]. split; [exact H3|]. split; [exact H4|].
  exact (maximumSaturatedConnections_monotone 150 150 1638400 3276800 H1 H2 H3 H4).
Defined.
End ConnectionWitnesses.

(* ===================================================================== *)
(** ** Further properties of the scheduler *)
(* ===================================================================== *)

Module EstimatorBlocked.
Import Estimator EstimatorFacts EstimatorProofs EstimatorLifecycle.

Section Blocked.
Variable this : Estimator.t.

Lemma bind_get {A B} (f : State → A) (k : A → E B) s :
  (get f ≫= k) s = k (f s) s.
Proof.
  unfold mbind, E_bind, get. by destruct (k (f s) s) as [h r].
Qed.

Lemma bind_ret {A B} (a : A) (k : A → E B) s :
  (mret a ≫= k) s = k a s.
Proof.
  unfold mbind, mret, E_bind, E_ret. by destruct (k a s) as [h r].
Qed.

(** A call that changes nothing, followed by another. *)
Lemma bind_unchanged {A B} (m : E A) (k : A → E B) a s :
  m s = ([], Ret (a, s)) → (m ≫= k) s = k a s.
Proof.
  intros H. unfold mbind, E_bind. rewrite H. by destruct (k a s) as [h r].
Qed.

(** *** Containers in which nothing runs and nothing can start *)

Lemma updateNetworkCapacity_idle s :
  _connectionsInUse s = [] → _updateNetworkCapacity this s = ([], Ret (tt, s)).
Proof. intros Hu. unfold _updateNetworkCapacity. by rewrite bind_get, Hu. Qed.

Lemma findNextNodeCompletionTime_idle s :
  _nodesInProcess s = [] →
  _findNextNodeCompletionTime this s = ([], Ret (PInf, s)).
Proof. intros Hs. unfold _findNextNodeCompletionTime. by rewrite bind_get, Hs. Qed.

(** A pass of the loop over idle containers changes nothing, and adds
    [Infinity] to the time. *)
Lemma iteration_idle totalElapsedTime s :
  idle this s →
  iteration this totalElapsedTime s
  = ([], Ret ((totalElapsedTime + PInf)%num, s)).
Proof.
  intros (Hs & Hu & Hstart). unfold iteration.
  rewrite bind_get.
  rewrite (bind_unchanged _ _ tt s (Hstart totalElapsedTime)).
  rewrite (bind_unchanged _ _ tt s (updateNetworkCapacity_idle s Hu)).
  rewrite (bind_unchanged _ _ PInf s (findNextNodeCompletionTime_idle s Hs)).
  rewrite bind_get, Hs. cbn [for_of]. by rewrite bind_ret.
Qed.

Lemma truthy_size (l : list NodeId) : Num.truthy (JSSet.size l) = true ↔ l ≠ [].
Proof.
  destruct l as [|n l]; [done|]. split; [done|]. intros _.
  unfold JSSet.size, Num.of_nat, Num.of_Z, Num.truthy.
  apply negb_true_iff. destruct (Qeq_bool _ _) eqn:E; [|done].
  apply Qeq_bool_eq in E. apply (proj1 (inject_Z_injective _ 0%Z)) in E.
  simpl in E. lia.
Qed.

(** The loop over idle containers with a node in the queue goes on
    until the depth limit. *)
Lemma main_loop_idle budget totalElapsedTime s :
  idle this s → _nodesInQueue s ≠ [] →
  main_loop this budget totalElapsedTime s
  = ([], Throw MaximumDepthExceeded).
Proof.
  intros Hidle Hq. revert totalElapsedTime.
  apply truthy_size in Hq.
  induction budget as [|budget IH]; intros totalElapsedTime;
    cbn [main_loop]; rewrite !bind_get, Hq; cbn [orb];
    rewrite (bind_unchanged _ _ _ s (iteration_idle _ _ Hidle)).
  - done.
  - apply IH.
Qed.

Hypothesis Hlimit : (_maximumConcurrentRequests this <= 0%Z)%num.

(** With no node in flight and a limit of 0 or less, no node is
    started. *)
Lemma startNodeIfPossible_blocked n totalElapsedTime s :
  _nodesInProcess s = [] →
  _startNodeIfPossible this n totalElapsedTime s = ([], Ret (tt, s)).
Proof.
  intros Hs. unfold _startNodeIfPossible.
  destruct (data (node (_graph this) n)) as [record|]; [|done].
  rewrite !bind_get, Hs.
  change (Num.geb (JSSet.size []) (_maximumConcurrentRequests this))
    with (Num.leb (_maximumConcurrentRequests this) 0%Z).
  by rewrite Hlimit.
Qed.

Lemma start_all_blocked nodes totalElapsedTime s :
  _nodesInProcess s = [] →
  for_of nodes (λ n, _startNodeIfPossible this n totalElapsedTime) s
  = ([], Ret (tt, s)).
Proof.
  intros Hs. induction nodes as [|n nodes IH]; [done|].
  cbn [for_of].
  by rewrite (bind_unchanged _ _ tt s (startNodeIfPossible_blocked _ _ _ Hs)).
Qed.

Lemma initial_state_idle : idle this (initial_state this).
Proof.
  split; [done|]. split; [done|]. intros t. by apply start_all_blocked.
Qed.

Lemma run_blocked : run this = ([], Throw MaximumDepthExceeded).
Proof. unfold run. apply main_loop_idle; [apply initial_state_idle|done]. Qed.

Lemma estimate_blocked : estimate this = Throw MaximumDepthExceeded.
Proof. unfold estimate. by rewrite run_blocked. Qed.
End Blocked.
End EstimatorBlocked.

Section BlockedProperties.
Import Estimator EstimatorFacts EstimatorProofs EstimatorLifecycle.
Import EstimatorBlocked TcpConnectionFacts.

(** X9.  Without capacity nothing runs.  When the concurrency limit the
    constructor computed is 0 or less, [estimate] starts no node and changes
    none of its containers: every pass of its loop adds [Infinity] to the
    time, and it fails with 'Maximum depth exceeded', whatever the graph. *)
Theorem estimate_blocked_without_capacity (this : Estimator.t) :
  (_maximumConcurrentRequests this <= 0%Z)%num →
  estimate this = Throw MaximumDepthExceeded
  ∧ history this = [initial_state this].
Proof.
  intros Hlimit. split; [by apply estimate_blocked|].
  unfold history. by rewrite run_blocked.
Qed.
End BlockedProperties.

Section SlowLink.
Import Estimator EstimatorFacts EstimatorProofs EstimatorBlocked.
Import TcpConnectionFacts EstimatorLimit.

(** X10.  A link too slow for one request.  When the throughput is below the
    minimum a single request needs, [(1000 / rtt) × 1460 × 8] bits/s (any
    finite throughput when the rtt is 0), the number of saturated
    connections is 0, so is the concurrency limit, and [estimate] fails
    with 'Maximum depth exceeded' on every graph.  The rtt and the
    throughput are not negative and the configured
    [maximumConcurrentRequests] is a natural number. *)
Theorem estimate_fails_below_minimum_throughput
    (graph : Graph) (options : Options) (k : nat) :
  let o_rtt := default DEFAULT_RTT (rtt options) in
  let o_throughput := default DEFAULT_THROUGHPUT (throughput options) in
  nonnegative o_rtt → nonnegative o_throughput →
  (o_throughput < 1000%Z / o_rtt * TCP_SEGMENT_SIZE * 8%Z)%num →
  default DEFAULT_MAXIMUM_CONCURRENT_REQUESTS (maximumConcurrentRequests options)
  = Num.of_nat k →
  TcpConnection.maximumSaturatedConnections o_rtt o_throughput = 0%Z
  ∧ estimate (constructor graph options) = Throw MaximumDepthExceeded.
Proof.
  intros o_rtt o_throughput (r & Hr & Hr0) (t & Ht & Ht0) Hlt Hk.
  assert (TcpConnection.maximumSaturatedConnections o_rtt o_throughput = 0%Z)
    as Hsat.
  { clearbody o_rtt o_throughput. subst o_rtt o_throughput.
    revert Hlt. unfold TcpConnection.maximumSaturatedConnections, TCP_SEGMENT_SIZE.
    unfold Num.of_Z. unfold Num.div at 1 3.
    destruct (Qeq_bool r 0) eqn:Hr1.
    - (* an rtt of 0 *)
      intros _. reflexivity.
    - assert (¬ r == 0) as Hne by (intros H; apply Qeq_bool_iff in H; congruence).
      unfold Num.mul, Num.fin.
      set (d := Qred (Qred (Qred (inject_Z 1000 / r) * inject_Z 1460) * inject_Z 8)).
      intros Hlt. apply NumFacts.ltb_fin in Hlt. clearbody d.
      assert (0 < d) as Hd0 by (clear -Hlt Ht0; lra).
      unfold Num.div.
      destruct (Qeq_bool d 0) eqn:Hd1; [apply Qeq_bool_eq in Hd1; lra|].
      unfold Num.fin.
      assert (0 <= Qred (t / d) < 1) as [H0 H1].
      { rewrite Qred_correct. split.
        - apply Qle_shift_div_l; [done|]. by rewrite Qmult_0_l.
        - apply Qlt_shift_div_r; [done|]. lra. }
      set (x := Qred (t / d)) in *. clearbody x.
      pose proof (Qfloor_le x) as Hf1.
      assert (inject_Z (Qfloor x) < inject_Z 1) as Hf3
        by (apply Qle_lt_trans with x; [apply Qfloor_le|exact H1]).
      pose proof (Qfloor_resp_le 0 x H0) as Hf4. change (Qfloor 0) with 0%Z in Hf4.
      rewrite <- Zlt_Qlt in Hf3. cbn [Num.floor]. unfold Num.of_Z.
      f_equal. f_equal. lia. }
  split; [done|]. apply estimate_blocked.
  unfold constructor. cbn [_maximumConcurrentRequests].
  fold o_rtt o_throughput. rewrite Hsat, Hk.
  change (Num.of_Z 0) with (Num.of_nat 0). rewrite min_of_nat.
  by rewrite Nat.min_0_l.
Qed.
End SlowLink.

Section SingleRequest.
Import Estimator EstimatorFacts EstimatorProofs EstimatorSingle.
Import TcpConnectionFacts Examples.

End SingleRequest.

(** *** The statements above at concrete inputs *)

Section SchedulerWitnesses.
Import Estimator EstimatorFacts TcpConnectionFacts Examples.

Lemma estimate_blocked_without_capacity_witness :
  let this := constructor single_request_graph (with_throughput 70000) in
  (_maximumConcurrentRequests this <= 0%Z)%num
  ∧ estimate this = Throw MaximumDepthExceeded
  ∧ history this = [initial_state this].
Proof.
  intros this.
  assert (_maximumConcurrentRequests this <= 0%Z)%num as Hlimit by reflexivity.
  split; [exact Hlimit|].
  exact (estimate_blocked_without_capacity this Hlimit).
Defined.

Lemma estimate_fails_below_minimum_throughput_witness :
  nonnegative DEFAULT_RTT ∧ nonnegative (Num.of_Z 70000)
  ∧ (Num.of_Z 70000 < 1000%Z / DEFAULT_RTT * TCP_SEGMENT_SIZE * 8%Z)%num
  ∧ DEFAULT_MAXIMUM_CONCURRENT_REQUESTS = Num.of_nat 10
  ∧ TcpConnection.maximumSaturatedConnections DEFAULT_RTT (Num.of_Z 70000) = 0%Z
  ∧ estimate (constructor single_request_graph (with_throughput 70000))
    = Throw MaximumDepthExceeded.
Proof.
  assert (nonnegative DEFAULT_RTT) as H1.
  { exists (inject_Z 150). split; [reflexivity|discriminate]. }
  assert (nonnegative (Num.of_Z 70000)) as H2.
  { exists (inject_Z 70000). split; [reflexivity|discriminate]. }
  assert (Num.of_Z 70000 < 1000%Z / DEFAULT_RTT * TCP_SEGMENT_SIZE * 8%Z)%num
    as H3 by reflexivity.
  split; [exact H1|]. split; [exact H2|]. split; [exact H3|].
  split; [reflexivity|].
  exact (estimate_fails_below_minimum_throughput single_request_graph
           (with_throughput 70000) 10 H1 H2 H3 Logic.eq_refl).
Defined.

End SchedulerWitnesses.
(* ===================================================================== *)
(** ** Grouping of records and the initial connections *)
(* ===================================================================== *)

Module GroupByFacts.
Import Estimator EstimatorInit.

Section GroupBy.
Context {A : Type} (keyFunc : A → nat).

Local Abbreviation step :=
  (fun (grouped : list (nat * list A)) item =>
     let key := keyFunc item in
     let group := default [] (map_get key grouped) in
     map_set key (group ++ [item]) grouped).

Local Abbreviation with_key k := (filter (λ x, keyFunc x = k)).

Lemma map_set_keys key (group : list A) grouped :
  (map_set key group grouped).*1
  = if bool_decide (key ∈ grouped.*1) then grouped.*1
    else grouped.*1 ++ [key].
Proof.
  induction grouped as [|[k g] grouped IH]; [done|].
  cbn [map_set]. destruct (Nat.eqb k key) eqn:E.
  - apply Nat.eqb_eq in E as ->. cbn [fmap list_fmap fst].
    rewrite bool_decide_eq_true_2; [done|]. by left.
  - apply Nat.eqb_neq in E. cbn [fmap list_fmap fst] in *. rewrite IH.
    destruct (bool_decide (key ∈ grouped.*1)) eqn:Hin.
    + apply bool_decide_eq_true in Hin.
      rewrite bool_decide_eq_true_2; [done|]. by right.
    + apply bool_decide_eq_false in Hin.
      rewrite bool_decide_eq_false_2; [done|].
      intros [?|?]%elem_of_cons; [congruence|done].
Qed.

Lemma map_get_None key (grouped : list (nat * list A)) :
  map_get key grouped = None ↔ key ∉ grouped.*1.
Proof.
  induction grouped as [|[k g] grouped IH]; cbn [map_get fmap list_fmap fst].
  - split; [intros _ H; by apply elem_of_nil in H|done].
  - destruct (Nat.eqb k key) eqn:E.
    + apply Nat.eqb_eq in E as ->. split; [done|]. intros H. destruct H. by left.
    + apply Nat.eqb_neq in E. rewrite IH, not_elem_of_cons.
      split; [intros H; split; [congruence|done]|by intros [_ H]].
Qed.

(** The fold of [groupBy], from any map built so far. *)
Lemma groupBy_fold items : ∀ grouped k,
  map_get k (fold_left step items grouped)
  = match with_key k items with
    | [] => map_get k grouped
    | new => Some (default [] (map_get k grouped) ++ new)
    end.
Proof.
  induction items as [|item items IH]; intros grouped k; [done|].
  cbn [fold_left]. rewrite IH. rewrite filter_cons.
  destruct (decide (keyFunc item = k)) as [<-|Hne].
  - rewrite map_get_set_eq. cbn [default].
    destruct (with_key (keyFunc item) items) as [|y ys].
    + done.
    + unfold id. by rewrite <- app_assoc.
  - by rewrite map_get_set_ne.
Qed.

Lemma groupBy_fold_NoDup items : ∀ grouped : list (nat * list A),
  NoDup grouped.*1 → NoDup (fold_left step items grouped).*1.
Proof.
  induction items as [|item items IH]; intros grouped Hnd; [done|].
  cbn [fold_left]. apply IH. rewrite map_set_keys.
  destruct (bool_decide _) eqn:Hin; [done|].
  apply bool_decide_eq_false in Hin.
  apply NoDup_app. split; [done|]. split; [|apply NoDup_singleton].
  intros x Hx ->%list_elem_of_singleton. done.
Qed.
End GroupBy.
End GroupByFacts.

Section GroupByProperties.
Import Estimator GroupByFacts.

(** X12.  [groupBy] files every item under its key and keeps the order: the group
    stored for a key is the list of the items with that key, in the order
    of [items]; a key that no item has is absent from the map; and no key
    is stored twice. *)
Theorem groupBy_groups {A : Type} (keyFunc : A → nat) (items : list A) :
  (∀ key,
      map_get key (groupBy keyFunc items)
      = match filter (λ item, keyFunc item = key) items with
        | [] => None
        | group => Some group
        end)
  ∧ NoDup (groupBy keyFunc items).*1.
Proof.
  split.
  - intros key. unfold groupBy. rewrite groupBy_fold. cbn [map_get default].
    by destruct (filter _ items).
  - unfold groupBy. apply groupBy_fold_NoDup. constructor.
Qed.
End GroupByProperties.

Module ConnectionsFacts.
Import Estimator EstimatorInit GroupByFacts.

Section Connections.
Variable this : Estimator.t.

Lemma connections_fold_lookup grouped :
  ∀ (init : gmap ConnectionId TcpConnection.t) id,
  NoDup grouped.*1 →
  fold_left (fun connections '(connectionId, records) =>
               <[connectionId := connectionFor this records]> connections)
            grouped init !! id
  = match map_get id grouped with
    | Some records => Some (connectionFor this records)
    | None => init !! id
    end.
Proof.
  induction grouped as [|[k g] grouped IH]; intros init id Hnd; [done|].
  cbn [fmap list_fmap fst] in Hnd. apply NoDup_cons in Hnd as [Hk Hnd].
  cbn [fold_left map_get]. rewrite IH by done.
  destruct (Nat.eqb k id) eqn:E.
  - apply Nat.eqb_eq in E as ->.
    apply map_get_None in Hk. rewrite Hk. apply lookup_insert_eq.
  - apply Nat.eqb_neq in E. destruct (map_get id grouped); [done|].
    by apply lookup_insert_ne.
Qed.

(** [getResponseTime] yields a measured time that is neither 0 nor NaN,
    or [Infinity]. *)
Lemma getResponseTime_cases record :
  getResponseTime record = PInf
  ∨ Num.truthy (getResponseTime record) = true.
Proof.
  unfold getResponseTime. destruct (_timing record) as [timing|]; [|by left].
  destruct (Num.truthy _) eqn:E; [by right|by left].
Qed.

Lemma truthy_not_NaN a : Num.truthy a = true → a ≠ NaN.
Proof. by destruct a. Qed.

Lemma getResponseTime_not_NaN record : getResponseTime record ≠ NaN.
Proof.
  destruct (getResponseTime_cases record) as [->|H]; [done|].
  by apply truthy_not_NaN.
Qed.

Lemma min_cases a b :
  a ≠ NaN → b ≠ NaN →
  Num.min a b ≠ NaN ∧ (Num.min a b = a ∨ Num.min a b = b).
Proof.
  intros Ha Hb. destruct a, b; try done; unfold Num.min;
    destruct (Num.leb _ _); auto.
Qed.

(** The minimum the fold of [connectionFor] computes. *)
Lemma responseTime_fold records : ∀ init,
  init ≠ NaN →
  let m := fold_left (fun min record => Num.min min (getResponseTime record))
             records init in
  m ≠ NaN
  ∧ Num.leb m init = true
  ∧ (∀ record, record ∈ records → Num.leb m (getResponseTime record) = true)
  ∧ (m = init ∨ ∃ record, record ∈ records ∧ m = getResponseTime record).
Proof.
  induction records as [|r records IH]; intros init Hinit; cbn [fold_left].
  - split; [done|].
    split; [destruct init; try done; apply NumFacts.leb_fin; lra|].
    split; [|by left]. intros record H. by apply elem_of_nil in H.
  - pose proof (getResponseTime_not_NaN r) as Hr.
    destruct (min_cases init (getResponseTime r) Hinit Hr) as [Hm Hcases].
    destruct (IH _ Hm) as (IH1 & IH2 & IH3 & IH4).
    split; [done|]. split; [|split].
    + eapply NumFacts.leb_trans; [exact IH2|]. by apply NumFacts.min_le_l.
    + intros record [->|H]%elem_of_cons; [|by apply IH3].
      eapply NumFacts.leb_trans; [exact IH2|]. by apply NumFacts.min_le_r.
    + destruct IH4 as [IH4|(record & Hin & IH4)].
      * destruct Hcases as [Hc|Hc]; [left; congruence|].
        right. exists r. split; [by left|congruence].
      * right. exists record. split; [by right|done].
Qed.
End Connections.
End ConnectionsFacts.

Section InitializationProperties.
Import Estimator EstimatorFacts ConnectionsFacts GroupByFacts.

(** X13.  One connection per connection id.  [estimate] starts with a connection
    for every connection id that a record of a traversed NETWORK node has,
    and with no other: the connection stored under an id is the one
    [_initializeNetworkConnections] builds from all the records with that
    id, in the order of the traversal. *)
Theorem initial_connections_by_id (this : Estimator.t) (id : ConnectionId) :
  _connections (initial_state this) !! id
  = match filter (λ record, connectionId record = id)
                 (_initializeNetworkRecords this) with
    | [] => None
    | records => Some (connectionFor this records)
    end.
Proof.
  unfold initial_state, _initializeAuxiliaryData, set_nodesInQueue.
  cbn [_connections]. unfold _initializeNetworkConnections.
  rewrite connections_fold_lookup.
  - unfold groupBy. rewrite groupBy_fold. cbn [map_get default].
    rewrite lookup_empty. by destruct (filter _ _).
  - unfold groupBy. apply groupBy_fold_NoDup. constructor.
Qed.

(** X14.  How a connection is set up.  The connection built for a group of
    records has the rtt and the throughput of the estimator, is not warmed,
    starts with a congestion window of 10 segments, and uses TLS exactly
    when the scheme of the first record is 'https'.  Its response time is
    the least response time measured for a record of the group, when that
    is a finite number, and the default response time otherwise; measured
    times that are 0 or NaN, and records without timing, count as
    [Infinity]. *)
Theorem connectionFor_setup (this : Estimator.t)
    (first : NetworkRecord) (others : list NetworkRecord) :
  let records := first :: others in
  let connection := connectionFor this records in
  let least :=
    fold_left (fun min record => Num.min min (getResponseTime record))
              records PInf in
  TcpConnection._rtt connection = _rtt this
  ∧ TcpConnection._availableThroughput connection = _throughput this
  ∧ TcpConnection._warmed connection = false
  ∧ TcpConnection._congestionWindow connection = 10%Z
  ∧ TcpConnection._ssl connection = String.eqb (scheme first) "https"
  ∧ TcpConnection._responseTime connection
    = (if Num.isFinite least then least else _defaultResponseTime this)
  ∧ (∀ record, record ∈ records → (least <= getResponseTime record)%num)
  ∧ (Num.isFinite least = true →
     ∃ record timing,
       record ∈ records ∧ _timing record = Some timing
       ∧ least = (receiveHeadersEnd timing - sendEnd timing)%num
       ∧ Num.truthy least = true).
Proof.
  intros records connection least.
  destruct (responseTime_fold records PInf) as (_ & _ & Hle & Hcases); [done|].
  fold least in Hle, Hcases.
  repeat (split; [reflexivity|]).
  split; [unfold connection, connectionFor; cbn [TcpConnection._responseTime
            TcpConnection.constructor]; fold least; by destruct (Num.isFinite least)|].
  split; [exact Hle|].
  intros Hfin. destruct Hcases as [Hc|(record & Hin & Hc)].
  - by rewrite Hc in Hfin.
  - exists record. unfold getResponseTime in Hc.
    destruct (_timing record) as [timing|]; [|by rewrite Hc in Hfin].
    exists timing. split; [done|]. split; [done|].
    destruct (Num.truthy _) eqn:E; [|by rewrite Hc in Hfin].
    by rewrite Hc.
Qed.
End InitializationProperties.
(* ===================================================================== *)
(** ** The order in which the scheduler handles the nodes *)
(* ===================================================================== *)

Module EstimatorOrder.
Import Estimator EstimatorFacts EstimatorProofs EstimatorLifecycle.

Lemma chain_frame {B} (f : State → B) s h :
  chain (λ a b, f a = f b) s h → Forall (λ b, f b = f s) h.
Proof.
  revert s. induction h as [|x h IH]; intros s; simpl; [constructor|].
  intros [Hx Hh]. constructor; [done|].
  eapply Forall_impl; [by apply IH|]. intros b Hb. cbv beta in *. congruence.
Qed.

Lemma Forall_last (P : State → Prop) h s :
  Forall P h → P s → P (List.last h s).
Proof.
  revert s. induction h as [|x h IH]; intros s Hh Hs; [done|].
  rewrite last_cons_state. apply Forall_cons in Hh as [Hx Hh]. by apply IH.
Qed.

(** A call that leaves [f] of the containers alone keeps every property
    that depends on [f] only. *)
Lemma wp_frame {A B} (f : State → B) (P : State → Prop) X N (m : E A) Q s :
  (∀ a b, f a = f b → P a → P b) →
  wp X N (λ a b, f a = f b) m Q s → P s →
  wp X N (λ _ b, P b) m (λ a s', Q a s' ∧ f s' = f s ∧ P s') s.
Proof.
  intros Hext [Hh Hr] HP.
  apply chain_frame in Hh.
  assert (Forall P (m s).1) as HPh.
  { eapply Forall_impl; [exact Hh|]. intros b Hb. apply (Hext s); [done|done]. }
  split; [by apply chain_Forall|].
  destruct (m s).2 as [[a s']|e|]; [|done..].
  destruct Hr as [-> HQ]. split; [done|]. split; [done|].
  split; by apply Forall_last.
Qed.

Section Methods.
Variable this : Estimator.t.

Local Abbreviation any := (λ _ : Error, True).
Local Abbreviation same := (λ a b : State, node_sets a = node_sets b).

(** *** Calls that leave the sets of nodes alone *)

Lemma onConnection_sets {A} id (m : TcpConnection.M A) s :
  wp any True same (onConnection id m) (λ _ _, True) s.
Proof.
  wp_step. destruct (_connections s !! id) as [c|]; [|done].
  by destruct (m c) as [[a c']|].
Qed.

Lemma updateNetworkCapacity_sets s :
  wp any True same (_updateNetworkCapacity this) (λ _ _, True) s.
Proof.
  unfold _updateNetworkCapacity. wp_step. wp_step.
  apply (wp_for_of _ _ _ (λ _ _, True)); [done|]. intros id _ s' _.
  wp_step. wp_step. apply onConnection_sets.
Qed.

Lemma estimateTimeRemaining_sets n s :
  wp any True same (_estimateTimeRemaining this n) (λ _ _, True) s.
Proof.
  unfold _estimateTimeRemaining.
  destruct (data (node (_graph this) n)) as [record|]; [|by wp_step].
  wp_step. wp_step. wp_step. wp_step.
  destruct (_nodeAuxiliaryData s !! n) as [aux|]; [|done].
  wp_step. eapply wp_mono; [apply onConnection_sets|].
  intros r s' _. cbv beta. by repeat (wp_step; try done).
Qed.

Lemma findNext_sets nodes minimumTime s :
  wp any True same (findNext this nodes minimumTime) (λ _ _, True) s.
Proof.
  revert minimumTime s.
  induction nodes as [|m nodes IH]; intros minimumTime s; simpl.
  - by wp_step.
  - wp_step. eapply wp_mono; [apply estimateTimeRemaining_sets|].
    intros e s' _. apply IH.
Qed.
End Methods.
End EstimatorOrder.

Module EstimatorInOrder.
Import Estimator EstimatorFacts EstimatorProofs EstimatorLifecycle EstimatorOrder.

Section Methods.
Variable this : Estimator.t.

Local Abbreviation any := (λ _ : Error, True).
Local Abbreviation J := (λ _ s' : State, in_order this s').

Lemma in_order_sets a b :
  node_sets a = node_sets b → in_order this a → in_order this b.
Proof.
  unfold node_sets. intros [= Hq Hp Hc _] Ha n.
  unfold handled, released, dependencies_completed.
  rewrite <- Hq, <- Hp, <- Hc. apply Ha.
Qed.

Lemma released_mono s s' n :
  (∀ m, m ∈ _nodesCompleted s → m ∈ _nodesCompleted s') →
  released this s n → released this s' n.
Proof. intros Hsub [->|H]; [by left|]. right. intros d Hd. auto. Qed.

(** A call that leaves the sets of nodes alone keeps the order. *)
Lemma frame_order {A} (m : E A) s :
  (∀ s, wp any True (λ a b, node_sets a = node_sets b) m (λ _ _, True) s) →
  in_order this s →
  wp any True J m
     (λ _ s', in_order this s' ∧ _nodesCompleted s' = _nodesCompleted s) s.
Proof.
  intros Hm Hs. eapply wp_mono.
  - apply (wp_frame node_sets (in_order this)); [apply in_order_sets|apply Hm|done].
  - cbv beta. intros a s' (_ & Hsets & Hs'). split; [done|].
    unfold node_sets in Hsets. by injection Hsets.
Qed.

Lemma enqueue_order d s :
  in_order this s →
  wp any True J (_enqueueNodeIfPossible this d)
     (λ _ s', in_order this s' ∧ _nodesCompleted s' = _nodesCompleted s) s.
Proof.
  intros Hs. unfold _enqueueNodeIfPossible. wp_step. wp_step.
  destruct (_ && _) eqn:Hcond; [|by wp_step].
  apply andb_true_iff in Hcond as [_ Hdeps].
  assert (in_order this (set_nodesInQueue (JSSet.add d) s)) as Hs'.
  { intros n. unfold handled, released, dependencies_completed. simpl_state.
    intros [[->|Hn]%elem_of_add|Hn].
    - right. intros x Hx. rewrite forallb_forall in Hdeps.
      specialize (Hdeps x). unfold JSSet.has in Hdeps.
      eapply bool_decide_eq_true_1. apply Hdeps. by apply list_elem_of_In.
    - apply Hs. by left.
    - apply Hs. by right. }
  by wp_step.
Qed.

Lemma start_order n totalElapsedTime s :
  in_order this s → released this s n →
  wp any True J (_startNodeIfPossible this n totalElapsedTime)
     (λ _ s', in_order this s' ∧ _nodesCompleted s' = _nodesCompleted s) s.
Proof.
  intros Hs Hn. unfold _startNodeIfPossible.
  destruct (data (node (_graph this) n)) as [record|]; [|by wp_step].
  do 3 (wp_step; wp_step).
  destruct (_ || _); [by wp_step|].
  wp_step. wp_step.
  destruct (_connections s !! connectionId record) as [c|]; [|done].
  assert (in_order this (set_nodesInQueue (JSSet.delete n) s)) as H1.
  { intros m. unfold handled, released, dependencies_completed. simpl_state.
    intros [[_ Hm]%elem_of_delete|Hm]; apply Hs; [by left|by right]. }
  assert (in_order this (set_nodesInProcess (JSSet.add n)
                           (set_nodesInQueue (JSSet.delete n) s))) as H2.
  { intros m. unfold handled. simpl_state.
    intros [Hm|[[->|Hm]%elem_of_add|Hm]].
    - apply H1. by left.
    - exact Hn.
    - apply Hs. right. by left.
    - apply Hs. right. by right. }
  wp_step. wp_step; [exact H1|].
  wp_step. wp_step; [exact H2|].
  wp_step. wp_step; [exact H2|].
  wp_step; [exact H2|]. by split.
Qed.

Lemma updateProgress_order n timePeriodLength totalElapsedTime s :
  in_order this s → released this s n →
  wp any True J
     (_updateProgressMadeInTimePeriod this n timePeriodLength totalElapsedTime)
     (λ _ s', in_order this s'
              ∧ ∀ m, m ∈ _nodesCompleted s → m ∈ _nodesCompleted s') s.
Proof.
  intros Hs Hn. unfold _updateProgressMadeInTimePeriod.
  destruct (data (node (_graph this) n)) as [record|]; [|by wp_step].
  wp_step. wp_step. wp_step. wp_step.
  destruct (_nodeAuxiliaryData s !! n) as [aux|]; [|done].
  wp_step. eapply wp_mono; [by apply frame_order, Hs; intros; apply onConnection_sets|].
  cbv beta. intros r s1 [Hs1 Hc1].
  wp_step. eapply wp_mono; [by apply frame_order, Hs1; intros; apply onConnection_sets|].
  cbv beta. intros [] s2 [Hs2 Hc2].
  destruct (strictly_equal _ _).
  - wp_step. wp_step; [exact Hs2|].
    wp_step.
    eapply wp_mono.
    { apply frame_order; [intros; apply onConnection_sets|]. exact Hs2. }
    cbv beta. intros [] s3 [Hs3 Hc3]. simpl_state.
    wp_step. wp_step; [exact Hs3|].
    assert (released this s3 n) as Hn3.
    { eapply released_mono; [|exact Hn]. intros m. by rewrite Hc3, Hc2, Hc1. }
    match goal with |- wp _ _ _ _ _ ?s4 =>
      assert (in_order this (set_nodesCompleted (JSSet.add n) s4)) as H5
    end.
    { intros m. unfold handled. simpl_state.
      intros Hm.
      assert (released this s3 m) as Hm3.
      { destruct Hm as [Hm|[Hm|[->|Hm]%elem_of_add]]; [..|done|];
          apply Hs3; unfold handled; auto. }
      eapply released_mono; [|exact Hm3]. simpl_state.
      intros x Hx. apply elem_of_add. by right. }
    wp_step. wp_step; [exact H5|].
    match goal with |- wp _ _ _ _ _ ?s5 =>
      assert (in_order this (set_nodesInProcess (JSSet.delete n) s5)) as H6
    end.
    { intros m. unfold handled. simpl_state.
      intros [Hm|[[_ Hm]%elem_of_delete|Hm]]; apply H5; unfold handled;
        simpl_state; auto. }
    wp_step. wp_step; [exact H6|].
    eapply wp_mono.
    { apply (wp_for_of _ _ _ (λ _ s', in_order this s'
               ∧ ∀ m, m ∈ _nodesCompleted s → m ∈ _nodesCompleted s')).
      - split; [exact H6|]. simpl_state. intros m Hm.
        apply elem_of_add. right. by rewrite Hc3, Hc2, Hc1.
      - intros d _ s' [Hs' Hsub]. eapply wp_mono; [by apply enqueue_order|].
        cbv beta. intros [] s'' [Hs'' Hc'']. split; [done|].
        intros m Hm. rewrite Hc''. by apply Hsub. }
    done.
  - wp_step; [by eapply in_order_sets; [|exact Hs2]|].
    split; [by eapply in_order_sets; [|exact Hs2]|].
    simpl_state. intros m. by rewrite Hc2, Hc1.
Qed.

Lemma iteration_order totalElapsedTime s :
  in_order this s →
  wp any True J (iteration this totalElapsedTime) (λ _, in_order this) s.
Proof.
  intros Hs. unfold iteration. wp_step. wp_step. wp_step.
  eapply wp_mono.
  { apply (wp_for_of _ _ _ (λ rest s', in_order this s'
             ∧ ∀ n, n ∈ rest → released this s' n)).
    - split; [done|]. intros n Hn. apply Hs. by left.
    - intros n rest s' [Hs' Hrest]. eapply wp_mono.
      + apply start_order; [done|]. apply Hrest. by left.
      + cbv beta. intros [] s'' [Hs'' Hc]. split; [done|].
        intros m Hm. eapply released_mono; [|apply Hrest; by right].
        intros x. by rewrite Hc. }
  cbv beta. intros [] s1 [Hs1 _]. wp_step.
  eapply wp_mono.
  { apply frame_order; [intros; apply updateNetworkCapacity_sets|exact Hs1]. }
  cbv beta. intros [] s2 [Hs2 _]. wp_step.
  unfold _findNextNodeCompletionTime. wp_step. wp_step.
  eapply wp_mono.
  { apply frame_order; [intros; apply findNext_sets|exact Hs2]. }
  cbv beta. intros minimumTime s3 [Hs3 _]. wp_step. wp_step. wp_step.
  eapply wp_mono.
  { apply (wp_for_of _ _ _ (λ rest s', in_order this s'
             ∧ ∀ n, n ∈ rest → released this s' n)).
    - split; [done|]. intros n Hn. apply Hs3. right. by left.
    - intros n rest s' [Hs' Hrest]. eapply wp_mono.
      + apply updateProgress_order; [done|]. apply Hrest. by left.
      + cbv beta. intros [] s'' [Hs'' Hsub]. split; [done|].
        intros m Hm. eapply released_mono; [exact Hsub|].
        apply Hrest. by right. }
  cbv beta. intros [] s4 [Hs4 _]. by wp_step.
Qed.

Lemma main_loop_order budget totalElapsedTime s :
  in_order this s →
  wp any True J (main_loop this budget totalElapsedTime) (λ _ _, True) s.
Proof.
  revert totalElapsedTime s.
  induction budget as [|budget IH]; intros totalElapsedTime s Hs; simpl.
  - wp_step. wp_step. wp_step. wp_step.
    destruct (_ || _); [|by wp_step].
    wp_step. eapply wp_mono; [by apply iteration_order|].
    intros t s' Hs'. cbv beta. by wp_step.
  - wp_step. wp_step. wp_step. wp_step.
    destruct (_ || _); [|by wp_step].
    wp_step. eapply wp_mono; [by apply iteration_order|].
    intros t s' Hs'. cbv beta. by apply IH.
Qed.

Lemma initial_state_order : in_order this (initial_state this).
Proof.
  intros n. unfold handled, initial_state, _initializeAuxiliaryData.
  simpl_state. intros [[->|Hn]%elem_of_add|[Hn|Hn]]; [by left|..];
    by apply elem_of_nil in Hn.
Qed.

Lemma history_order s : s ∈ history this → in_order this s.
Proof.
  destruct (main_loop_order (Z.to_nat 10000) 0%Z (initial_state this)
              initial_state_order) as [Hchain _].
  apply chain_Forall in Hchain. rewrite Forall_forall in Hchain.
  unfold history. intros [->|Hs]%elem_of_cons.
  - apply initial_state_order.
  - by apply Hchain.
Qed.
End Methods.
End EstimatorInOrder.

Section OrderProperties.
Import Estimator EstimatorFacts EstimatorLifecycle EstimatorInOrder.

(** X15.  Dependencies come first.  Throughout every run of [estimate], after
    each single change of its containers, every node that is queued, in
    process or completed either is the root of the graph or has all its
    dependencies among the completed nodes: no node other than the root is
    started, or finished, before all it depends on has finished. *)
Theorem estimate_respects_dependencies (this : Estimator.t) (s : State) (n : NodeId) :
  s ∈ history this →
  n ∈ _nodesInQueue s ∨ n ∈ _nodesInProcess s ∨ n ∈ _nodesCompleted s →
  n = getRootNode (_graph this)
  ∨ ∀ d, d ∈ getDependencies (node (_graph this) n) → d ∈ _nodesCompleted s.
Proof. intros Hs Hn. by apply (history_order this s Hs n). Qed.
End OrderProperties.

(** ** What the scheduler has done when it returns *)

Module EstimatorCompletion.
Import Estimator EstimatorFacts EstimatorProofs EstimatorLifecycle EstimatorOrder.

Section Methods.
Variable this : Estimator.t.
Hypothesis Hcons : dependents_consistent this.

Local Abbreviation any := (λ _ : Error, True).
Local Abbreviation J := (λ _ _ : State, True).

Local Abbreviation kept := (kept this).

Lemma kept_refl s : dependents_handled this s → kept s s.
Proof. by intros H. Qed.

Lemma kept_trans s1 s2 s3 : kept s1 s2 → kept s2 s3 → kept s1 s3.
Proof. intros (_ & H1 & H2) (H3 & H4 & H5). repeat split; auto. Qed.

Lemma dependents_handled_sets a b :
  node_sets a = node_sets b → dependents_handled this a →
  dependents_handled this b.
Proof.
  unfold node_sets. intros [= Hq Hp Hc _] Ha n d.
  unfold handled, dependencies_completed.
  rewrite <- Hq, <- Hp, <- Hc. apply Ha.
Qed.

Lemma kept_sets s s' :
  node_sets s' = node_sets s → dependents_handled this s → kept s s'.
Proof.
  intros Hsets Hs. split; [by eapply dependents_handled_sets|].
  unfold node_sets in Hsets. injection Hsets as Hq Hp Hc _.
  unfold handled. rewrite Hq, Hp, Hc. auto.
Qed.

Lemma frame_kept {A} (m : E A) s :
  (∀ s, wp any True (λ a b, node_sets a = node_sets b) m (λ _ _, True) s) →
  dependents_handled this s →
  wp any True J m (λ _ s', kept s s') s.
Proof.
  intros Hm Hs. eapply wp_weaken.
  - eapply wp_mono.
    + apply (wp_frame node_sets (λ _, True)); [done|apply Hm|done].
    + cbv beta. intros a s' (_ & Hsets & _). by apply kept_sets.
  - done.
  - done.
  - done.
Qed.

(** With the set of completed nodes as it is, more handled nodes do no
    harm. *)
Lemma kept_more s s' :
  _nodesCompleted s' = _nodesCompleted s →
  (∀ n, handled s n → handled s' n) →
  dependents_handled this s → kept s s'.
Proof.
  intros Hc Hh Hs. split; [|split; [intros n; by rewrite Hc|done]].
  intros n d Hn Hd Hdeps. apply Hh. apply (Hs n d).
  - by rewrite <- Hc.
  - done.
  - intros x Hx. rewrite <- Hc. by apply Hdeps.
Qed.

Lemma enqueue_kept d s :
  dependents_handled this s →
  wp any True J (_enqueueNodeIfPossible this d)
     (λ _ s', kept s s' ∧ _nodesCompleted s' = _nodesCompleted s
              ∧ (dependencies_completed this s d → handled s' d)) s.
Proof.
  intros Hs. unfold _enqueueNodeIfPossible. wp_step. wp_step.
  destruct (_ && _) eqn:Hcond.
  - wp_step; [done|]. split; [|split; [done|]].
    + apply kept_more; [done| |done]. unfold handled. simpl_state.
      intros n [Hn|Hn]; [left; apply elem_of_add; by right|by right].
    + intros _. left. simpl_state. apply elem_of_add. by left.
  - wp_step. split; [by apply kept_refl|]. split; [done|].
    intros Hdeps. apply andb_false_iff in Hcond as [Hc|Hc].
    + apply negb_false_iff in Hc. unfold JSSet.has in Hc.
      apply bool_decide_eq_true_1 in Hc. right. by right.
    + exfalso. apply not_true_iff_false in Hc. apply Hc.
      apply forallb_forall. intros x Hx. unfold JSSet.has.
      apply bool_decide_eq_true_2. apply Hdeps. by apply list_elem_of_In.
Qed.

Lemma start_kept n totalElapsedTime s :
  dependents_handled this s →
  wp any True J (_startNodeIfPossible this n totalElapsedTime)
     (λ _ s', kept s s') s.
Proof.
  intros Hs. unfold _startNodeIfPossible.
  destruct (data (node (_graph this) n)) as [record|];
    [|wp_step; by apply kept_refl].
  do 3 (wp_step; wp_step).
  destruct (_ || _); [wp_step; by apply kept_refl|].
  wp_step. wp_step.
  destruct (_connections s !! connectionId record) as [c|]; [|done].
  do 3 (wp_step; wp_step; [done|]). wp_step; [done|].
  apply kept_more; [done| |done]. unfold handled. simpl_state.
  intros m [Hm|[Hm|Hm]]; [|right; left; apply elem_of_add; by right|by right; right].
  destruct (decide (m = n)) as [->|Hne].
  - right. left. apply elem_of_add. by left.
  - left. by apply elem_of_delete.
Qed.

(** What [_enqueueNodeIfPossible] does, whatever the containers. *)
Lemma enqueue_spec d s :
  wp any True J (_enqueueNodeIfPossible this d)
     (λ _ s', _nodesCompleted s' = _nodesCompleted s
              ∧ _nodesInProcess s' = _nodesInProcess s
              ∧ (∀ m, m ∈ _nodesInQueue s → m ∈ _nodesInQueue s')
              ∧ (dependencies_completed this s d → handled s' d)) s.
Proof.
  unfold _enqueueNodeIfPossible. wp_step. wp_step.
  destruct (_ && _) eqn:Hcond.
  - wp_step; [done|]. simpl_state. split; [done|]. split; [done|]. split.
    + intros m Hm. apply elem_of_add. by right.
    + intros _. left. simpl_state. apply elem_of_add. by left.
  - wp_step. split; [done|]. split; [done|]. split; [done|].
    intros Hdeps. apply andb_false_iff in Hcond as [Hc|Hc].
    + apply negb_false_iff in Hc. unfold JSSet.has in Hc.
      apply bool_decide_eq_true_1 in Hc. right. by right.
    + exfalso. apply not_true_iff_false in Hc. apply Hc.
      apply forallb_forall. intros x Hx. unfold JSSet.has.
      apply bool_decide_eq_true_2. apply Hdeps. by apply list_elem_of_In.
Qed.

Lemma updateProgress_kept n timePeriodLength totalElapsedTime s :
  dependents_handled this s →
  wp any True J
     (_updateProgressMadeInTimePeriod this n timePeriodLength totalElapsedTime)
     (λ _ s', kept s s') s.
Proof.
  intros Hs. unfold _updateProgressMadeInTimePeriod.
  destruct (data (node (_graph this) n)) as [record|]; [|by wp_step].
  wp_step. wp_step. wp_step. wp_step.
  destruct (_nodeAuxiliaryData s !! n) as [aux|]; [|done].
  wp_step. eapply wp_mono; [by apply frame_kept; [intros; apply onConnection_sets|]|].
  cbv beta. intros r s1 Hk1.
  wp_step. eapply wp_mono;
    [by apply frame_kept; [intros; apply onConnection_sets|apply Hk1]|].
  cbv beta. intros [] s2 Hk2.
  pose proof (kept_trans _ _ _ Hk1 Hk2) as Hk. clear Hk1 Hk2.
  destruct (strictly_equal _ _).
  - wp_step. wp_step; [done|].
    wp_step. eapply wp_mono.
    { apply frame_kept; [intros; apply onConnection_sets|].
      eapply dependents_handled_sets; [|apply Hk]. done. }
    cbv beta. intros [] s3 Hk3.
    assert (kept s s3) as Hk'.
    { eapply kept_trans; [exact Hk|]. eapply kept_trans; [|exact Hk3].
      apply kept_sets; [done|apply Hk]. }
    clear Hk Hk3. destruct Hk' as (Hdh & Hcs & Hhs).
    do 3 (wp_step; wp_step; [done|]).
    set (s6 := set_nodesInProcess (JSSet.delete n)
                 (set_nodesCompleted (JSSet.add n)
                    (set_connectionsInUse (JSSet.delete (connectionId record))
                       s3))).
    assert (∀ m, handled s3 m → handled s6 m) as Hh6.
    { unfold handled, s6. simpl_state. intros m [Hm|[Hm|Hm]]; [by left| |].
      - destruct (decide (m = n)) as [->|Hne].
        + right; right. apply elem_of_add. by left.
        + right; left. by apply elem_of_delete.
      - right; right. apply elem_of_add. by right. }
    assert (∀ m, m ∈ _nodesCompleted s6 ↔ m = n ∨ m ∈ _nodesCompleted s3)
      as Hc6 by (intros m; unfold s6; simpl_state; apply elem_of_add).
    eapply wp_mono.
    { apply (wp_for_of _ _ _ (λ rest s',
               _nodesCompleted s' = _nodesCompleted s6
               ∧ _nodesInProcess s' = _nodesInProcess s6
               ∧ (∀ m, m ∈ _nodesInQueue s6 → m ∈ _nodesInQueue s')
               ∧ (∀ d, d ∈ getDependents (node (_graph this) n) → d ∉ rest →
                       dependencies_completed this s6 d → handled s' d))).
      - split; [done|]. split; [done|]. split; [done|].
        intros d Hd Hnot. done.
      - intros d rest s' (Hc' & Hp' & Hq' & Hdone).
        eapply wp_mono; [apply enqueue_spec|]. cbv beta.
        intros [] s'' (Hc'' & Hp'' & Hq'' & Hd'').
        split; [congruence|]. split; [congruence|]. split; [auto|].
        intros x Hx Hnot Hdeps.
        destruct (decide (x = d)) as [->|Hne].
        + apply Hd''. intros y Hy. rewrite Hc'. by apply Hdeps.
        + assert (x ∉ d :: rest) as Hnot'
            by (intros [?|?]%elem_of_cons; done).
          destruct (Hdone x Hx Hnot' Hdeps) as [H|[H|H]].
          * left. by apply Hq''.
          * right; left. by rewrite Hp''.
          * right; right. by rewrite Hc''. }
    cbv beta. intros [] s7 (Hc7 & Hp7 & Hq7 & Hdone).
    assert (∀ m, handled s6 m → handled s7 m) as Hh7.
    { unfold handled. rewrite Hc7, Hp7. intros m [Hm|Hm]; [left; auto|by right]. }
    split; [|split].
    + intros m d Hm Hd Hdeps.
      assert (dependencies_completed this s6 d) as Hdeps6.
      { intros x Hx. rewrite <- Hc7. by apply Hdeps. }
      rewrite Hc7 in Hm. apply Hc6 in Hm.
      destruct (decide (n ∈ getDependencies (node (_graph this) d)))
        as [Hin|Hnin].
      * apply Hdone; [by apply Hcons|apply not_elem_of_nil|done].
      * destruct Hm as [->|Hm].
        -- apply Hdone; [done|apply not_elem_of_nil|done].
        -- apply Hh7, Hh6. apply (Hdh m d Hm Hd).
           intros x Hx. specialize (Hdeps6 x Hx).
           apply Hc6 in Hdeps6 as [->|H]; done.
    + intros m Hm. rewrite Hc7. apply Hc6. right. by apply Hcs.
    + intros m Hm. by apply Hh7, Hh6, Hhs.
  - wp_step; [done|]. eapply kept_trans; [exact Hk|].
    apply kept_sets; [done|apply Hk].
Qed.

Lemma for_of_kept {A} (xs : list A) (body : A → E unit) s :
  (∀ x s', dependents_handled this s' →
           wp any True J (body x) (λ _ s'', kept s' s'') s') →
  dependents_handled this s →
  wp any True J (for_of xs body) (λ _ s', kept s s') s.
Proof.
  intros Hbody Hs.
  apply (wp_for_of _ _ _ (λ _ s', kept s s')); [by apply kept_refl|].
  intros x _ s' Hk. eapply wp_mono; [apply Hbody, Hk|].
  cbv beta. intros [] s'' Hk'. exact (kept_trans _ _ _ Hk Hk').
Qed.

Lemma iteration_kept totalElapsedTime s :
  dependents_handled this s →
  wp any True J (iteration this totalElapsedTime) (λ _ s', kept s s') s.
Proof.
  intros Hs. unfold iteration. wp_step. wp_step. wp_step.
  eapply wp_mono; [by apply for_of_kept; [intros; by apply start_kept|]|].
  cbv beta. intros [] s1 Hk1. wp_step.
  eapply wp_mono;
    [by apply frame_kept; [intros; apply updateNetworkCapacity_sets|apply Hk1]|].
  cbv beta. intros [] s2 Hk2. wp_step.
  unfold _findNextNodeCompletionTime. wp_step. wp_step.
  eapply wp_mono;
    [by apply frame_kept; [intros; apply findNext_sets|apply Hk2]|].
  cbv beta. intros minimumTime s3 Hk3. wp_step. wp_step. wp_step.
  eapply wp_mono;
    [by apply for_of_kept; [intros; by apply updateProgress_kept|apply Hk3]|].
  cbv beta. intros [] s4 Hk4. wp_step.
  exact (kept_trans _ _ _ (kept_trans _ _ _ (kept_trans _ _ _ Hk1 Hk2) Hk3) Hk4).
Qed.

Lemma main_loop_kept budget totalElapsedTime s :
  dependents_handled this s →
  wp any True J (main_loop this budget totalElapsedTime)
     (λ _ s', kept s s'
              ∧ _nodesInQueue s' = [] ∧ _nodesInProcess s' = []) s.
Proof.
  assert (∀ l : list NodeId, Num.truthy (JSSet.size l) = false → l = [])
    as Hempty.
  { intros [|x l]; [done|]. unfold JSSet.size, Num.of_nat, Num.of_Z, Num.truthy.
    intros H. apply negb_false_iff, Qeq_bool_eq in H.
    apply (proj1 (inject_Z_injective _ 0%Z)) in H. simpl in H. lia. }
  revert totalElapsedTime s.
  induction budget as [|budget IH]; intros totalElapsedTime s Hs; simpl.
  - wp_step. wp_step. wp_step. wp_step.
    destruct (_ || _) eqn:Hcond.
    + wp_step. eapply wp_mono; [by apply iteration_kept|].
      intros t s' Hs'. cbv beta. by wp_step.
    + wp_step. apply orb_false_iff in Hcond as [Hq Hp].
      split; [by apply kept_refl|]. split; by apply Hempty.
  - wp_step. wp_step. wp_step. wp_step.
    destruct (_ || _) eqn:Hcond.
    + wp_step. eapply wp_mono; [by apply iteration_kept|].
      intros t s' Hk. cbv beta.
      eapply wp_mono; [apply IH, Hk|].
      cbv beta. intros t' s'' (Hk' & Hq & Hp). split; [|done].
      exact (kept_trans _ _ _ Hk Hk').
    + wp_step. apply orb_false_iff in Hcond as [Hq Hp].
      split; [by apply kept_refl|]. split; by apply Hempty.
Qed.

Lemma initial_state_dependents : dependents_handled this (initial_state this).
Proof.
  intros n d. unfold initial_state, _initializeAuxiliaryData. simpl_state.
  intros Hn. by apply elem_of_nil in Hn.
Qed.

(** When the run returns, everything that could run has run. *)
Lemma run_completes totalElapsedTime s :
  (run this).2 = Ret (totalElapsedTime, s) →
  _nodesInQueue s = [] ∧ _nodesInProcess s = []
  ∧ getRootNode (_graph this) ∈ _nodesCompleted s
  ∧ dependents_handled this s.
Proof.
  intros Hrun.
  destruct (main_loop_kept (Z.to_nat 10000) 0%Z (initial_state this)
              initial_state_dependents) as [_ H].
  unfold run in Hrun. rewrite Hrun in H.
  destruct H as (_ & (Hdh & _ & Hh) & Hq & Hp).
  split; [done|]. split; [done|]. split; [|done].
  destruct (Hh (getRootNode (_graph this))) as [H|[H|H]]; [| | |done].
  - left. unfold initial_state. simpl_state. apply elem_of_add. by left.
  - rewrite Hq in H. by apply elem_of_nil in H.
  - rewrite Hp in H. by apply elem_of_nil in H.
Qed.
End Methods.
End EstimatorCompletion.

Section CompletionProperties.
Import Estimator EstimatorFacts EstimatorLifecycle EstimatorCompletion.

(** X16.  When [estimate] returns, all that could run has run.  For a graph in
    which every node is among the dependents of each of its dependencies:
    when the run returns, no node is left in the queue or in process, the
    root is completed, and every dependent of a completed node, all of
    whose dependencies are completed, is completed too. *)
Theorem estimate_returns_when_all_done
    (this : Estimator.t) (totalElapsedTime : num) (s : State) :
  (∀ n d, d ∈ getDependencies (node (_graph this) n) →
          n ∈ getDependents (node (_graph this) d)) →
  snd (run this) = Ret (totalElapsedTime, s) →
  _nodesInQueue s = [] ∧ _nodesInProcess s = []
  ∧ getRootNode (_graph this) ∈ _nodesCompleted s
  ∧ ∀ n d, n ∈ _nodesCompleted s → d ∈ getDependents (node (_graph this) n) →
           (∀ x, x ∈ getDependencies (node (_graph this) d) →
                 x ∈ _nodesCompleted s) →
           d ∈ _nodesCompleted s.
Proof.
  intros Hcons Hrun.
  destruct (run_completes this Hcons totalElapsedTime s Hrun)
    as (Hq & Hp & Hroot & Hdh).
  split; [done|]. split; [done|]. split; [done|].
  intros n d Hn Hd Hdeps. destruct (Hdh n d Hn Hd Hdeps) as [H|[H|H]]; [| |done].
  - rewrite Hq in H. by apply elem_of_nil in H.
  - rewrite Hp in H. by apply elem_of_nil in H.
Qed.
End CompletionProperties.

(** ** The estimate is a finite time *)

Module EstimatorTotal.
Import Estimator EstimatorFacts EstimatorProofs EstimatorStructure.
Import EstimatorNumeric EstimatorInit EstimatorLoop.
Import EstimatorLifecycle EstimatorOrder EstimatorBlocked.




Section Methods.
Variable this : Estimator.t.



Local Abbreviation any := (λ _ : Error, True).
Local Abbreviation busy :=
  (λ a b : State, _nodesInProcess a ≠ [] → _nodesInProcess b ≠ []).




(** *** The time stays finite *)
Hypothesis Hfin : finite_inputs this.

Local Abbreviation closed := (traverse_closed (_graph this)).
Local Abbreviation X := (λ e : Error, closed → e = MaximumDepthExceeded).
Local Abbreviation N := (closed → False).
Local Abbreviation J := (λ _ s' : State, aux_always s').

Lemma start_phase_full totalElapsedTime s :
  full_inv this s →
  wp X N J
     (for_of (_nodesInQueue s)
             (λ n, _startNodeIfPossible this n totalElapsedTime))
     (λ _, full_inv this) s.
Proof.
  intros Hinv. eapply wp_mono.
  { apply (wp_for_of _ _ _ (λ rest s',
             full_inv this s'
             ∧ ∀ n, n ∈ rest → closed → n ∈ traverse (_graph this))).
    - split; [done|]. intros n Hn Hclosed.
      destruct Hinv as (_ & _ & Htot). destruct (Htot Hclosed) as (Hk1 & _).
      apply Hk1. by left.
    - intros n rest s' [Hinv' Hrest]. eapply wp_mono.
      + eapply wp_post_and.
        * apply start_structure, Hinv'.
        * apply start_numeric; [done|]. apply Hrest. by left.
      + cbv beta. intros [] s'' (Hstr & Hnum & Htot).
        split; [done|]. intros m Hm. apply Hrest. by right. }
  cbv beta. by intros [] s1 [Hinv1 _].
Qed.





End Methods.
End EstimatorTotal.

Section TotalProperties.
Import Estimator EstimatorFacts EstimatorTotal.

End TotalProperties.


(** ** Warmed connections *)

Module EstimatorWarm.
Import Estimator EstimatorFacts EstimatorProofs EstimatorLifecycle EstimatorOrder.

Lemma chain_preserved (R : State → State → Prop) (P : State → Prop) s h :
  (∀ a b, R a b → P a → P b) → chain R s h → P s → Forall P h.
Proof.
  intros Hkeep. revert s. induction h as [|x h IH]; intros s; simpl;
    [constructor|].
  intros [Hx Hh] HP. constructor; [by eapply Hkeep|].
  eapply IH; [exact Hh|]. by eapply Hkeep.
Qed.

(** A property kept by every step of a call holds throughout the call. *)
Lemma wp_preserved {A} (R : State → State → Prop) (P : State → Prop)
    X N (m : E A) Q s :
  (∀ a b, R a b → P a → P b) →
  wp X N R m Q s → P s →
  wp X N (λ _ b, P b) m (λ a s', Q a s' ∧ P s') s.
Proof.
  intros Hkeep [Hh Hr] HP.
  assert (Forall P (m s).1) as HPh by (by eapply chain_preserved).
  split; [by apply chain_Forall|].
  destruct (m s).2 as [[a s']|e|]; [|done..].
  destruct Hr as [-> HQ]. split; [done|]. split; [done|]. by apply Forall_last.
Qed.

Section Methods.
Variable this : Estimator.t.

Local Abbreviation any := (λ _ : Error, True).
Local Abbreviation same := (λ a b : State, warmth a = warmth b).
Local Abbreviation J := (λ _ s' : State, completed_warmed this s').

(** *** Calls that complete no node and warm no connection *)

Lemma insert_warmth id c c' s :
  _connections s !! id = Some c →
  TcpConnection._warmed c' = TcpConnection._warmed c →
  warmth s = warmth (set_connections <[id := c']> s).
Proof.
  intros Hc Hw. unfold warmth. simpl_state. f_equal.
  rewrite fmap_insert, Hw. symmetry. apply insert_id.
  by rewrite lookup_fmap, Hc.
Qed.

Lemma onConnection_warmth {A} id (m : TcpConnection.M A) s :
  (∀ c a c', m c = Some (a, c') →
             TcpConnection._warmed c' = TcpConnection._warmed c) →
  wp any True same (onConnection id m) (λ _ _, True) s.
Proof.
  intros Hm. wp_step. destruct (_connections s !! id) as [c|] eqn:Hc; [|done].
  destruct (m c) as [[a c']|] eqn:Hmc; [|done].
  split; [|done]. eapply insert_warmth; [done|]. by eapply Hm.
Qed.

Lemma calculateTimeToDownload_warmed b tae maxT c r c' :
  TcpConnection.calculateTimeToDownload b tae maxT c = Some (r, c') →
  TcpConnection._warmed c' = TcpConnection._warmed c.
Proof.
  intros H. by apply TcpConnectionProofs.calculateTimeToDownload_frame in H as ->.
Qed.

Lemma updateNetworkCapacity_warmth s :
  wp any True same (_updateNetworkCapacity this) (λ _ _, True) s.
Proof.
  unfold _updateNetworkCapacity. wp_step. wp_step.
  apply (wp_for_of _ _ _ (λ _ _, True)); [done|]. intros id _ s' _.
  wp_step. wp_step. apply onConnection_warmth.
  by intros c [] c' [= <-].
Qed.

Lemma estimateTimeRemaining_warmth n s :
  wp any True same (_estimateTimeRemaining this n) (λ _ _, True) s.
Proof.
  unfold _estimateTimeRemaining.
  destruct (data (node (_graph this) n)) as [record|]; [|by wp_step].
  wp_step. wp_step. wp_step. wp_step.
  destruct (_nodeAuxiliaryData s !! n) as [aux|]; [|done].
  wp_step. eapply wp_mono.
  { apply onConnection_warmth. intros c r c'.
    apply calculateTimeToDownload_warmed. }
  intros r s' _. cbv beta. by repeat (wp_step; try done).
Qed.

Lemma findNext_warmth nodes minimumTime s :
  wp any True same (findNext this nodes minimumTime) (λ _ _, True) s.
Proof.
  revert minimumTime s.
  induction nodes as [|m nodes IH]; intros minimumTime s; simpl.
  - by wp_step.
  - wp_step. eapply wp_mono; [apply estimateTimeRemaining_warmth|].
    intros e s' _. apply IH.
Qed.

Lemma enqueue_warmth d s :
  wp any True same (_enqueueNodeIfPossible this d) (λ _ _, True) s.
Proof.
  unfold _enqueueNodeIfPossible. wp_step. wp_step.
  destruct (_ && _); by wp_step.
Qed.

Lemma start_warmth n totalElapsedTime s :
  wp any True same (_startNodeIfPossible this n totalElapsedTime)
     (λ _ _, True) s.
Proof.
  unfold _startNodeIfPossible.
  destruct (data (node (_graph this) n)) as [record|]; [|by wp_step].
  do 3 (wp_step; wp_step).
  destruct (_ || _); [by wp_step|].
  wp_step. wp_step.
  destruct (_connections s !! connectionId record) as [c|]; [|done].
  by repeat (wp_step; try done).
Qed.

(** *** The connections of completed requests *)

Lemma completed_warmed_warmth a b :
  warmth a = warmth b → completed_warmed this a → completed_warmed this b.
Proof.
  unfold warmth. intros [= Hc Hw] Ha n record connection Hn Hdata Hconn.
  assert ((TcpConnection._warmed <$> _connections a) !! connectionId record
          = Some (TcpConnection._warmed connection)) as Hlook.
  { by rewrite Hw, lookup_fmap, Hconn. }
  rewrite lookup_fmap in Hlook.
  destruct (_connections a !! connectionId record) as [c|] eqn:Hca; [|done].
  injection Hlook as <-. apply (Ha n record c); [by rewrite Hc|done..].
Qed.

Lemma frame_warm {A} (m : E A) s :
  (∀ s, wp any True same m (λ _ _, True) s) →
  completed_warmed this s →
  wp any True J m (λ _ s', completed_warmed this s') s.
Proof.
  intros Hm Hs. eapply wp_mono.
  - apply (wp_preserved same (completed_warmed this));
      [apply completed_warmed_warmth|apply Hm|done].
  - cbv beta. by intros a s' [_ Hs'].
Qed.

Lemma updateProgress_warm n timePeriodLength totalElapsedTime s :
  completed_warmed this s →
  wp any True J
     (_updateProgressMadeInTimePeriod this n timePeriodLength totalElapsedTime)
     (λ _ s', completed_warmed this s') s.
Proof.
  intros Hs. unfold _updateProgressMadeInTimePeriod.
  destruct (data (node (_graph this) n)) as [record|] eqn:Hdata; [|by wp_step].
  wp_step. wp_step. wp_step. wp_step.
  destruct (_nodeAuxiliaryData s !! n) as [aux|]; [|done].
  wp_step. eapply wp_mono.
  { apply frame_warm; [|exact Hs]. intros s0. apply onConnection_warmth.
    intros c r c'. apply calculateTimeToDownload_warmed. }
  cbv beta. intros r s1 Hs1.
  wp_step. eapply wp_mono.
  { apply frame_warm; [|exact Hs1]. intros s0. apply onConnection_warmth.
    by intros c [] c' [= <-]. }
  cbv beta. intros [] s2 Hs2.
  destruct (strictly_equal _ _).
  - wp_step. wp_step; [by eapply completed_warmed_warmth; [|exact Hs2]|].
    wp_step. wp_step. simpl_state.
    destruct (_connections s2 !! connectionId record) as [c|] eqn:Hc; [|done].
    cbn.
    match goal with |- context [set_connections <[_ := ?c']> ?s3] =>
      assert (completed_warmed this (set_connections <[connectionId record := c']> s3)
              ∧ ∀ c'', _connections (set_connections <[connectionId record := c']> s3)
                         !! connectionId record = Some c'' →
                       TcpConnection._warmed c'' = true) as [H4 Hwarm]
    end.
    { split.
      - intros m record' c'' Hm Hdata' Hc''. simpl_state.
        destruct (decide (connectionId record' = connectionId record)) as [E|E].
        + rewrite E, lookup_insert_eq in Hc''. by injection Hc'' as <-.
        + rewrite lookup_insert_ne in Hc'' by done.
          by apply (Hs2 m record' c'').
      - intros c''. simpl_state. rewrite lookup_insert_eq. by intros [= <-]. }
    split; [exact H4|].
    wp_step. wp_step; [by eapply completed_warmed_warmth; [|exact H4]|].
    match goal with |- wp _ _ _ _ _ ?s5 =>
      assert (completed_warmed this (set_nodesCompleted (JSSet.add n) s5)) as H6
    end.
    { intros m record' c'' [->|Hm]%elem_of_add Hdata' Hc''; simpl_state.
      - rewrite Hdata in Hdata'. injection Hdata' as <-. by apply Hwarm.
      - by apply (H4 m record' c''). }
    wp_step. wp_step; [exact H6|].
    wp_step. wp_step; [by eapply completed_warmed_warmth; [|exact H6]|].
    eapply wp_mono.
    { apply (wp_for_of _ _ _ (λ _ s', completed_warmed this s')).
      - by eapply completed_warmed_warmth; [|exact H6].
      - intros d _ s' Hs'. apply frame_warm; [|exact Hs'].
        intros s0. apply enqueue_warmth. }
    done.
  - wp_step; by eapply completed_warmed_warmth; [|exact Hs2].
Qed.

Lemma iteration_warm totalElapsedTime s :
  completed_warmed this s →
  wp any True J (iteration this totalElapsedTime)
     (λ _, completed_warmed this) s.
Proof.
  intros Hs. unfold iteration. wp_step. wp_step. wp_step.
  eapply wp_mono.
  { apply (wp_for_of _ _ _ (λ _ s', completed_warmed this s')); [done|].
    intros n _ s' Hs'. apply frame_warm; [|exact Hs'].
    intros s0. apply start_warmth. }
  cbv beta. intros [] s1 Hs1. wp_step.
  eapply wp_mono.
  { apply frame_warm; [intros; apply updateNetworkCapacity_warmth|exact Hs1]. }
  cbv beta. intros [] s2 Hs2. wp_step.
  unfold _findNextNodeCompletionTime. wp_step. wp_step.
  eapply wp_mono.
  { apply frame_warm; [intros; apply findNext_warmth|exact Hs2]. }
  cbv beta. intros minimumTime s3 Hs3. wp_step. wp_step. wp_step.
  eapply wp_mono.
  { apply (wp_for_of _ _ _ (λ _ s', completed_warmed this s')); [done|].
    intros n _ s' Hs'. by apply updateProgress_warm. }
  cbv beta. intros [] s4 Hs4. by wp_step.
Qed.

Lemma main_loop_warm budget totalElapsedTime s :
  completed_warmed this s →
  wp any True J (main_loop this budget totalElapsedTime) (λ _ _, True) s.
Proof.
  revert totalElapsedTime s.
  induction budget as [|budget IH]; intros totalElapsedTime s Hs; simpl.
  - wp_step. wp_step. wp_step. wp_step.
    destruct (_ || _); [|by wp_step].
    wp_step. eapply wp_mono; [by apply iteration_warm|].
    intros t s' Hs'. cbv beta. by wp_step.
  - wp_step. wp_step. wp_step. wp_step.
    destruct (_ || _); [|by wp_step].
    wp_step. eapply wp_mono; [by apply iteration_warm|].
    intros t s' Hs'. cbv beta. by apply IH.
Qed.

Lemma initial_state_warm : completed_warmed this (initial_state this).
Proof.
  intros n record connection Hn. unfold initial_state, _initializeAuxiliaryData in Hn.
  simpl_state. by apply elem_of_nil in Hn.
Qed.

Lemma history_warm s : s ∈ history this → completed_warmed this s.
Proof.
  destruct (main_loop_warm (Z.to_nat 10000) 0%Z (initial_state this)
              initial_state_warm) as [Hchain _].
  apply chain_Forall in Hchain. rewrite Forall_forall in Hchain.
  unfold history. intros [->|Hs]%elem_of_cons.
  - apply initial_state_warm.
  - by apply Hchain.
Qed.
End Methods.
End EstimatorWarm.

Section WarmProperties.
Import Estimator EstimatorFacts EstimatorLifecycle EstimatorWarm.

(** X23.  A completed request leaves its connection warmed.  Throughout every run
    of [estimate], after each single change of its containers, the
    connection of every completed NETWORK node is warmed: a later request
    on the same connection does not pay for the handshake again. *)
Theorem completed_request_warms_connection
    (this : Estimator.t) (s : State) (n : NodeId) (record : NetworkRecord)
    (connection : TcpConnection.t) :
  s ∈ history this →
  n ∈ _nodesCompleted s →
  data (node (_graph this) n) = NetworkNode record →
  _connections s !! connectionId record = Some connection →
  TcpConnection._warmed connection = true.
Proof. intros Hs. by apply (history_warm this s Hs). Qed.
End WarmProperties.

(** ** The share of the throughput of a connection *)

Module EstimatorCapacity.
Import Estimator EstimatorFacts EstimatorProofs EstimatorLifecycle.
Import TcpConnectionFacts.

(** A call that cannot fail returns. *)
Lemma wp_returns {A} J (m : E A) (Q : A → State → Prop) s :
  wp (λ _, False) False J m Q s → ∃ a s', (m s).2 = Ret (a, s') ∧ Q a s'.
Proof.
  intros [_ Hr]. destruct (m s).2 as [[a s']|e|]; [|done..].
  exists a, s'. by destruct Hr.
Qed.

Section Methods.
Variable this : Estimator.t.

Lemma setThroughput_at_throughput throughput c :
  TcpConnection.setThroughput throughput c
  = Some (tt, at_throughput c throughput).
Proof. reflexivity. Qed.

Lemma updateNetworkCapacity_share s :
  (∀ id, id ∈ _connectionsInUse s → is_Some (_connections s !! id)) →
  wp (λ _, False) False (λ _ _, True) (_updateNetworkCapacity this)
     (λ _ s',
        node_sets s' = node_sets s
        ∧ _nodeAuxiliaryData s' = _nodeAuxiliaryData s
        ∧ ∀ id,
            _connections s' !! id
            = if bool_decide (id ∈ _connectionsInUse s)
              then (λ c, at_throughput c
                           (_throughput this
                            / JSSet.size (_nodesInProcess s))%num)
                   <$> _connections s !! id
              else _connections s !! id) s.
Proof.
  intros Hdef. unfold _updateNetworkCapacity. wp_step. wp_step.
  set (share := (_throughput this / JSSet.size (_nodesInProcess s))%num).
  eapply wp_mono.
  { apply (wp_for_of _ _ _ (λ rest s',
             ∃ done, _connectionsInUse s = done ++ rest
               ∧ node_sets s' = node_sets s
               ∧ _nodeAuxiliaryData s' = _nodeAuxiliaryData s
               ∧ ∀ id,
                   _connections s' !! id
                   = if bool_decide (id ∈ done)
                     then (λ c, at_throughput c share) <$> _connections s !! id
                     else _connections s !! id)).
    - exists []. split; [done|]. split; [done|]. split; [done|].
      intros id. rewrite bool_decide_eq_false_2; [done|]. apply not_elem_of_nil.
    - intros id rest s' (done & Hsplit & Hsets & Haux & Hconn).
      wp_step. wp_step.
      assert (_nodesInProcess s' = _nodesInProcess s) as ->.
      { unfold node_sets in Hsets. by injection Hsets. }
      fold share. wp_step.
      destruct (Hdef id) as [c Hc].
      { rewrite Hsplit. apply elem_of_app. right. by left. }
      assert (∃ c', _connections s' !! id = Some c'
                    ∧ at_throughput c' share = at_throughput c share)
        as (c' & Hc' & Hshare).
      { rewrite Hconn, Hc. case_bool_decide; [|by exists c].
        by exists (at_throughput c share). }
      rewrite Hc', setThroughput_at_throughput. split; [done|].
      exists (done ++ [id]). rewrite <- app_assoc. split; [done|].
      split; [done|]. split; [done|]. intros id'. simpl_state.
      destruct (decide (id' = id)) as [->|Hne].
      + rewrite lookup_insert_eq, bool_decide_eq_true_2.
        * by rewrite Hc, Hshare.
        * apply elem_of_app. right. by apply list_elem_of_singleton.
      + rewrite lookup_insert_ne, Hconn by done.
        rewrite (bool_decide_ext (id' ∈ done ++ [id]) (id' ∈ done));
          [done|].
        rewrite elem_of_app, list_elem_of_singleton. tauto. }
  cbv beta. intros [] s' (done & Hsplit & Hsets & Haux & Hconn).
  rewrite app_nil_r in Hsplit. subst done. done.
Qed.
End Methods.
End EstimatorCapacity.

Section CapacityProperties.
Import Estimator EstimatorFacts EstimatorLifecycle EstimatorCapacity.
Import TcpConnectionFacts.

(** X24.  Equal shares.  When every connection in use exists,
    _updateNetworkCapacity returns; it sets the available throughput of
    every connection in use to the configured throughput divided by the
    number of nodes in process, and changes nothing else: the connections
    that are not in use keep the throughput they had, and the sets of nodes
    and the auxiliary data are as before. *)
Theorem updateNetworkCapacity_equal_share (this : Estimator.t) (s : State) :
  (∀ id, id ∈ _connectionsInUse s → is_Some (_connections s !! id)) →
  ∃ s',
    snd (_updateNetworkCapacity this s) = Ret (tt, s')
    ∧ node_sets s' = node_sets s
    ∧ _nodeAuxiliaryData s' = _nodeAuxiliaryData s
    ∧ ∀ id,
        _connections s' !! id
        = if bool_decide (id ∈ _connectionsInUse s)
          then (λ c, at_throughput c
                       (_throughput this / JSSet.size (_nodesInProcess s))%num)
               <$> _connections s !! id
          else _connections s !! id.
Proof.
  intros Hdef.
  destruct (wp_returns _ _ _ _ (updateNetworkCapacity_share this s Hdef))
    as ([] & s' & Hrun & Hpost).
  by exists s'.
Qed.
End CapacityProperties.

(** ** The clock of the scheduler *)

Module EstimatorClock.
Import Estimator EstimatorFacts EstimatorProofs EstimatorStructure.
Import EstimatorNumeric EstimatorInit EstimatorLoop.
Import EstimatorLifecycle EstimatorOrder EstimatorTotal.
Import TcpConnectionFacts TcpConnectionProofs.

(** *** Numbers that are not negative *)

Lemma le_refl_nonneg t : (0%Z <= t)%num → (t <= t)%num.
Proof.
  unfold Num.le. destruct t as [x| | |]; try done. intros _.
  apply NumFacts.leb_fin. lra.
Qed.

Lemma add_nonneg t m :
  (0%Z <= t)%num → (0%Z <= m)%num → (0%Z <= t + m)%num ∧ (t <= t + m)%num.
Proof.
  unfold Num.le, Num.of_Z.
  destruct t as [x| | |], m as [y| | |]; try done.
  rewrite !NumFacts.leb_fin. change (inject_Z 0) with 0. intros Hx Hy.
  unfold Num.add, Num.fin. rewrite !NumFacts.leb_fin, !Qred_correct. lra.
Qed.

Lemma iter_rtt_nonneg k rtt :
  nonnegative rtt → nonnegative (Nat.iter k (λ e, (e + rtt)%num) 0%Z).
Proof.
  intros (r & -> & Hr). induction k as [|k (q & IH & Hq)].
  - exists 0. by split.
  - rewrite Nat.iter_succ, IH. exists (Qred (q + r)). split; [done|].
    rewrite Qred_correct. lra.
Qed.

Lemma max_zero_nonneg x :
  Num.isFinite (Num.max x 0%Z) = true → nonnegative (Num.max x 0%Z).
Proof.
  destruct x as [x| | |]; try done.
  - intros _. unfold Num.max, Num.of_Z. cbn [Num.leb].
    destruct (Qle_bool x (inject_Z 0)) eqn:E.
    + exists (inject_Z 0). by split.
    + exists x. split; [done|].
      assert (¬ x <= 0) as Hx; [|lra].
      intros H%Qle_bool_iff. change 0 with (inject_Z 0) in H. congruence.
  - intros _. exists (inject_Z 0). by split.
Qed.

(** The time a download takes is not negative. *)
Lemma calculateTimeToDownload_timeElapsed_nonneg c b tae maxT r c' :
  finite c → nonnegative (TcpConnection._rtt c) →
  Num.isFinite tae = true →
  TcpConnection.calculateTimeToDownload b tae maxT c = Some (r, c') →
  (0%Z <= TcpConnection.timeElapsed r)%num.
Proof.
  intros Hc Hrtt Htae Hcalc.
  destruct (calculateTimeToDownload_cases c b tae maxT)
    as [(k & Hk & _)|[Hnone _]]; [|congruence].
  rewrite Hcalc in Hk. injection Hk as -> _.
  cbn [TcpConnection.timeElapsed].
  rewrite iter_downloadTimeElapsed, locals_at_loop_elapsed.
  destruct (iter_rtt_nonneg k _ Hrtt) as (d & -> & Hd).
  destruct (max_zero_nonneg _ (residualTTFB_finite c tae Hc Htae))
    as (q & Hq & Hq0).
  unfold Spec.residualTTFB. rewrite Hq.
  unfold Num.le, Num.add, Num.fin, Num.of_Z. apply NumFacts.leb_fin.
  rewrite Qred_correct. change (inject_Z 0) with 0. lra.
Qed.

(** *** What depends on the times only *)

Lemma times_aux a b n aux :
  times a = times b → _nodeAuxiliaryData b !! n = Some aux →
  ∃ aux', _nodeAuxiliaryData a !! n = Some aux'
          ∧ startTime aux' = startTime aux ∧ endTime aux' = endTime aux.
Proof.
  unfold times. intros [= Ht _] Haux.
  assert (((λ aux, (startTime aux, endTime aux)) <$> _nodeAuxiliaryData a) !! n
          = Some (startTime aux, endTime aux)) as Hlook.
  { by rewrite Ht, lookup_fmap, Haux. }
  rewrite lookup_fmap in Hlook.
  destruct (_nodeAuxiliaryData a !! n) as [aux'|]; [|done].
  injection Hlook as Hs He. by exists aux'.
Qed.

Lemma times_rtt a b id c :
  times a = times b → _connections b !! id = Some c →
  ∃ c', _connections a !! id = Some c'
        ∧ TcpConnection._rtt c' = TcpConnection._rtt c.
Proof.
  unfold times. intros [= _ Hr] Hc.
  assert ((TcpConnection._rtt <$> _connections a) !! id
          = Some (TcpConnection._rtt c)) as Hlook.
  { by rewrite Hr, lookup_fmap, Hc. }
  rewrite lookup_fmap in Hlook.
  destruct (_connections a !! id) as [c'|]; [|done].
  injection Hlook as Hrtt. by exists c'.
Qed.

Lemma times_ordered_times a b :
  times a = times b → times_ordered a → times_ordered b.
Proof.
  intros Ht Ha n aux Haux.
  destruct (times_aux a b n aux Ht Haux) as (aux' & Haux' & <- & <-).
  by apply (Ha n).
Qed.

Lemma clock_times t a b : times a = times b → clock t a → clock t b.
Proof.
  intros Ht (Ho & Hu & Hr). split; [by eapply times_ordered_times|]. split.
  - intros n aux Haux.
    destruct (times_aux a b n aux Ht Haux) as (aux' & Haux' & <- & <-).
    by apply (Hu n).
  - intros id c Hc. destruct (times_rtt a b id c Ht Hc) as (c' & Hc' & <-).
    by apply (Hr id).
Qed.

Lemma clock_later t t' s : (t <= t')%num → clock t s → clock t' s.
Proof.
  intros Hle (Ho & Hu & Hr). split; [done|]. split; [|done].
  intros n aux Haux. destruct (Hu n aux Haux) as [Hs He]. split.
  - by eapply NumFacts.leb_trans.
  - intros e Hend. eapply NumFacts.leb_trans; [by apply He|done].
Qed.

Section Methods.
Variable this : Estimator.t.
Hypothesis Hfin : finite_inputs this.

Local Abbreviation any := (λ _ : Error, True).
Local Abbreviation same := (λ a b : State, times a = times b).
Local Abbreviation Jc := (λ _ s' : State, times_ordered s').
Local Abbreviation closed := (traverse_closed (_graph this)).
Local Abbreviation X := (λ e : Error, closed → e = MaximumDepthExceeded).
Local Abbreviation N := (closed → False).
Local Abbreviation J := (λ _ s' : State, aux_always s').

(** *** Calls that leave the times alone *)

Lemma insert_rtt id c c' s :
  _connections s !! id = Some c →
  TcpConnection._rtt c' = TcpConnection._rtt c →
  times s = times (set_connections <[id := c']> s).
Proof.
  intros Hc Hr. unfold times. simpl_state. f_equal.
  rewrite fmap_insert, Hr. symmetry. apply insert_id.
  by rewrite lookup_fmap, Hc.
Qed.

Lemma insert_times n aux aux' s :
  _nodeAuxiliaryData s !! n = Some aux →
  startTime aux' = startTime aux → endTime aux' = endTime aux →
  times s = times (set_nodeAuxiliaryData <[n := aux']> s).
Proof.
  intros Haux Hs He. unfold times. simpl_state. f_equal.
  rewrite fmap_insert, Hs, He. symmetry. apply insert_id.
  by rewrite lookup_fmap, Haux.
Qed.

Lemma onConnection_times {A} id (m : TcpConnection.M A) s :
  (∀ c a c', m c = Some (a, c') →
             TcpConnection._rtt c' = TcpConnection._rtt c) →
  wp any True same (onConnection id m) (λ _ _, True) s.
Proof.
  intros Hm. wp_step. destruct (_connections s !! id) as [c|] eqn:Hc; [|done].
  destruct (m c) as [[a c']|] eqn:Hmc; [|done].
  split; [|done]. eapply insert_rtt; [done|]. by eapply Hm.
Qed.

Lemma calculateTimeToDownload_rtt b tae maxT c r c' :
  TcpConnection.calculateTimeToDownload b tae maxT c = Some (r, c') →
  TcpConnection._rtt c' = TcpConnection._rtt c.
Proof. intros H. by apply calculateTimeToDownload_frame in H as ->. Qed.

Lemma updateNetworkCapacity_times s :
  wp any True same (_updateNetworkCapacity this) (λ _ _, True) s.
Proof.
  unfold _updateNetworkCapacity. wp_step. wp_step.
  apply (wp_for_of _ _ _ (λ _ _, True)); [done|]. intros id _ s' _.
  wp_step. wp_step. apply onConnection_times.
  by intros c [] c' [= <-].
Qed.

Lemma estimateTimeRemaining_times n s :
  wp any True same (_estimateTimeRemaining this n) (λ _ _, True) s.
Proof.
  unfold _estimateTimeRemaining.
  destruct (data (node (_graph this) n)) as [record|]; [|by wp_step].
  wp_step. wp_step. wp_step. wp_step.
  destruct (_nodeAuxiliaryData s !! n) as [aux|] eqn:Haux; [|done].
  wp_step. wp_step.
  destruct (_connections s !! connectionId record) as [c|] eqn:Hc; [|done].
  destruct (TcpConnection.calculateTimeToDownload _ _ _ c) as [[r c']|] eqn:Hr;
    [|done].
  split.
  { eapply insert_rtt; [done|]. by eapply calculateTimeToDownload_rtt. }
  wp_step. wp_step; [|by wp_step].
  by eapply insert_times.
Qed.

Lemma findNext_times nodes minimumTime s :
  wp any True same (findNext this nodes minimumTime) (λ _ _, True) s.
Proof.
  revert minimumTime s.
  induction nodes as [|m nodes IH]; intros minimumTime s; simpl.
  - by wp_step.
  - wp_step. eapply wp_mono; [apply estimateTimeRemaining_times|].
    intros e s' _. apply IH.
Qed.

Lemma enqueue_times d s :
  wp any True same (_enqueueNodeIfPossible this d) (λ _ _, True) s.
Proof.
  unfold _enqueueNodeIfPossible. wp_step. wp_step.
  destruct (_ && _); by wp_step.
Qed.

Lemma frame_clock {A} (m : E A) t s :
  (∀ s, wp any True same m (λ _ _, True) s) →
  clock t s → wp any True Jc m (λ _ s', clock t s') s.
Proof.
  intros Hm Hs. eapply wp_weaken.
  - eapply wp_mono.
    + apply (wp_frame times (clock t)); [apply clock_times|apply Hm|done].
    + cbv beta. by intros a s' (_ & _ & Hs').
  - done.
  - done.
  - cbv beta. intros _ b Hb. apply Hb.
Qed.

(** *** Starting a node *)

Lemma clock_insert t n aux s :
  clock t s → (0%Z <= startTime aux)%num → (startTime aux <= t)%num →
  (∀ e, endTime aux = Some e → (startTime aux <= e)%num ∧ (e <= t)%num) →
  clock t (set_nodeAuxiliaryData <[n := aux]> s).
Proof.
  intros (Ho & Hu & Hr) H0 Ht He. split; [|split; [|done]].
  - intros m aux'. simpl_state.
    intros [[_ <-]|[_ Hm]]%lookup_insert_Some; [|by apply (Ho m)].
    split; [done|]. intros e Hend. by apply He.
  - intros m aux'. simpl_state.
    intros [[_ <-]|[_ Hm]]%lookup_insert_Some; [|by apply (Hu m)].
    split; [done|]. intros e Hend. by apply He.
Qed.

Lemma start_clock n t s :
  clock t s → (0%Z <= t)%num →
  wp any True Jc (_startNodeIfPossible this n t) (λ _ s', clock t s') s.
Proof.
  intros Hs Ht. unfold _startNodeIfPossible.
  destruct (data (node (_graph this) n)) as [record|]; [|by wp_step].
  do 3 (wp_step; wp_step).
  destruct (_ || _); [by wp_step|].
  wp_step. wp_step.
  destruct (_connections s !! connectionId record) as [c|]; [|done].
  set (aux := {| startTime := t; timeElapsed := 0%Z;
                 timeElapsedOvershoot := 0%Z; bytesDownloaded := 0%Z;
                 estimatedTimeElapsed := None; endTime := None |}).
  match goal with |- wp _ _ _ _ _ ?s0 => change s0 with s end.
  assert (clock t (set_nodeAuxiliaryData <[n := aux]> s)) as Hs'.
  { apply clock_insert; [done|done|by apply le_refl_nonneg|done]. }
  wp_step. wp_step; [apply Hs|].
  wp_step. wp_step; [apply Hs|].
  wp_step. wp_step; [apply Hs'|].
  wp_step; [apply Hs'|]. exact Hs'.
Qed.

(** *** The time that remains is not negative *)

Lemma estimateTimeRemaining_nonneg n s :
  aux_always s → connections_finite s → rtts_nonnegative s →
  wp any True (λ _ _, True) (_estimateTimeRemaining this n)
     (λ e _, (0%Z <= e)%num) s.
Proof.
  intros Haux Hcf Hr. unfold _estimateTimeRemaining.
  destruct (data (node (_graph this) n)) as [record|]; [|by wp_step].
  wp_step. wp_step. wp_step. wp_step.
  destruct (_nodeAuxiliaryData s !! n) as [aux|] eqn:Hn; [|done].
  destruct (Haux n aux Hn) as (Hte & _ & _ & Ho).
  wp_step. wp_step.
  destruct (_connections s !! connectionId record) as [c|] eqn:Hc; [|done].
  destruct (TcpConnection.calculateTimeToDownload _ _ _ c) as [[r c']|] eqn:Hcalc;
    [|done].
  split; [done|]. wp_step. wp_step; [done|]. wp_step.
  apply add_nonneg; [|done].
  eapply calculateTimeToDownload_timeElapsed_nonneg; [..|exact Hcalc];
    [by eapply Hcf|by eapply Hr|done].
Qed.

Lemma findNext_nonneg nodes acc s :
  full_inv this s → (∀ n, n ∈ nodes → n ∈ _nodesInProcess s) →
  NoDup nodes → acc = PInf ∨ Num.isFinite acc = true →
  (0%Z <= acc)%num → rtts_nonnegative s →
  wp X N J (findNext this nodes acc) (λ res _, (0%Z <= res)%num) s.
Proof.
  revert acc s.
  induction nodes as [|n nodes IH];
    intros acc s Hinv Hsub Hnodup Hacc Hacc0 Hr; simpl.
  - by wp_step.
  - apply NoDup_cons in Hnodup as [Hn Hnodup].
    wp_step. eapply wp_mono.
    { eapply wp_post_and.
      - apply estimateTimeRemaining_nonneg; [apply Hinv|apply Hinv|done].
      - apply (estimateTimeRemaining_full this Hfin); [done|].
        apply Hsub. by left. }
    cbv beta. intros e s1 (He0 & Hinv1 & Hproc1 & He & _ & Hconn1 & _).
    destruct (min_finite acc e Hacc He) as (Hmin & _ & _).
    apply (IH _ _ Hinv1); [|exact Hnodup|by right|by apply min_nonneg|].
    + intros m Hm. rewrite Hproc1. apply Hsub. by right.
    + intros id c. rewrite Hconn1. apply Hr.
Qed.

(** *** Progress *)

Lemma onConnection_aux {A} id (m : TcpConnection.M A) s :
  wp any True (λ _ _, True) (onConnection id m)
     (λ _ s', _nodeAuxiliaryData s' = _nodeAuxiliaryData s) s.
Proof.
  wp_step. destruct (_connections s !! id) as [c|]; [|done].
  by destruct (m c) as [[a c']|].
Qed.

Lemma updateProgress_clock n timePeriodLength t s :
  clock t s → (t <= t)%num →
  wp any True Jc
     (_updateProgressMadeInTimePeriod this n timePeriodLength t)
     (λ _ s', clock t s') s.
Proof.
  intros Hs Ht. unfold _updateProgressMadeInTimePeriod.
  destruct (data (node (_graph this) n)) as [record|]; [|by wp_step].
  wp_step. wp_step. wp_step. wp_step.
  destruct (_nodeAuxiliaryData s !! n) as [aux|] eqn:Haux; [|done].
  wp_step. eapply wp_mono.
  { eapply wp_post_and.
    - apply onConnection_aux.
    - apply frame_clock; [|exact Hs]. intros s0. apply onConnection_times.
      intros c r c'. apply calculateTimeToDownload_rtt. }
  cbv beta. intros r s1 (Haux1 & Hs1).
  wp_step. eapply wp_mono.
  { eapply wp_post_and.
    - apply onConnection_aux.
    - apply frame_clock; [|exact Hs1]. intros s0. apply onConnection_times.
      by intros c [] c' [= <-]. }
  cbv beta. intros [] s2 (Haux2 & Hs2).
  assert (_nodeAuxiliaryData s2 !! n = Some aux) as Hn2
    by by rewrite Haux2, Haux1.
  destruct (proj1 Hs2 n aux Hn2) as [Hstart0 _].
  destruct (proj1 (proj2 Hs2) n aux Hn2) as [Hstart _].
  destruct (strictly_equal _ _).
  - match goal with |- wp _ _ _ (mbind _ (modify (set_nodeAuxiliaryData <[_ := ?a]>))) _ _ =>
      assert (clock t (set_nodeAuxiliaryData <[n := a]> s2)) as Hs3
    end.
    { apply clock_insert; [done..|]. cbn [endTime startTime].
      by intros e [= <-]. }
    wp_step. wp_step; [apply Hs3|].
    wp_step.
    eapply wp_mono.
    { apply frame_clock; [|exact Hs3]. intros s0. apply onConnection_times.
      by intros c [] c' [= <-]. }
    cbv beta. intros [] s4 Hs4.
    wp_step. wp_step; [apply Hs4|].
    wp_step. wp_step; [apply Hs4|].
    wp_step. wp_step; [apply Hs4|].
    eapply wp_mono.
    { apply (wp_for_of _ _ _ (λ _ s', clock t s')); [exact Hs4|].
      intros d _ s' Hs'. apply frame_clock; [|exact Hs'].
      intros s0. apply enqueue_times. }
    done.
  - match goal with |- wp _ _ _ (modify (set_nodeAuxiliaryData <[_ := ?a]>)) _ _ =>
      assert (clock t (set_nodeAuxiliaryData <[n := a]> s2)) as Hs3
    end.
    { apply clock_insert; [done..|]. cbn [endTime startTime].
      intros e He. split.
      - by apply (proj1 Hs2 n aux Hn2).
      - by apply (proj1 (proj2 Hs2) n aux Hn2). }
    wp_step; [apply Hs3|exact Hs3].
Qed.

(** *** The loop *)

Lemma iteration_clock t s :
  full_inv this s → clock t s → (0%Z <= t)%num →
  wp any True Jc (iteration this t)
     (λ t' s', clock t' s' ∧ (0%Z <= t')%num) s.
Proof.
  intros Hinv Hs Ht. unfold iteration. wp_step. wp_step. wp_step.
  eapply wp_mono.
  { eapply wp_post_and; [by apply (start_phase_full this t s)|].
    apply (wp_for_of _ _ _ (λ _ s', clock t s')); [exact Hs|].
    intros n _ s' Hs'. by apply start_clock. }
  cbv beta. intros [] s1 [Hinv1 Hs1]. wp_step.
  eapply wp_mono.
  { eapply wp_post_and.
    - eapply wp_post_and.
      + apply updateNetworkCapacity_structure, Hinv1.
      + by apply (updateNetworkCapacity_numeric this Hfin).
    - apply frame_clock; [intros; apply updateNetworkCapacity_times|exact Hs1]. }
  cbv beta. intros [] s2 ((Hstr2 & Hnum2 & Htot2) & Hs2).
  assert (full_inv this s2) as Hinv2 by done.
  wp_step. unfold _findNextNodeCompletionTime. wp_step. wp_step.
  eapply wp_mono.
  { eapply wp_post_and.
    - apply findNext_nonneg; [exact Hinv2|done|apply Hinv2|by left|done|].
      apply Hs2.
    - apply frame_clock; [intros; apply findNext_times|exact Hs2]. }
  cbv beta. intros minimumTime s3 [Hmin Hs3].
  destruct (add_nonneg t minimumTime Ht Hmin) as [Ht' Hle].
  wp_step. wp_step. wp_step.
  eapply wp_mono.
  { apply (wp_for_of _ _ _ (λ _ s', clock (t + minimumTime)%num s')).
    - by apply (clock_later t).
    - intros n _ s' Hs'. apply updateProgress_clock; [done|].
      by apply le_refl_nonneg. }
  cbv beta. intros [] s4 Hs4. by wp_step.
Qed.

Lemma main_loop_clock budget t s :
  full_inv this s → clock t s → (0%Z <= t)%num →
  wp any True Jc (main_loop this budget t)
     (λ t' s', clock t' s' ∧ (0%Z <= t')%num) s.
Proof.
  revert t s.
  induction budget as [|budget IH]; intros t s Hinv Hs Ht; simpl.
  - wp_step. wp_step. wp_step. wp_step.
    destruct (_ || _); [|by wp_step].
    wp_step. eapply wp_mono; [by apply iteration_clock|].
    intros t' s' Hs'. cbv beta. by wp_step.
  - wp_step. wp_step. wp_step. wp_step.
    destruct (_ || _); [|by wp_step].
    wp_step. eapply wp_mono.
    { eapply wp_post_and; [by apply (iteration_full this Hfin t s)|].
      by apply iteration_clock. }
    intros t' s' (Hinv' & Hs' & Ht'). cbv beta. by apply IH.
Qed.

Hypothesis Hrtt : nonnegative (_rtt this).

Lemma initial_state_clock : clock 0%Z (initial_state this).
Proof.
  split; [|split].
  - intros n aux. unfold initial_state, _initializeAuxiliaryData. simpl_state.
    by rewrite lookup_empty.
  - intros n aux. unfold initial_state, _initializeAuxiliaryData. simpl_state.
    by rewrite lookup_empty.
  - intros id c. unfold initial_state, _initializeAuxiliaryData. simpl_state.
    unfold _initializeNetworkConnections. intros Hc.
    apply connections_fold in Hc as [Hc|(records & ->)]; [done|].
    exact Hrtt.
Qed.

Lemma run_clock :
  wp any True Jc (main_loop this (Z.to_nat 10000) 0%Z)
     (λ t' s', clock t' s' ∧ (0%Z <= t')%num) (initial_state this).
Proof.
  apply main_loop_clock; [by apply initial_state_full|
                          apply initial_state_clock|done].
Qed.

Lemma history_clock s : s ∈ history this → times_ordered s.
Proof.
  destruct run_clock as [Hchain _].
  apply chain_Forall in Hchain. rewrite Forall_forall in Hchain.
  unfold history. intros [->|Hs]%elem_of_cons.
  - apply initial_state_clock.
  - by apply Hchain.
Qed.

Lemma result_clock t s :
  (run this).2 = Ret (t, s) → clock t s ∧ (0%Z <= t)%num.
Proof.
  intros Hrun. destruct run_clock as [_ Hres].
  fold (run this) in Hres. rewrite Hrun in Hres. by destruct Hres.
Qed.
End Methods.
End EstimatorClock.

Section ClockProperties.
Import Estimator EstimatorFacts EstimatorLifecycle EstimatorClock.
Import TcpConnectionFacts.

(** X25.  The clock does not run backwards.  With finite inputs and an rtt that
    is not negative: throughout every run of [estimate], the startTime of
    every node is at least 0, and the endTime of a node that has ended is at
    least its startTime; and when [estimate] returns, the total is at least
    0 and no node has a startTime or an endTime after the total. *)
Theorem estimate_clock (this : Estimator.t) :
  finite_inputs this → nonnegative (_rtt this) →
  (∀ s n aux, s ∈ history this → _nodeAuxiliaryData s !! n = Some aux →
              (0%Z <= startTime aux)%num
              ∧ ∀ e, endTime aux = Some e → (startTime aux <= e)%num)
  ∧ (∀ totalElapsedTime s,
       snd (run this) = Ret (totalElapsedTime, s) →
       (0%Z <= totalElapsedTime)%num
       ∧ ∀ n aux, _nodeAuxiliaryData s !! n = Some aux →
                  (startTime aux <= totalElapsedTime)%num
                  ∧ ∀ e, endTime aux = Some e → (e <= totalElapsedTime)%num).
Proof.
  intros Hfin Hrtt. split.
  - intros s n aux Hs. by apply (history_clock this Hfin Hrtt s Hs).
  - intros t s Hrun.
    destruct (result_clock this Hfin Hrtt t s Hrun) as [(_ & Hu & _) Ht].
    split; [done|]. exact Hu.
Qed.
End ClockProperties.

(** ** Completed nodes stay completed *)

Module EstimatorMonotone.
Import Estimator EstimatorFacts EstimatorProofs EstimatorLifecycle EstimatorOrder.

(** Along a chain of steps of a reflexive and transitive relation, earlier
    containers are related to later ones. *)
Lemma chain_pairs (R : State → State → Prop) s h :
  (∀ a, R a a) → (∀ a b c, R a b → R b c → R a c) →
  chain R s h →
  ∀ (i j : nat) a b, (i <= j)%nat →
    (s :: h) !! i = Some a → (s :: h) !! j = Some b → R a b.
Proof.
  intros Hrefl Htrans. revert s.
  assert (∀ h s, chain R s h → ∀ j b, (s :: h) !! j = Some b → R s b) as Hfirst.
  { clear h. induction h as [|x h IH]; intros s Hh j b Hb.
    - destruct j as [|j]; [|done]. injection Hb as <-. apply Hrefl.
    - destruct j as [|j]; [injection Hb as <-; apply Hrefl|].
      destruct Hh as [Hx Hh]. eapply Htrans; [exact Hx|].
      by apply (IH x Hh j). }
  induction h as [|x h IH]; intros s Hh i j a b Hij Ha Hb.
  - destruct i as [|i]; [|done]. destruct j as [|j]; [|done].
    injection Ha as <-. injection Hb as <-. apply Hrefl.
  - destruct i as [|i].
    + injection Ha as <-. by apply (Hfirst (x :: h) s Hh j).
    + destruct j as [|j]; [lia|]. destruct Hh as [_ Hh].
      apply (IH x Hh i j); [lia|done..].
Qed.

Section Methods.
Variable this : Estimator.t.

Local Abbreviation any := (λ _ : Error, True).
Local Abbreviation grows :=
  (λ a b : State, ∀ n, n ∈ _nodesCompleted a → n ∈ _nodesCompleted b).

Lemma sets_grows {A} (m : E A) s :
  wp any True (λ a b, node_sets a = node_sets b) m (λ _ _, True) s →
  wp any True grows m (λ _ _, True) s.
Proof.
  intros H. eapply wp_weaken; [exact H|done|done|].
  cbv beta. unfold node_sets. intros a b [= _ _ Hc _] n. by rewrite Hc.
Qed.

Lemma enqueue_grows d s :
  wp any True grows (_enqueueNodeIfPossible this d) (λ _ _, True) s.
Proof.
  unfold _enqueueNodeIfPossible. wp_step. wp_step.
  destruct (_ && _); by wp_step.
Qed.

Lemma start_grows n totalElapsedTime s :
  wp any True grows (_startNodeIfPossible this n totalElapsedTime)
     (λ _ _, True) s.
Proof.
  unfold _startNodeIfPossible.
  destruct (data (node (_graph this) n)) as [record|]; [|by wp_step].
  do 3 (wp_step; wp_step).
  destruct (_ || _); [by wp_step|].
  wp_step. wp_step.
  destruct (_connections s !! connectionId record) as [c|]; [|done].
  by repeat (wp_step; try done).
Qed.

Lemma updateProgress_grows n timePeriodLength totalElapsedTime s :
  wp any True grows
     (_updateProgressMadeInTimePeriod this n timePeriodLength totalElapsedTime)
     (λ _ _, True) s.
Proof.
  unfold _updateProgressMadeInTimePeriod.
  destruct (data (node (_graph this) n)) as [record|]; [|by wp_step].
  wp_step. wp_step. wp_step. wp_step.
  destruct (_nodeAuxiliaryData s !! n) as [aux|]; [|done].
  wp_step. eapply wp_mono; [apply sets_grows, onConnection_sets|].
  cbv beta. intros r s1 _.
  wp_step. eapply wp_mono; [apply sets_grows, onConnection_sets|].
  cbv beta. intros [] s2 _.
  destruct (strictly_equal _ _); [|by wp_step].
  wp_step. wp_step; [done|].
  wp_step. eapply wp_mono; [apply sets_grows, onConnection_sets|].
  cbv beta. intros [] s3 _.
  wp_step. wp_step; [done|].
  wp_step. wp_step.
  { simpl_state. intros m Hm. apply elem_of_add. by right. }
  wp_step. wp_step; [done|].
  apply (wp_for_of _ _ _ (λ _ _, True)); [done|].
  intros d _ s' _. apply enqueue_grows.
Qed.

Lemma iteration_grows totalElapsedTime s :
  wp any True grows (iteration this totalElapsedTime) (λ _ _, True) s.
Proof.
  unfold iteration. wp_step. wp_step. wp_step.
  eapply wp_mono.
  { apply (wp_for_of _ _ _ (λ _ _, True)); [done|].
    intros n _ s' _. apply start_grows. }
  cbv beta. intros [] s1 _. wp_step.
  eapply wp_mono; [apply sets_grows, updateNetworkCapacity_sets|].
  cbv beta. intros [] s2 _. wp_step.
  unfold _findNextNodeCompletionTime. wp_step. wp_step.
  eapply wp_mono; [apply sets_grows, findNext_sets|].
  cbv beta. intros minimumTime s3 _. wp_step. wp_step. wp_step.
  eapply wp_mono.
  { apply (wp_for_of _ _ _ (λ _ _, True)); [done|].
    intros n _ s' _. apply updateProgress_grows. }
  cbv beta. intros [] s4 _. by wp_step.
Qed.

Lemma main_loop_grows budget totalElapsedTime s :
  wp any True grows (main_loop this budget totalElapsedTime) (λ _ _, True) s.
Proof.
  revert totalElapsedTime s.
  induction budget as [|budget IH]; intros totalElapsedTime s; simpl.
  - wp_step. wp_step. wp_step. wp_step.
    destruct (_ || _); [|by wp_step].
    wp_step. eapply wp_mono; [apply iteration_grows|].
    intros t s' _. cbv beta. by wp_step.
  - wp_step. wp_step. wp_step. wp_step.
    destruct (_ || _); [|by wp_step].
    wp_step. eapply wp_mono; [apply iteration_grows|].
    intros t s' _. cbv beta. apply IH.
Qed.

Lemma history_grows (i j : nat) a b :
  (i <= j)%nat → history this !! i = Some a → history this !! j = Some b →
  ∀ n, n ∈ _nodesCompleted a → n ∈ _nodesCompleted b.
Proof.
  destruct (main_loop_grows (Z.to_nat 10000) 0%Z (initial_state this))
    as [Hchain _].
  apply (chain_pairs grows _ _); [done| |exact Hchain].
  cbv beta. intros x y z Hxy Hyz n Hn. by apply Hyz, Hxy.
Qed.
End Methods.
End EstimatorMonotone.

Section MonotoneProperties.
Import Estimator EstimatorMonotone.

(** X26.  Completed nodes stay completed.  In the sequence of the containers of
    a run of [estimate], a node that is completed at one point is completed
    at every later point: no step removes a node from the completed
    nodes. *)
Theorem completed_stays_completed
    (this : Estimator.t) (i j : nat) (a b : State) (n : NodeId) :
  (i <= j)%nat →
  history this !! i = Some a → history this !! j = Some b →
  n ∈ _nodesCompleted a → n ∈ _nodesCompleted b.
Proof. intros Hij Ha Hb. by apply (history_grows this i j). Qed.
End MonotoneProperties.

(** ** The run ends *)

Module EstimatorProgress.
Import Estimator EstimatorFacts EstimatorProofs EstimatorStructure.
Import EstimatorNumeric EstimatorInit EstimatorLoop.
Import EstimatorLifecycle EstimatorOrder EstimatorInOrder EstimatorBlocked.
Import EstimatorTotal EstimatorCapacity TcpConnectionFacts.


Section Methods.
Variable this : Estimator.t.

Local Abbreviation any := (λ _ : Error, True).
Local Abbreviation free := (λ _ _ : State, True).
Local Abbreviation shallow := (λ e : Error, e ≠ MaximumDepthExceeded).

(** *** No call of a pass fails for the depth *)










(** *** Tidy containers *)





Hypothesis Hcons :
  ∀ n d, d ∈ getDependents (node (_graph this) n) →
         n ∈ getDependencies (node (_graph this) d).





(** *** The node that finishes next *)






(** *** A pass completes a node *)

Hypothesis Hfin : finite_inputs this.

Local Abbreviation closed := (traverse_closed (_graph this)).
Local Abbreviation X := (λ e : Error, closed → e = MaximumDepthExceeded).
Local Abbreviation N := (closed → False).
Local Abbreviation J := (λ _ s' : State, aux_always s').



(** *** A pass starts a node *)

Hypothesis Hclosed : closed.
Hypothesis Hnetwork :
  ∀ n, n ∈ traverse (_graph this) → type (node (_graph this) n) = NETWORK.
Hypothesis Hlimit : (1%Z <= _maximumConcurrentRequests this)%num.




(** *** The pass *)





End Methods.
End EstimatorProgress.

Section ProgressProperties.
Import Estimator EstimatorFacts EstimatorProgress.

End ProgressProperties.

(** ** The bytes credited to a request *)

Module EstimatorBytes.
Import Estimator EstimatorFacts EstimatorProofs EstimatorStructure.
Import EstimatorNumeric EstimatorInit EstimatorLoop.
Import EstimatorLifecycle EstimatorOrder EstimatorTotal.
Import TcpConnectionFacts TcpConnectionProofs.

(** A download returns no more bytes than were asked for. *)
Lemma calculateTimeToDownload_bytes_le c b tae maxT r c' :
  finite c → Num.isFinite b = true → Num.isFinite tae = true →
  TcpConnection.calculateTimeToDownload b tae maxT c = Some (r, c') →
  (TcpConnection.bytesDownloaded r <= b)%num.
Proof.
  intros Hc Hb Htae Hcalc.
  destruct (calculateTimeToDownload_finite c b tae maxT Hc Hb Htae)
    as (r0 & Hr0 & _ & Hbd & _).
  rewrite Hcalc in Hr0. injection Hr0 as <-.
  destruct (calculateTimeToDownload_cases c b tae maxT)
    as [(k & Hk & _)|[Hnone _]]; [|congruence].
  rewrite Hcalc in Hk. injection Hk as -> _.
  cbn [TcpConnection.bytesDownloaded] in *.
  apply NumFacts.min_le_r.
  - intros E. by rewrite E in Hbd.
  - intros E. by rewrite E in Hb.
Qed.

(** Adding what is left at most reaches the whole. *)
Lemma add_within old m size :
  Num.isFinite old = true → Num.isFinite size = true →
  (m <= size - old)%num → (old + m <= size)%num.
Proof.
  unfold Num.le. destruct old as [o| | |], size as [t| | |]; try done.
  intros _ _. unfold Num.sub, Num.neg, Num.add.
  destruct m as [x| | |]; try done.
  unfold Num.fin. rewrite !NumFacts.leb_fin, !Qred_correct. lra.
Qed.

Lemma bytes_aux a b n aux :
  bytes a = bytes b → _nodeAuxiliaryData b !! n = Some aux →
  ∃ aux', _nodeAuxiliaryData a !! n = Some aux'
          ∧ bytesDownloaded aux' = bytesDownloaded aux.
Proof.
  unfold bytes. intros Hb Haux.
  assert ((bytesDownloaded <$> _nodeAuxiliaryData a) !! n
          = Some (bytesDownloaded aux)) as Hlook.
  { by rewrite Hb, lookup_fmap, Haux. }
  rewrite lookup_fmap in Hlook.
  destruct (_nodeAuxiliaryData a !! n) as [aux'|]; [|done].
  injection Hlook as Hs. by exists aux'.
Qed.

Section Methods.
Variable this : Estimator.t.
Hypothesis Hfin : finite_inputs this.
Hypothesis Hsize :
  ∀ n record, data (node (_graph this) n) = NetworkNode record →
              (0%Z <= transferSize record)%num.

Local Abbreviation any := (λ _ : Error, True).
Local Abbreviation same := (λ a b : State, bytes a = bytes b).
Local Abbreviation Jb := (λ _ s' : State, bytes_within this s').
Local Abbreviation closed := (traverse_closed (_graph this)).
Local Abbreviation X := (λ e : Error, closed → e = MaximumDepthExceeded).
Local Abbreviation N := (closed → False).
Local Abbreviation J := (λ _ s' : State, aux_always s').

Lemma bytes_within_bytes a b :
  bytes a = bytes b → bytes_within this a → bytes_within this b.
Proof.
  intros Hb Ha n aux record Haux Hdata.
  destruct (bytes_aux a b n aux Hb Haux) as (aux' & Haux' & <-).
  by apply (Ha n).
Qed.

Lemma insert_bytes n aux aux' s :
  _nodeAuxiliaryData s !! n = Some aux →
  bytesDownloaded aux' = bytesDownloaded aux →
  bytes s = bytes (set_nodeAuxiliaryData <[n := aux']> s).
Proof.
  intros Haux Hb. unfold bytes. simpl_state.
  rewrite fmap_insert, Hb. symmetry. apply insert_id.
  by rewrite lookup_fmap, Haux.
Qed.

Lemma bytes_within_insert n aux s :
  bytes_within this s →
  (∀ record, data (node (_graph this) n) = NetworkNode record →
             (bytesDownloaded aux <= transferSize record)%num) →
  bytes_within this (set_nodeAuxiliaryData <[n := aux]> s).
Proof.
  intros Hs Haux m aux' record. simpl_state.
  intros [[<- <-]|[_ Hm]]%lookup_insert_Some Hdata; [by apply Haux|].
  by apply (Hs m).
Qed.

(** *** Calls that credit no bytes *)

Lemma onConnection_bytes {A} id (m : TcpConnection.M A) s :
  wp any True same (onConnection id m) (λ _ _, True) s.
Proof.
  wp_step. destruct (_connections s !! id) as [c|]; [|done].
  by destruct (m c) as [[a c']|].
Qed.

Lemma updateNetworkCapacity_bytes s :
  wp any True same (_updateNetworkCapacity this) (λ _ _, True) s.
Proof.
  unfold _updateNetworkCapacity. wp_step. wp_step.
  apply (wp_for_of _ _ _ (λ _ _, True)); [done|]. intros id _ s' _.
  wp_step. wp_step. apply onConnection_bytes.
Qed.

Lemma estimateTimeRemaining_bytes n s :
  wp any True same (_estimateTimeRemaining this n) (λ _ _, True) s.
Proof.
  unfold _estimateTimeRemaining.
  destruct (data (node (_graph this) n)) as [record|]; [|by wp_step].
  wp_step. wp_step. wp_step. wp_step.
  destruct (_nodeAuxiliaryData s !! n) as [aux|] eqn:Haux; [|done].
  wp_step. wp_step.
  destruct (_connections s !! connectionId record) as [c|] eqn:Hc; [|done].
  destruct (TcpConnection.calculateTimeToDownload _ _ _ c) as [[r c']|] eqn:Hr;
    [|done].
  split; [done|].
  wp_step. wp_step; [|by wp_step].
  by eapply insert_bytes.
Qed.

Lemma findNext_bytes nodes minimumTime s :
  wp any True same (findNext this nodes minimumTime) (λ _ _, True) s.
Proof.
  revert minimumTime s.
  induction nodes as [|m nodes IH]; intros minimumTime s; simpl.
  - by wp_step.
  - wp_step. eapply wp_mono; [apply estimateTimeRemaining_bytes|].
    intros e s' _. apply IH.
Qed.

Lemma enqueue_bytes d s :
  wp any True same (_enqueueNodeIfPossible this d) (λ _ _, True) s.
Proof.
  unfold _enqueueNodeIfPossible. wp_step. wp_step.
  destruct (_ && _); by wp_step.
Qed.

Lemma frame_bytes {A} (m : E A) s :
  (∀ s, wp any True same m (λ _ _, True) s) →
  bytes_within this s →
  wp any True Jb m
     (λ _ s', bytes_within this s' ∧ bytes s' = bytes s) s.
Proof.
  intros Hm Hs. eapply wp_mono.
  - apply (wp_frame bytes (bytes_within this));
      [apply bytes_within_bytes|apply Hm|done].
  - cbv beta. by intros a s' (_ & Hb & Hs').
Qed.

(** *** Starting and progressing *)

Lemma start_bytes n t s :
  bytes_within this s →
  wp any True Jb (_startNodeIfPossible this n t)
     (λ _ s', bytes_within this s') s.
Proof.
  intros Hs. unfold _startNodeIfPossible.
  destruct (data (node (_graph this) n)) as [record|] eqn:Hdata;
    [|by wp_step].
  do 3 (wp_step; wp_step).
  destruct (_ || _); [by wp_step|].
  wp_step. wp_step.
  destruct (_connections s !! connectionId record) as [c|]; [|done].
  match goal with |- wp _ _ _ _ _ ?s0 => change s0 with s end.
  match goal with |- context [set_nodeAuxiliaryData <[n := ?a]>] =>
    assert (bytes_within this (set_nodeAuxiliaryData <[n := a]> s)) as Hs'
  end.
  { apply bytes_within_insert; [done|]. cbn [bytesDownloaded].
    intros record' Hdata'. rewrite Hdata in Hdata'. injection Hdata' as <-.
    by apply (Hsize n). }
  wp_step. wp_step; [exact Hs|].
  wp_step. wp_step; [exact Hs|].
  wp_step. wp_step; [exact Hs'|].
  wp_step; [exact Hs'|]. exact Hs'.
Qed.

Lemma updateProgress_bytes n timePeriodLength t s :
  bytes_within this s → aux_always s → connections_finite s →
  wp any True Jb
     (_updateProgressMadeInTimePeriod this n timePeriodLength t)
     (λ _ s', bytes_within this s') s.
Proof.
  intros Hs Hok Hcf. unfold _updateProgressMadeInTimePeriod.
  destruct (data (node (_graph this) n)) as [record|] eqn:Hdata;
    [|by wp_step].
  wp_step. wp_step. wp_step. wp_step.
  destruct (_nodeAuxiliaryData s !! n) as [aux|] eqn:Haux; [|done].
  destruct (Hok n aux Haux) as (Hte & Hbd & _ & _).
  assert (Num.isFinite (transferSize record) = true) as Hsz.
  { destruct Hfin as (_ & _ & _ & H). by eapply H. }
  wp_step. wp_step.
  destruct (_connections s !! connectionId record) as [c|] eqn:Hc; [|done].
  destruct (TcpConnection.calculateTimeToDownload _ _ _ c) as [[r c']|] eqn:Hcalc;
    [|done].
  assert (TcpConnection.bytesDownloaded r
          <= transferSize record - bytesDownloaded aux)%num as Hle.
  { eapply calculateTimeToDownload_bytes_le; [..|exact Hcalc];
      [by eapply Hcf|by apply NumFacts.isFinite_sub|done]. }
  assert (∀ s0, bytes s0 = bytes s → bytes_within this s0) as Hkeep.
  { intros s0 H0. eapply bytes_within_bytes; [|exact Hs]. done. }
  split; [by apply Hkeep|].
  wp_step. eapply wp_mono.
  { apply frame_bytes; [intros; apply onConnection_bytes|].
    by apply Hkeep. }
  cbv beta. intros [] s2 [Hs2 Hb2].
  assert (∃ aux2, _nodeAuxiliaryData s2 !! n = Some aux2
                  ∧ bytesDownloaded aux2 = bytesDownloaded aux)
    as (aux2 & Haux2 & Hbytes2).
  { apply (bytes_aux s2 s n aux); [|done]. rewrite Hb2. done. }
  destruct (strictly_equal _ _).
  - wp_step. wp_step.
    { eapply bytes_within_bytes; [|exact Hs2]. by eapply insert_bytes. }
    wp_step. eapply wp_mono.
    { apply frame_bytes; [intros; apply onConnection_bytes|].
      eapply bytes_within_bytes; [|exact Hs2]. by eapply insert_bytes. }
    cbv beta. intros [] s4 [Hs4 _].
    do 3 (wp_step; wp_step; [exact Hs4|]).
    eapply wp_mono.
    { apply (wp_for_of _ _ _ (λ _ s', bytes_within this s')); [exact Hs4|].
      intros d _ s' Hs'. eapply wp_mono.
      - apply frame_bytes; [intros; apply enqueue_bytes|exact Hs'].
      - cbv beta. by intros [] s'' [? _]. }
    done.
  - assert (bytes_within this
              (set_nodeAuxiliaryData
                 <[n := {| startTime := startTime aux;
                           timeElapsed :=
                             (timeElapsed aux
                              + TcpConnection.timeElapsed r)%num;
                           timeElapsedOvershoot :=
                             (timeElapsedOvershoot aux
                              + (TcpConnection.timeElapsed r
                                 - timePeriodLength))%num;
                           bytesDownloaded :=
                             (bytesDownloaded aux
                              + TcpConnection.bytesDownloaded r)%num;
                           estimatedTimeElapsed := estimatedTimeElapsed aux;
                           endTime := endTime aux |}]> s2)) as Hs3.
    { apply bytes_within_insert; [done|]. cbn [bytesDownloaded].
      intros record' Hdata'. rewrite Hdata in Hdata'. injection Hdata' as <-.
      by apply add_within. }
    wp_step; [exact Hs3|exact Hs3].
Qed.

(** *** The loop *)

Lemma iteration_bytes t s :
  full_inv this s → bytes_within this s →
  wp any True Jb (iteration this t) (λ _ s', bytes_within this s') s.
Proof.
  intros Hinv Hs. unfold iteration. wp_step. wp_step. wp_step.
  eapply wp_mono.
  { eapply wp_post_and; [by apply (start_phase_full this t s)|].
    apply (wp_for_of _ _ _ (λ _ s', bytes_within this s')); [exact Hs|].
    intros n _ s' Hs'. by apply start_bytes. }
  cbv beta. intros [] s1 [Hinv1 Hs1]. wp_step.
  eapply wp_mono.
  { eapply wp_post_and.
    - eapply wp_post_and.
      + apply updateNetworkCapacity_structure, Hinv1.
      + by apply (updateNetworkCapacity_numeric this Hfin).
    - apply frame_bytes; [intros; apply updateNetworkCapacity_bytes|exact Hs1]. }
  cbv beta. intros [] s2 ((Hstr2 & Hnum2 & Htot2) & Hs2 & _).
  assert (full_inv this s2) as Hinv2 by done.
  wp_step. unfold _findNextNodeCompletionTime. wp_step. wp_step.
  eapply wp_mono.
  { eapply wp_post_and.
    - apply (findNext_full this Hfin); [exact Hinv2|done|apply Hinv2|by left].
    - apply frame_bytes; [intros; apply findNext_bytes|exact Hs2]. }
  cbv beta.
  intros minimumTime s3
    ((Hinv3 & Hproc3 & _ & _ & Hfresh3 & _ & Hmin) & Hs3 & _).
  wp_step. wp_step. wp_step.
  eapply wp_mono.
  { apply (wp_for_of _ _ _ (λ rest s',
             full_inv this s' ∧ NoDup rest
             ∧ (rest ≠ [] → Num.isFinite minimumTime = true)
             ∧ (∀ n, n ∈ rest →
                     n ∈ _nodesInProcess s' ∧ fresh this minimumTime s' n)
             ∧ bytes_within this s')).
    - split; [done|]. split; [apply Hinv3|]. split; [|split; [|done]].
      + intros Hne. apply Hmin. right. by rewrite <- Hproc3.
      + intros n Hn. split; [done|]. apply Hfresh3. by rewrite <- Hproc3.
    - intros n rest s' (Hinv' & Hnodup & Hfinite & Hrest & Hs').
      apply NoDup_cons in Hnodup as [Hn Hnodup].
      destruct (Hrest n) as [Hin Hfresh]; [by left|].
      eapply wp_mono.
      + eapply wp_post_and.
        * eapply wp_post_and.
          -- apply updateProgress_structure; [apply Hinv'|done].
          -- by apply (updateProgress_numeric this Hfin);
               [..|apply Hfinite|].
        * apply updateProgress_bytes; [done|apply Hinv'|apply Hinv'].
      + cbv beta.
        intros [] s'' (((Hstr & Hkeep) & Hnum & Htot & Hframe) & Hs'').
        split; [done|]. split; [done|]. split; [intros _; by apply Hfinite|].
        split; [|done].
        intros m Hm. assert (m ≠ n) as Hne by (intros ->; done).
        destruct (Hrest m) as [Hin' Hfresh']; [by right|].
        split; [by apply Hkeep|by apply Hframe]. }
  cbv beta. intros [] s4 (_ & _ & _ & _ & Hs4). by wp_step.
Qed.

Lemma main_loop_bytes budget t s :
  full_inv this s → bytes_within this s →
  wp any True Jb (main_loop this budget t) (λ _ _, True) s.
Proof.
  revert t s.
  induction budget as [|budget IH]; intros t s Hinv Hs; simpl.
  - wp_step. wp_step. wp_step. wp_step.
    destruct (_ || _); [|by wp_step].
    wp_step. eapply wp_mono; [by apply iteration_bytes|].
    intros t' s' Hs'. cbv beta. by wp_step.
  - wp_step. wp_step. wp_step. wp_step.
    destruct (_ || _); [|by wp_step].
    wp_step. eapply wp_mono.
    { eapply wp_post_and; [by apply (iteration_full this Hfin t s)|].
      by apply iteration_bytes. }
    intros t' s' (Hinv' & Hs'). cbv beta. by apply IH.
Qed.

Lemma initial_state_bytes : bytes_within this (initial_state this).
Proof.
  intros n aux record. unfold initial_state, _initializeAuxiliaryData.
  simpl_state. by rewrite lookup_empty.
Qed.

Lemma history_bytes s : s ∈ history this → bytes_within this s.
Proof.
  destruct (main_loop_bytes (Z.to_nat 10000) 0%Z (initial_state this)
              (initial_state_full this Hfin) initial_state_bytes)
    as [Hchain _].
  apply chain_Forall in Hchain. rewrite Forall_forall in Hchain.
  unfold history. intros [->|Hs]%elem_of_cons.
  - apply initial_state_bytes.
  - by apply Hchain.
Qed.
End Methods.
End EstimatorBytes.

Section BytesProperties.
Import Estimator EstimatorFacts EstimatorBytes.

(** X28.  No more bytes than the request has.  With finite inputs and transfer
    sizes that are not negative: throughout every run of [estimate], after
    each single change of its containers, the bytesDownloaded of every
    NETWORK node is at most the transferSize of its record. *)
Theorem bytesDownloaded_within_transferSize
    (this : Estimator.t) (s : State) (n : NodeId) (aux : AuxiliaryData)
    (record : NetworkRecord) :
  finite_inputs this →
  (∀ n record, data (node (_graph this) n) = NetworkNode record →
               (0%Z <= transferSize record)%num) →
  s ∈ history this →
  _nodeAuxiliaryData s !! n = Some aux →
  data (node (_graph this) n) = NetworkNode record →
  (bytesDownloaded aux <= transferSize record)%num.
Proof.
  intros Hfin Hsize Hs. by apply (history_bytes this Hfin Hsize s Hs).
Qed.
End BytesProperties.

(** *** The statements on the order of the nodes at concrete inputs *)

Section LifecycleWitnesses.
Import Estimator EstimatorFacts Examples LifecycleExamples.

Lemma chain_finite_inputs : finite_inputs chain_estimator.
Proof.
  repeat split. intros n record.
  destruct n as [|[|n]]; simpl; intros [= <-]; reflexivity.
Defined.

Lemma chain_dependents_consistent n d :
  d ∈ getDependencies (node (_graph chain_estimator) n) →
  n ∈ getDependents (node (_graph chain_estimator) d).
Proof.
  destruct n as [|[|n]]; simpl; intros Hd.
  - by apply elem_of_nil in Hd.
  - apply list_elem_of_singleton in Hd. subst d. simpl. by left.
  - by apply elem_of_nil in Hd.
Defined.

Lemma chain_run :
  snd (run chain_estimator) = Ret (chain_total, chain_final_state).
Proof. vm_compute. reflexivity. Defined.

Lemma chain_second_state_in_history :
  chain_second_state ∈ history chain_estimator.
Proof. apply (list_elem_of_lookup_2 _ 20%nat). vm_compute. reflexivity. Defined.

Lemma chain_second_state_in_use :
  ∀ id, id ∈ _connectionsInUse chain_second_state →
        is_Some (_connections chain_second_state !! id).
Proof.
  assert (_connectionsInUse chain_second_state = [2%nat]) as ->
    by (vm_compute; reflexivity).
  intros id ->%list_elem_of_singleton. vm_compute. by eexists.
Defined.

Lemma estimate_respects_dependencies_witness :
  chain_second_state ∈ history chain_estimator
  ∧ 1%nat ∈ _nodesInProcess chain_second_state
  ∧ (1%nat = getRootNode (_graph chain_estimator)
     ∨ ∀ d, d ∈ getDependencies (node (_graph chain_estimator) 1%nat) →
            d ∈ _nodesCompleted chain_second_state).
Proof.
  pose proof chain_second_state_in_history as Hs.
  assert (1%nat ∈ _nodesInProcess chain_second_state) as Hn.
  { apply (list_elem_of_lookup_2 _ 0%nat). vm_compute. reflexivity. }
  split; [exact Hs|]. split; [exact Hn|].
  exact (estimate_respects_dependencies chain_estimator chain_second_state
           1%nat Hs (or_intror (or_introl Hn))).
Defined.

Lemma estimate_returns_when_all_done_witness :
  (∀ n d, d ∈ getDependencies (node (_graph chain_estimator) n) →
          n ∈ getDependents (node (_graph chain_estimator) d))
  ∧ snd (run chain_estimator) = Ret (chain_total, chain_final_state)
  ∧ _nodesInQueue chain_final_state = []
  ∧ _nodesInProcess chain_final_state = []
  ∧ getRootNode (_graph chain_estimator) ∈ _nodesCompleted chain_final_state
  ∧ ∀ n d, n ∈ _nodesCompleted chain_final_state →
           d ∈ getDependents (node (_graph chain_estimator) n) →
           (∀ x, x ∈ getDependencies (node (_graph chain_estimator) d) →
                 x ∈ _nodesCompleted chain_final_state) →
           d ∈ _nodesCompleted chain_final_state.
Proof.
  split; [exact chain_dependents_consistent|]. split; [exact chain_run|].
  exact (estimate_returns_when_all_done chain_estimator chain_total
           chain_final_state chain_dependents_consistent chain_run).
Defined.


Lemma completed_request_warms_connection_witness :
  chain_second_state ∈ history chain_estimator
  ∧ 0%nat ∈ _nodesCompleted chain_second_state
  ∧ ∃ record connection,
      data (node (_graph chain_estimator) 0%nat) = NetworkNode record
      ∧ _connections chain_second_state !! connectionId record = Some connection
      ∧ TcpConnection._warmed connection = true.
Proof.
  pose proof chain_second_state_in_history as Hs.
  assert (0%nat ∈ _nodesCompleted chain_second_state) as Hn.
  { apply (list_elem_of_lookup_2 _ 0%nat). vm_compute. reflexivity. }
  split; [exact Hs|]. split; [exact Hn|].
  destruct (_connections chain_second_state !! 1%nat) as [connection|] eqn:Hc.
  - eexists _, connection. split; [reflexivity|]. split; [exact Hc|].
    exact (completed_request_warms_connection chain_estimator
             chain_second_state 0%nat _ connection Hs Hn Logic.eq_refl Hc).
  - exfalso. vm_compute in Hc. discriminate Hc.
Defined.

Lemma updateNetworkCapacity_equal_share_witness :
  (∀ id, id ∈ _connectionsInUse chain_second_state →
         is_Some (_connections chain_second_state !! id))
  ∧ ∃ s',
      snd (_updateNetworkCapacity chain_estimator chain_second_state)
      = Ret (tt, s')
      ∧ EstimatorLifecycle.node_sets s'
        = EstimatorLifecycle.node_sets chain_second_state
      ∧ _nodeAuxiliaryData s' = _nodeAuxiliaryData chain_second_state
      ∧ ∀ id,
          _connections s' !! id
          = if bool_decide (id ∈ _connectionsInUse chain_second_state)
            then (λ c, TcpConnectionFacts.at_throughput c
                         (_throughput chain_estimator
                          / JSSet.size (_nodesInProcess chain_second_state))%num)
                 <$> _connections chain_second_state !! id
            else _connections chain_second_state !! id.
Proof.
  split; [exact chain_second_state_in_use|].
  exact (updateNetworkCapacity_equal_share chain_estimator chain_second_state
           chain_second_state_in_use).
Defined.

Lemma chain_rtt_nonnegative :
  TcpConnectionFacts.nonnegative (_rtt chain_estimator).
Proof. exists 150. split; [reflexivity|discriminate]. Defined.

Lemma estimate_clock_witness :
  finite_inputs chain_estimator
  ∧ TcpConnectionFacts.nonnegative (_rtt chain_estimator)
  ∧ (∀ s n aux, s ∈ history chain_estimator →
                _nodeAuxiliaryData s !! n = Some aux →
                (0%Z <= startTime aux)%num
                ∧ ∀ e, endTime aux = Some e → (startTime aux <= e)%num)
  ∧ (∀ totalElapsedTime s,
       snd (run chain_estimator) = Ret (totalElapsedTime, s) →
       (0%Z <= totalElapsedTime)%num
       ∧ ∀ n aux, _nodeAuxiliaryData s !! n = Some aux →
                  (startTime aux <= totalElapsedTime)%num
                  ∧ ∀ e, endTime aux = Some e → (e <= totalElapsedTime)%num).
Proof.
  split; [exact chain_finite_inputs|]. split; [exact chain_rtt_nonnegative|].
  exact (estimate_clock chain_estimator chain_finite_inputs
           chain_rtt_nonnegative).
Defined.

Lemma completed_stays_completed_witness :
  (13 <= 20)%nat
  ∧ history chain_estimator !! 13%nat = Some chain_first_state
  ∧ history chain_estimator !! 20%nat = Some chain_second_state
  ∧ 0%nat ∈ _nodesCompleted chain_first_state
  ∧ 0%nat ∈ _nodesCompleted chain_second_state.
Proof.
  assert (history chain_estimator !! 13%nat = Some chain_first_state) as Ha
    by (vm_compute; reflexivity).
  assert (history chain_estimator !! 20%nat = Some chain_second_state) as Hb
    by (vm_compute; reflexivity).
  assert (0%nat ∈ _nodesCompleted chain_first_state) as Hn.
  { apply (list_elem_of_lookup_2 _ 0%nat). vm_compute. reflexivity. }
  split; [lia|]. split; [exact Ha|]. split; [exact Hb|]. split; [exact Hn|].
  apply (completed_stays_completed chain_estimator 13 20 chain_first_state
           chain_second_state 0%nat); [lia|exact Ha|exact Hb|exact Hn].
Defined.





Lemma contention_finite_inputs : finite_inputs contention_estimator.
Proof.
  repeat split. intros n record.
  destruct n as [|[|[|[|[|n]]]]]; simpl; intros [= <-]; reflexivity.
Defined.

Lemma contention_sizes n record :
  data (node (_graph contention_estimator) n) = NetworkNode record →
  (0%Z <= transferSize record)%num.
Proof.
  destruct n as [|[|[|[|[|n]]]]]; simpl; intros [= <-]; reflexivity.
Defined.

Lemma bytesDownloaded_within_transferSize_witness :
  finite_inputs contention_estimator
  ∧ (∀ n record,
       data (node (_graph contention_estimator) n) = NetworkNode record →
       (0%Z <= transferSize record)%num)
  ∧ contention_state ∈ history contention_estimator
  ∧ ∃ aux record,
      _nodeAuxiliaryData contention_state !! 1%nat = Some aux
      ∧ data (node (_graph contention_estimator) 1%nat) = NetworkNode record
      ∧ (bytesDownloaded aux <= transferSize record)%num.
Proof.
  assert (contention_state ∈ history contention_estimator) as Hs.
  { apply (list_elem_of_lookup_2 _ 40%nat). vm_compute. reflexivity. }
  split; [exact contention_finite_inputs|].
  split; [exact contention_sizes|]. split; [exact Hs|].
  destruct (_nodeAuxiliaryData contention_state !! 1%nat) as [aux|] eqn:Haux.
  - eexists aux, _. split; [reflexivity|]. split; [reflexivity|].
    exact (bytesDownloaded_within_transferSize contention_estimator
             contention_state 1%nat aux _ contention_finite_inputs
             contention_sizes Hs Haux Logic.eq_refl).
  - exfalso. vm_compute in Haux. discriminate Haux.
Defined.
End LifecycleWitnesses.

(* ===================================================================== *)
(** ** Properties of the unused-css-rules audit *)
(* ===================================================================== *)

Module UnusedCSSRulesFacts.
Import UnusedCSSRules.

Lemma length_nonempty (s : string) : s ≠ ""%string → (0 < String.length s)%nat.
Proof. destruct s; [done|]. simpl. lia. Qed.

(** Rounding a number between [0] and a whole number [n] gives a whole
    number between [0] and [n]. *)
Lemma round_between (x : Q) (n : Z) :
  0 <= x → x <= inject_Z n →
  (0 <= Qfloor (Qred x + (1 # 2)) <= n)%Z.
Proof.
  intros H0 Hn.
  assert (Qred x == x) as Hred by apply Qred_correct.
  split.
  - change 0%Z with (Qfloor 0). apply Qfloor_resp_le. rewrite Hred. lra.
  - assert (Qfloor (Qred x + (1 # 2)) < n + 1)%Z; [|lia].
    rewrite Zlt_Qlt, inject_Z_plus. change (inject_Z 1) with 1.
    pose proof (Qfloor_le (Qred x + (1 # 2))) as Hf.
    rewrite Hred in Hf at 2. lra.
Qed.
End UnusedCSSRulesFacts.

Module UnusedCSSRulesUsage.
Import UnusedCSSRules UnusedCSSRulesFacts.

(** The share of a sheet that is not used is between 0 and 1. *)
Lemma percentUnused_between (u l : Q) :
  0 <= u → u <= l → 0 < l →
  0 <= Qred (Qred (l + - u) / l) <= 1.
Proof.
  intros H0 Hl Hpos. rewrite !Qred_correct. split.
  - apply Qle_shift_div_l; [done|]. lra.
  - apply Qle_shift_div_r; [done|]. lra.
Qed.

Lemma of_nat_pos (n : nat) : (0 < n)%nat → 0 < inject_Z (Z.of_nat n).
Proof. intros H. change 0 with (inject_Z 0). rewrite <- Zlt_Qlt. lia. Qed.

Lemma of_nat_nonneg (n : nat) : 0 <= inject_Z (Z.of_nat n).
Proof. change 0 with (inject_Z 0). rewrite <- Zle_Qle. lia. Qed.

Lemma Qeq_bool_pos (x : Q) : 0 < x → Qeq_bool x 0 = false.
Proof.
  intros H. destruct (Qeq_bool x 0) eqn:E; [|done].
  apply Qeq_bool_eq in E. lra.
Qed.

(** What [computeUsage] takes for the total when there is no network
    record: a whole number. *)
Lemma guessed_total (l : nat) :
  ∃ total : nat,
    Math_round (Num.of_nat l / 3%Z)%num = Num.of_nat total.
Proof.
  unfold Num.of_nat, Num.of_Z, Num.div.
  change (Qeq_bool (inject_Z 3) 0) with false. cbn [Math_round Num.fin].
  destruct (round_between (inject_Z (Z.of_nat l) / inject_Z 3) (Z.of_nat l))
    as [Hlo _].
  - apply Qle_shift_div_l; [done|]. pose proof (of_nat_nonneg l). lra.
  - apply Qle_shift_div_r; [done|]. pose proof (of_nat_nonneg l).
    change (inject_Z 3) with 3. lra.
  - exists (Z.to_nat (Qfloor (Qred (inject_Z (Z.of_nat l) / inject_Z 3) + (1 # 2)))).
    unfold Num.of_Z. by rewrite Z2Nat.id.
Qed.
End UnusedCSSRulesUsage.

Section UsageProperties.
Import UnusedCSSRules UnusedCSSRulesFacts UnusedCSSRulesUsage.

(** X18.  What a stylesheet wastes is within its size.  For a stylesheet whose
    content is not empty, whose used rules cover a number of bytes between 0
    and the length of the content, and whose network record, if it has one,
    has a natural number for transferSize: computeUsage returns natural
    numbers for wastedBytes and totalBytes, with wastedBytes at most
    totalBytes, and a wastedPercent between 0 and 100. *)
Theorem computeUsage_within_total
    (stylesheetInfo : StylesheetInfo) (isInline : bool) (size : nat) :
  content stylesheetInfo ≠ ""%string →
  (0%Z <= usedUncompressedBytes stylesheetInfo)%num →
  (usedUncompressedBytes stylesheetInfo
   <= Num.of_nat (String.length (content stylesheetInfo)))%num →
  (∀ record, networkRecord stylesheetInfo = Some record →
             transferSize record = Num.of_nat size) →
  let usage := computeUsage stylesheetInfo isInline in
  (∃ wasted total : nat,
      wastedBytes usage = Num.of_nat wasted
      ∧ totalBytes usage = Num.of_nat total ∧ (wasted <= total)%nat)
  ∧ (0%Z <= wastedPercent usage)%num ∧ (wastedPercent usage <= 100%Z)%num.
Proof.
  intros Hne H0 Hl Hrecord usage. subst usage. unfold computeUsage.
  cbn [wastedBytes totalBytes wastedPercent].
  apply length_nonempty, of_nat_pos in Hne.
  set (l := String.length (content stylesheetInfo)) in *.
  assert (∃ total : nat,
            match networkRecord stylesheetInfo with
            | Some record => transferSize record
            | None => Math_round (Num.of_nat l / 3%Z)%num
            end = Num.of_nat total) as [total ->].
  { destruct (networkRecord stylesheetInfo) as [record|].
    - exists size. by apply Hrecord.
    - apply guessed_total. }
  destruct (usedUncompressedBytes stylesheetInfo) as [u| | |]; [|done..].
  unfold Num.le, Num.leb, Num.of_Z in H0, Hl. unfold Num.of_nat, Num.of_Z in Hl.
  apply Qle_bool_iff in H0, Hl. change (inject_Z 0) with 0 in H0.
  destruct (percentUnused_between u _ H0 Hl Hne) as [Hlo Hhi].
  unfold Num.of_nat, Num.of_Z, Num.sub, Num.neg, Num.add, Num.div, Num.fin.
  rewrite (Qeq_bool_pos _ Hne).
  set (p := Qred (Qred (inject_Z (Z.of_nat l) + - u) / inject_Z (Z.of_nat l))) in *.
  unfold Num.mul, Num.fin. cbn [Math_round]. split.
  - destruct (round_between (p * inject_Z (Z.of_nat total)) (Z.of_nat total))
      as [Hw0 Hw].
    + apply Qmult_le_0_compat; [done|apply of_nat_nonneg].
    + pose proof (of_nat_nonneg total).
      rewrite <- (Qmult_1_l (inject_Z (Z.of_nat total))) at 2.
      by apply Qmult_le_compat_r.
    + exists (Z.to_nat (Qfloor (Qred (p * inject_Z (Z.of_nat total)) + (1 # 2)))), total.
      unfold Num.of_Z. rewrite Z2Nat.id by done. split; [done|]. split; [done|]. lia.
  - unfold Num.le, Num.leb. split; apply Qle_bool_iff; rewrite Qred_correct.
    + change (inject_Z 0) with 0. change (inject_Z 100) with 100. lra.
    + change (inject_Z 100) with 100. lra.
Qed.
End UsageProperties.

Section EmptyContent.
Import UnusedCSSRules UnusedCSSRulesFacts UnusedCSSRulesUsage.

(** X19.  An empty stylesheet.  For a stylesheet whose content is the empty
    string, whose used rules cover a number of bytes that is not negative,
    and whose network record, if it has one, has a transferSize that is not
    negative: the wastedBytes and the wastedPercent that computeUsage
    returns are NaN or -Infinity, so [wastedBytes > 1024] is false. *)
Theorem computeUsage_empty_content
    (stylesheetInfo : StylesheetInfo) (isInline : bool) :
  content stylesheetInfo = ""%string →
  (0%Z <= usedUncompressedBytes stylesheetInfo)%num →
  (∀ record, networkRecord stylesheetInfo = Some record →
             (0%Z <= transferSize record)%num) →
  let usage := computeUsage stylesheetInfo isInline in
  (wastedBytes usage = NaN ∨ wastedBytes usage = NInf)
  ∧ (wastedPercent usage = NaN ∨ wastedPercent usage = NInf)
  ∧ Num.gtb (wastedBytes usage) 1024%Z = false.
Proof.
  intros Hempty H0 Hrecord usage. subst usage. unfold computeUsage.
  cbn [wastedBytes totalBytes wastedPercent]. rewrite Hempty.
  change (Num.of_nat (String.length "")) with (Fin 0).
  set (total := match networkRecord stylesheetInfo with
                | Some record => transferSize record
                | None => Math_round (Fin 0 / 3%Z)%num
                end).
  assert (0%Z <= total)%num as Htotal.
  { subst total. destruct (networkRecord stylesheetInfo) as [record|]; [|done].
    by apply Hrecord. }
  clearbody total.
  assert ((Fin 0 - usedUncompressedBytes stylesheetInfo) / Fin 0 = NaN
          ∨ (Fin 0 - usedUncompressedBytes stylesheetInfo) / Fin 0 = NInf)%num
    as Hp.
  { destruct (usedUncompressedBytes stylesheetInfo) as [u| | |]; [|by right|done..].
    unfold Num.le, Num.leb, Num.of_Z in H0. apply Qle_bool_iff in H0.
    change (inject_Z 0) with 0 in H0.
    unfold Num.sub, Num.neg, Num.add, Num.fin, Num.div.
    change (Qeq_bool 0 0) with true. unfold Num.scale_inf, Num.Qltb.
    assert (Qred (0 + - u) <= 0) as Hle by (rewrite Qred_correct; lra).
    apply Qle_bool_iff in Hle. rewrite Hle. cbn [negb Num.neg].
    destruct (negb _); [by right|by left]. }
  destruct Hp as [-> | ->].
  - split; [by left|]. split; [by left|]. done.
  - assert (NInf * total = NaN ∨ NInf * total = NInf)%num as Hw.
    { destruct total as [t| | |]; [|by right|done..].
      unfold Num.le, Num.leb, Num.of_Z in Htotal. apply Qle_bool_iff in Htotal.
      cbn [Num.mul]. unfold Num.scale_inf, Num.Qltb.
      destruct (negb (Qle_bool t 0)); [by right|].
      apply Qle_bool_iff in Htotal. change (inject_Z 0) with 0 in Htotal.
      rewrite Htotal. by left. }
    split; [|split; [by right|]].
    + destruct Hw as [-> | ->]; [by left|by right].
    + by destruct Hw as [-> | ->].
Qed.
End EmptyContent.

Module UnusedCSSRulesIndex.
Import UnusedCSSRules.



End UnusedCSSRulesIndex.

Section IndexProperties.
Import UnusedCSSRules UnusedCSSRulesIndex.


End IndexProperties.

(** *** The statements on [computeUsage] at concrete inputs *)

Section UsageWitnesses.
Import UnusedCSSRules UnusedCSSRulesExamples.

Lemma computeUsage_within_total_witness :
  content half_used_sheet ≠ ""%string
  ∧ (0%Z <= usedUncompressedBytes half_used_sheet)%num
  ∧ (usedUncompressedBytes half_used_sheet
     <= Num.of_nat (String.length (content half_used_sheet)))%num
  ∧ (∃ wasted total : nat,
        wastedBytes (computeUsage half_used_sheet false) = Num.of_nat wasted
        ∧ totalBytes (computeUsage half_used_sheet false) = Num.of_nat total
        ∧ (wasted <= total)%nat)
  ∧ (0%Z <= wastedPercent (computeUsage half_used_sheet false))%num
  ∧ (wastedPercent (computeUsage half_used_sheet false) <= 100%Z)%num.
Proof.
  assert (content half_used_sheet ≠ ""%string) as Hne by discriminate.
  assert (0%Z <= usedUncompressedBytes half_used_sheet)%num as H0
    by reflexivity.
  assert (usedUncompressedBytes half_used_sheet
          <= Num.of_nat (String.length (content half_used_sheet)))%num as Hl
    by reflexivity.
  split; [exact Hne|]. split; [exact H0|]. split; [exact Hl|].
  apply (computeUsage_within_total half_used_sheet false 1000 Hne H0 Hl).
  intros record [= <-]. reflexivity.
Defined.

Lemma computeUsage_empty_content_witness :
  content empty_sheet = ""%string
  ∧ (0%Z <= usedUncompressedBytes empty_sheet)%num
  ∧ (wastedBytes (computeUsage empty_sheet true) = NaN
     ∨ wastedBytes (computeUsage empty_sheet true) = NInf)
  ∧ (wastedPercent (computeUsage empty_sheet true) = NaN
     ∨ wastedPercent (computeUsage empty_sheet true) = NInf)
  ∧ Num.gtb (wastedBytes (computeUsage empty_sheet true)) 1024%Z = false.
Proof.
  assert (0%Z <= usedUncompressedBytes empty_sheet)%num as H0 by reflexivity.
  split; [reflexivity|]. split; [exact H0|].
  apply (computeUsage_empty_content empty_sheet true Logic.eq_refl H0).
  intros record [=].
Defined.
End UsageWitnesses.

(** *** The preview of a stylesheet *)

Module ContentPreviewFacts.
Import ContentPreview.
Local Open Scope string_scope.

Lemma length_slice_to n s : (String.length (slice_to n s) <= n)%nat.
Proof.
  revert s. induction n as [|n IH]; intros s; [done|].
  destruct s as [|c s]; cbn [slice_to String.length]; [lia|].
  specialize (IH s). lia.
Qed.

Lemma length_app (a b : string) :
  String.length (a ++ b) = (String.length a + String.length b)%nat.
Proof.
  induction a as [|c a IH]; [done|].
  change (String c a ++ b) with (String c (a ++ b)).
  cbn [String.length]. by rewrite IH.
Qed.

(** [lastIndexOf] is [-1] or the index of a character. *)
Lemma lastIndexOf_bound c s :
  (-1 <= lastIndexOf c s < Z.of_nat (String.length s))%Z.
Proof.
  induction s as [|x s IH]; [cbn; lia|]. cbn [lastIndexOf String.length].
  destruct (lastIndexOf c s =? -1)%Z eqn:E.
  - destruct (Ascii.eqb x c); lia.
  - apply Z.eqb_neq in E. lia.
Qed.
End ContentPreviewFacts.

Section PreviewProperties.
Import ContentPreview ContentPreviewFacts.
Local Open Scope string_scope.

(** X29.  The preview is short.  Whatever the content of a stylesheet,
    determineContentPreview returns at most 110 characters: at most 100
    characters of the content, with its indentation reduced, and at most
    10 characters that mark where it was cut. *)
Theorem determineContentPreview_length (content : string) :
  (String.length (determineContentPreview content) <= 110)%nat.
Proof.
  unfold determineContentPreview.
  set (preview := trim _).
  destruct (Z.of_nat (String.length preview) >? PREVIEW_LENGTH)%Z eqn:Hlong.
  2:{ unfold PREVIEW_LENGTH in Hlong. lia. }
  pose proof (length_slice_to (Z.to_nat PREVIEW_LENGTH) preview) as Hslice.
  change (Z.to_nat PREVIEW_LENGTH) with 100%nat in *.
  destruct ((indexOf "{" preview =? -1)%Z || (indexOf "}" preview =? -1)%Z
            || (indexOf "{" preview >? indexOf "}" preview)%Z
            || (indexOf "{" preview >? PREVIEW_LENGTH)%Z).
  - rewrite length_app. cbn [String.length]. lia.
  - destruct (indexOf "}" preview <? PREVIEW_LENGTH)%Z eqn:Hend.
    + rewrite length_app. cbn [String.length].
      pose proof (length_slice_to (Z.to_nat (indexOf "}" preview + 1)) preview).
      unfold PREVIEW_LENGTH in Hend. lia.
    + pose proof (lastIndexOf_bound ";" (slice_to 100 preview)) as Hsemi.
      destruct (lastIndexOf ";" (slice_to 100 preview) <? indexOf "{" preview)%Z.
      * rewrite length_app. cbn [String.length]. lia.
      * rewrite length_app. cbn [String.length].
        pose proof (length_slice_to
                      (Z.to_nat (lastIndexOf ";" (slice_to 100 preview) + 1))
                      preview).
        lia.
Qed.
End PreviewProperties.

(* ===================================================================== *)
(** ** Properties of the Chrome launcher *)
(* ===================================================================== *)

Module LauncherPolling.
Import Launcher LauncherFacts.

Lemma checks_app (a b : list Event) : checks (a ++ b) = (checks a + checks b)%nat.
Proof. unfold checks. by rewrite List.filter_app, length_app. Qed.

Lemma waited_app (a b : list Event) : waited (a ++ b) = (waited a + waited b)%Z.
Proof.
  unfold waited. induction a as [|e a IH]; [done|]. cbn [app foldr].
  rewrite IH. destruct e; lia.
Qed.

(** [poll] from the attempt [retries] on, with [count] attempts left. *)
Lemma poll_spec (world : World) (count : nat) :
  ∀ fuel retries waitStatus events,
    (retries + count = 11)%nat → (1 <= count <= fuel)%nat →
    ∃ settled events',
      poll world fuel retries waitStatus events = Some (settled, events ++ events')
      ∧ match first_connection world retries count with
        | Some k =>
            settled = Resolved
            ∧ (retries + checks events' = S k)%nat
            ∧ waited events' = (500 * (Z.of_nat k - Z.of_nat retries))%Z
        | None =>
            checks events' = count
            ∧ waited events' = (500 * (Z.of_nat count - 1))%Z
            ∧ ∃ err, doesDebuggingPortConnect world 10 = Refuses err
                     ∧ settled = match readErrLog world with
                                 | Some _ => Rejected err
                                 | None => Pending
                                 end
        end.
Proof.
  induction count as [|count IH]; intros fuel retries waitStatus events Hsum Hfuel;
    [lia|].
  destruct fuel as [|fuel]; [lia|]. cbn [poll first_connection].
  destruct (doesDebuggingPortConnect world retries) as [|err] eqn:Hconnect.
  - eexists _, _. rewrite <- !app_assoc. split; [reflexivity|].
    split; [done|]. rewrite !checks_app, !waited_app. cbn. split; lia.
  - destruct count as [|count].
    + assert (retries = 10%nat) as -> by lia.
      change (maxPortCheckRetries <? 11)%nat with true. cbn [first_connection].
      destruct (readErrLog world) as [stderr|];
        (eexists _, _; rewrite <- !app_assoc; split; [reflexivity|];
         rewrite !checks_app, !waited_app; cbn;
         split; [done|]; split; [done|]; by exists err).
    + assert ((maxPortCheckRetries <? S retries)%nat = false) as ->.
      { apply Nat.ltb_ge. unfold maxPortCheckRetries. lia. }
      destruct (IH fuel (S retries) (waitStatus +:+ "..")%string
                  (((events ++ [Log log_verbose (Status waitStatus)])
                    ++ [Connect]) ++ [Delay pollInterval]))
        as (settled & events' & Hpoll & Hspec); [lia|lia|].
      exists settled. eexists. rewrite Hpoll. rewrite <- !app_assoc.
      split; [reflexivity|]. rewrite !checks_app, !waited_app.
      destruct (first_connection world (S retries) (S count)) as [k|].
      * destruct Hspec as (-> & Hchecks & Hwaited). split; [done|].
        cbn in *. unfold pollInterval. split; lia.
      * destruct Hspec as (Hchecks & Hwaited & Herr). cbn in *.
        unfold pollInterval. split; [lia|]. split; [lia|done].
Qed.
End LauncherPolling.

Section PollingProperties.
Import Launcher LauncherFacts LauncherPolling.

(** X22.  Waiting for the debugging port.  waitUntilReady checks the port at most
    11 times, 500 ms apart.  If one of the first 11 checks connects, the
    promise resolves at the first that does, after that many checks and a
    delay before each but the first.  Otherwise it has made 11 checks and
    waited 5 s in all; it then rejects with the error of the 11th check, or,
    if the error log of Chrome cannot be read, is never settled. *)
Theorem waitUntilReady_polls (world : World) (fuel : nat) :
  (11 <= fuel)%nat →
  ∃ settled events,
    waitUntilReady world fuel = Some (settled, events)
    ∧ match first_connection world 0 11 with
      | Some k =>
          settled = Resolved
          ∧ checks events = S k
          ∧ waited events = (500 * Z.of_nat k)%Z
      | None =>
          checks events = 11%nat
          ∧ waited events = 5000%Z
          ∧ ∃ err, doesDebuggingPortConnect world 10 = Refuses err
                   ∧ settled = match readErrLog world with
                               | Some _ => Rejected err
                               | None => Pending
                               end
      end.
Proof.
  intros Hfuel. unfold waitUntilReady.
  destruct (poll_spec world 11 fuel 0 "Attempting to connect..."%string
              [Log log_log Establishing])
    as (settled & events' & Hpoll & Hspec); [done|lia|].
  exists settled, ([Log log_log Establishing] ++ events').
  split; [done|]. rewrite checks_app, waited_app.
  destruct (first_connection world 0 11) as [k|].
  - destruct Hspec as (-> & Hchecks & Hwaited). cbn in *. split; [done|].
    split; lia.
  - destruct Hspec as (Hchecks & Hwaited & Herr). cbn in *.
    split; [lia|]. split; [lia|done].
Qed.
End PollingProperties.

Section PollingWitnesses.
Import Launcher LauncherFacts.

Lemma waitUntilReady_polls_witness :
  (11 <= 11)%nat
  ∧ ∃ settled events,
      waitUntilReady (ready_after 3 None) 11 = Some (settled, events)
      ∧ match first_connection (ready_after 3 None) 0 11 with
        | Some k =>
            settled = Resolved
            ∧ checks events = S k
            ∧ waited events = (500 * Z.of_nat k)%Z
        | None =>
            checks events = 11%nat
            ∧ waited events = 5000%Z
            ∧ ∃ err, doesDebuggingPortConnect (ready_after 3 None) 10
                     = Refuses err
                     ∧ settled = match readErrLog (ready_after 3 None) with
                                 | Some _ => Rejected err
                                 | None => Pending
                                 end
        end.
Proof.
  split; [lia|]. apply (waitUntilReady_polls (ready_after 3 None) 11). lia.
Defined.
End PollingWitnesses.
